(** * GLM interactive inference: decoding control logic

    A shallow embedding of [inference_glm.py] (prompt synchronisation,
    logits filtering, the sampling / beam loop, mask infilling), of the
    generation helpers of [examples/chatglm/chat_model.py] and of the
    parameter copying of [examples/vit/transform_param.py].

    Conventions.
    - A 2-D tensor is a list of rows; a 1-D tensor is a list.
    - Float logits are exact rationals [Q] extended with minus infinity
      (the [filter_value]); rounding is not modelled, overflow of the
      division by the temperature is ([max_float]).
    - Integer tensors are [Z]; where a product can leave [int64], its
      wrap-around is written out ([wrap64]).
    - [exp] is an abstract positive monotone weight (class [Exp]).
    - Python exceptions are values of [exn]; fallible code runs in the
      [result] monad.
    - Random draws go through an explicit generator state. *)

From Stdlib Require Import ZArith QArith Qround Qpower Lia Lqa String Ascii Permutation Sorted.
From stdpp Require Import base tactics option list sorting.

Set Default Proof Using "Type".
Local Open Scope Z_scope.

(** ** Exceptions and the error monad *)

Inductive exn : Type :=
| NotImplementedError
| RuntimeError
| IndexError
| TypeError
| NameError
| AttributeError
| EOFError.

Inductive result (A : Type) : Type :=
| Ok (a : A)
| Raise (e : exn).
Arguments Ok {A} a.
Arguments Raise {A} e.

#[global] Instance result_ret : MRet result := fun A a => Ok a.
#[global] Instance result_bind : MBind result := fun A B f m =>
  match m with
  | Ok a => f a
  | Raise e => Raise e
  end.
#[global] Instance result_fmap : FMap result := fun A B f m =>
  match m with
  | Ok a => Ok (f a)
  | Raise e => Raise e
  end.

(** [for x in xs: acc = body(acc, x)] with exceptions. *)
Fixpoint foldM {A B} (body : B → A → result B) (acc : B) (xs : list A) : result B :=
  match xs with
  | [] => Ok acc
  | x :: xs' => acc' ← body acc x; foldM body acc' xs'
  end.

(** [[f(x) for x in xs]] with exceptions. *)
Fixpoint traverse {A B} (f : A → result B) (xs : list A) : result (list B) :=
  match xs with
  | [] => Ok []
  | x :: xs' => y ← f x; ys ← traverse f xs'; Ok (y :: ys)
  end.

(** ** Logits *)

Inductive logit : Type :=
| NegInf
| Fin (q : Q).

Definition Qltb (x y : Q) : bool := negb (Qle_bool y x).

Definition logit_leb (a b : logit) : bool :=
  match a, b with
  | NegInf, _ => true
  | Fin _, NegInf => false
  | Fin x, Fin y => Qle_bool x y
  end.

Definition logit_ltb (a b : logit) : bool := negb (logit_leb b a).

Definition is_filtered (x : logit) : bool :=
  match x with NegInf => true | Fin _ => false end.

(** Number of entries of a row that are not minus infinity. *)
Definition unfiltered (row : list logit) : nat :=
  length (filter (λ x, is_filtered x = false) row).

(** No two entries of the row carry the same value. *)
Definition distinct_values (row : list Q) : Prop :=
  ∀ i j x y, row !! i = Some x → row !! j = Some y → (x == y)%Q → i = j.

(** The exponential, as far as the decoder relies on it. *)
Class Exp := {
  expw : Q → Q;
  expw_pos : ∀ q, (0 < expw q)%Q;
  expw_mono : ∀ p q, (p <= q)%Q → (expw p <= expw q)%Q
}.

Definition Qsum (l : list Q) : Q := foldr Qplus 0%Q l.

Fixpoint cumsum_from (acc : Q) (l : list Q) : list Q :=
  match l with
  | [] => []
  | x :: l' => (acc + x)%Q :: cumsum_from (acc + x)%Q l'
  end.

(** [torch.cumsum(l, dim=-1)] *)
Definition cumsum (l : list Q) : list Q := cumsum_from 0%Q l.

(** ** Sorting ([torch.sort], [torch.topk]) *)

(** A row paired with its positions, [zip(row, range(len(row)))]. *)
Definition indexed {A} (row : list A) : list (A * nat) :=
  zip row (seq 0 (length row)).

(** [desc a b]: [a] may stand before [b] in a descending order. *)
Definition desc (a b : logit * nat) : Prop := logit_leb b.1 a.1 = true.

Fixpoint insert_desc (x : logit * nat) (l : list (logit * nat)) : list (logit * nat) :=
  match l with
  | [] => [x]
  | y :: l' =>
      if logit_leb y.1 x.1 then x :: y :: l' else y :: insert_desc x l'
  end.

(** Descending sort that keeps equal values in their original order. *)
Definition sort_desc (l : list (logit * nat)) : list (logit * nat) :=
  foldr insert_desc [] l.

(** [torch.topk(row, k)]: values and indices of the [k] largest entries;
    raises when [k] exceeds the row size. *)
Definition topk (row : list logit) (k : nat) : result (list logit * list nat) :=
  if decide (k ≤ length row)%nat
  then let top := take k (sort_desc (indexed row)) in Ok (top.*1, top.*2)
  else Raise RuntimeError.

Section LogitsTransform.
Context `{Exp}.

Definition weight (x : logit) : Q :=
  match x with NegInf => 0%Q | Fin q => expw q end.

(** [F.softmax(row, dim=-1)]; [None] stands for a row of NaN, which is
    what a non-empty row without any finite entry yields. *)
Definition softmax (row : list logit) : option (list Q) :=
  let w := weight <$> row in
  let total := Qsum w in
  match row with
  | [] => Some []
  | _ :: _ => if Qeq_bool total 0 then None else Some ((λ x, x / total)%Q <$> w)
  end.

(** Lines 108-111: mask what is below the [top_k]-th largest value. *)
Definition top_k_row (top_k : Z) (row : list logit) : result (list logit) :=
  '(values, _) ← topk row (Z.to_nat top_k);
  match last values with
  | None => Raise IndexError
  | Some kth => Ok ((λ x, if logit_ltb x kth then NegInf else x) <$> row)
  end.

(** [logits[indices] = filter_value] on a 1-D tensor. *)
Definition mask_indices (row : list logit) (indices : list nat) : list logit :=
  foldr (λ i l, <[i := NegInf]> l) row indices.

(** Lines 116-125 on the flattened row.  [above] is
    [cumulative_probs > top_p]; comparisons with NaN are false. *)
Definition top_p_row (top_p : Q) (row : list logit) : result (list logit) :=
  let sorted := sort_desc (indexed row) in
  let sorted_logits := sorted.*1 in
  let sorted_indices := sorted.*2 in
  let above :=
    match softmax sorted_logits with
    | Some probs => (λ c, Qltb top_p c) <$> cumsum probs
    | None => replicate (length row) false
    end in
  match above with
  | [] => Raise IndexError
  | _ :: _ =>
      let sorted_indices_to_remove := false :: removelast above in
      let indices_to_remove :=
        (filter (λ bi, bi.1 = true) (zip sorted_indices_to_remove sorted_indices)).*2 in
      Ok (mask_indices row indices_to_remove)
  end.

(** [filter_value] is always the default, minus infinity.  The [view] of
    line 115 needs a single row.  The tensor is updated in place; the
    model returns the updated value. *)
Definition top_k_logits (logits : list (list logit)) (top_k : Z) (top_p : Q)
  : result (list (list logit)) :=
  logits ← (if decide (0 < top_k) then traverse (top_k_row top_k) logits else Ok logits);
  if Qltb 0 top_p then
    match logits with
    | [row] => row' ← top_p_row top_p row; Ok [row']
    | _ => Raise RuntimeError
    end
  else Ok logits.

End LogitsTransform.

(** ** Configuration and collaborators *)

Record Args : Type := {
  block_lm : bool;
  no_block_position : bool;
  task_mask : bool;
  num_beams : Z;
  out_seq_length : Z;
  max_sequence_length : Z;
  mem_length : Z;
  temperature : Q;
  top_k : Z;
  top_p : Q;
  length_penalty : Q;
  eod_token : Z
}.

Record Tokenizer : Type := {
  EncodeAsIds : string → list Z;
  DecodeIds : list Z → string;
  get_command : string → Z
}.

(** Position ids are [(n, L)] or, with block positions, [(n, 2, L)]. *)
Inductive PositionIds : Type :=
| Pos1 (p : list (list Z))
| Pos2 (p : list (list (list Z))).

(** The mask is the 1-element sentinel of block decoding or a 4-D tensor. *)
Inductive AttentionMask : Type :=
| MaskFlag (m : list Z)
| Mask4 (m : list (list (list (list Z)))).

(** [torch.multinomial(probs, num_samples=1)], one index per row. *)
Class Sampler := {
  rng : Type;
  multinomial : rng → list (list Q) → list nat * rng;
  multinomial_shape : ∀ g probs, length (multinomial g probs).1 = length probs
}.

(** The transformer: [model(tokens, position_ids, attention_mask, *mems)]
    gives logits of shape (batch, seq, vocab) and one cache per layer,
    itself indexed by batch row.  [max_float] is the largest finite value
    of the float type of these logits ([fp16] or [fp32]): arithmetic on
    them that goes beyond it gives an infinity. *)
Class Model := {
  mem : Type;
  model : list (list Z) → PositionIds → AttentionMask → list (list mem)
          → list (list (list Q)) * list (list mem);
  max_float : Q
}.

Record Candidates : Type := {
  next_token_scores : list Q;
  next_tokens : list Z;
  next_indices : list nat
}.

Record BeamOutputs : Type := {
  next_beam_scores : list Q;
  next_beam_tokens : list Z;
  next_beam_indices : list nat
}.

(** What the beam branch of the loop calls on a beam scorer, and the
    scoring of lines 174-186 (log-softmax, the draw of [2 * num_beams]
    candidates without replacement, which raises when fewer entries can
    be drawn, and their sort), whose arithmetic is left to the backend.
    There is no constructor: [inference_glm.py] neither defines nor
    imports [BeamSearchScorer], so that no scorer is ever built. *)
Class BeamBackend `{Sampler} `{Model} := {
  scorer : Type;
  expand_candidates : rng → list (list Q) → list Q → Z → result (Candidates * rng);
  process : scorer → list (list Z) → Candidates → list Z → list (list mem)
            → BeamOutputs * scorer;
  is_done : scorer → bool;
  finalize : scorer → list (list Z) → list Q → Candidates → Z → option (list (list mem))
             → list (list Z) * option (list (list mem))
}.

(** ** Tensor helpers *)

(** [t[:, -1]] *)
Definition select_last {A} (t : list (list A)) : result (list A) :=
  traverse (λ row, match last row with Some v => Ok v | None => Raise IndexError end) t.

(** [t[:, -1:]] *)
Definition last_column {A} (t : list (list A)) : list (list A) :=
  (λ row, drop (length row - 1)%nat row) <$> t.

(** [t[idx]] along the first dimension. *)
Definition index_rows {A} (t : list A) (idx : list nat) : result (list A) :=
  traverse (λ i, match t !! i with Some r => Ok r | None => Raise IndexError end) idx.

(** [torch.cat((a, b), dim=1)] on 2-D tensors. *)
Definition cat_dim1 {A} (a b : list (list A)) : result (list (list A)) :=
  if decide (length a = length b) then Ok (zip_with app a b) else Raise RuntimeError.

(** [t.expand((n, -1))] *)
Definition expand_rows {A} (n : Z) (t : list (list A)) : result (list (list A)) :=
  if decide (n < 0) then Raise RuntimeError
  else if decide (Z.of_nat (length t) = n) then Ok t
  else match t with
       | [row] => Ok (replicate (Z.to_nat n) row)
       | _ => Raise RuntimeError
       end.

(** [torch.arange(n)] *)
Definition arange (n : nat) : list Z := Z.of_nat <$> seq 0 n.

(** ** [get_batch] *)

(** [view(1, -1)] flattens whatever it is given into one row.  The
    [half()] of [fp16] changes the element type only. *)

Definition get_batch (context_tokens : list (list Z)) (args : Args)
  : result (list (list Z) * AttentionMask * PositionIds) :=
  let tokens := concat context_tokens in
  let n := length tokens in
  if block_lm args then
    let attention_mask := Mask4 [[replicate n (replicate n 1)]] in
    let position_ids := arange n in
    let position_ids :=
      if no_block_position args then Pos1 [position_ids]
      else Pos2 [[position_ids; replicate n 0]] in
    Ok ([tokens], attention_mask, position_ids)
  else Raise NotImplementedError.

(** ** [sample_sequence] *)

Section SampleSequence.
Context `{Exp} `{BeamBackend}.
Variable tokenizer : Tokenizer.
Variable args : Args.

(** NaN probabilities make [torch.multinomial] raise.  Division by a
    zero temperature yields only infinities and NaN, whose softmax is NaN;
    the model does not represent these floats and reports the same
    exception at the same place. *)
Definition probabilities (row : list logit) : result (list Q) :=
  if Qeq_bool (temperature args) 0 then Raise RuntimeError
  else match softmax row with
       | None | Some [] => Raise RuntimeError
       | Some p => Ok p
       end.

(** [x / temperature] in the float type of the logits: a quotient above
    [max_float] is plus infinity, for which [None] stands, and one below
    [- max_float] is minus infinity.  Rounding is not modelled. *)
Definition divide (x : Q) : option logit :=
  let q := (x / temperature args)%Q in
  if Qltb max_float q then None
  else if Qltb q (- max_float) then Some NegInf
  else Some (Fin q).

(** Lines 207-210: temperature, filtering, softmax and the draw.  A plus
    infinity among the quotients survives the filtering and makes the
    softmax NaN, on which [torch.multinomial] raises. *)
Definition sample_token (g : rng) (next_token_logits : list (list Q)) : result (Z * rng) :=
  match mapM (mapM divide) next_token_logits with
  | None => Raise RuntimeError
  | Some next_token_logits =>
      next_token_logits ← top_k_logits next_token_logits (top_k args) (top_p args);
      log_probs ← traverse probabilities next_token_logits;
      let '(samples, g) := multinomial g log_probs in
      match samples with
      | [] => Raise IndexError
      | prev :: _ => Ok (Z.of_nat prev, g)
      end
  end.

(** Lines 201-202: the survivors' rows and caches, by the same indices. *)
Definition reorder_beams (tokens : list (list Z)) (mems : list (list mem))
    (beam_idx : list nat) (beam_next_tokens : list Z)
  : result (list (list Z) * option (list (list mem))) :=
  selected ← index_rows tokens beam_idx;
  tokens ← cat_dim1 selected ((λ t, [t]) <$> beam_next_tokens);
  mems ← match mems with
         | [] => Ok None
         | _ :: _ => Some <$> traverse (λ mem, index_rows mem beam_idx) mems
         end;
  Ok (tokens, mems).

Record loop_state : Type := {
  st_tokens : list (list Z);
  st_mems : option (list (list mem));
  st_counter : Z;
  st_last_beam_num : Z;
  st_beam_scores : list Q;
  st_beam_scorer : option scorer;
  st_candidates : option Candidates;
  st_gen : rng
}.

Variable context_tokens : list (list Z).
Variable context_length : Z.
Variable end_tokens : list Z.
(** [position_ids] and [attention_mask] of [get_batch], bound only in
    causal mode. *)
Variable first_inputs : option (PositionIds * AttentionMask).

(** Lines 155-172: the forward call of one iteration. *)
Definition forward (st : loop_state) : result (list (list Q) * list (list mem)) :=
  let n := Z.to_nat (st_last_beam_num st) in
  '(inputs, position_ids, attention_mask) ←
    (if bool_decide (st_counter st = 0) && negb (block_lm args) then
       match first_inputs with
       | Some (position_ids, attention_mask) => Ok (context_tokens, position_ids, attention_mask)
       | None => Raise NameError
       end
     else
       let '(position_ids, attention_mask) :=
         if block_lm args then
           (if no_block_position args
            then Pos1 (replicate n [context_length + st_counter st])
            else Pos2 (replicate n [[context_length]; [st_counter st + 1]]),
            MaskFlag [0])
         else
           (Pos1 (replicate n [context_length + st_counter st - 1]),
            Mask4 (replicate n [[replicate (Z.to_nat (mem_length args + 1)) 1]])) in
       Ok (last_column (st_tokens st), position_ids, attention_mask));
  match st_mems st with
  | None => Raise TypeError
  | Some mems =>
      let '(next_token_logits, mems) := model inputs position_ids attention_mask mems in
      next_token_logits ← select_last next_token_logits;
      Ok (next_token_logits, mems)
  end.

(** One iteration of the [while]; the flag tells whether it left by
    [break].  [counter] is not yet incremented.  [beam_scorer] and
    [beam_scores] are bound together, by lines 144-152 alone: without a
    scorer line 176 meets an unbound name. *)
Definition loop_body (st : loop_state) : result (bool * loop_state) :=
  '(next_token_logits, new_mems) ← forward st;
  if decide (1 < num_beams args) then
    match st_beam_scorer st with
    | None => Raise NameError
    | Some beam_scorer =>
        '(cand, g) ← expand_candidates (st_gen st) next_token_logits (st_beam_scores st)
                       (num_beams args);
        tokens ← expand_rows (num_beams args) (st_tokens st);
        let '(beam_outputs, sc) := process beam_scorer tokens cand end_tokens new_mems in
        '(tokens, mems) ← reorder_beams tokens new_mems
                            (next_beam_indices beam_outputs) (next_beam_tokens beam_outputs);
        let st' := {| st_tokens := tokens; st_mems := mems; st_counter := st_counter st;
                      st_last_beam_num := st_last_beam_num st;
                      st_beam_scores := next_beam_scores beam_outputs;
                      st_beam_scorer := Some sc; st_candidates := Some cand; st_gen := g |} in
        if is_done sc then Ok (true, st')
        else Ok (false, {| st_tokens := tokens; st_mems := mems; st_counter := st_counter st;
                           st_last_beam_num := num_beams args;
                           st_beam_scores := next_beam_scores beam_outputs;
                           st_beam_scorer := Some sc; st_candidates := Some cand;
                           st_gen := g |})
    end
  else
    '(prev, g) ← sample_token (st_gen st) next_token_logits;
    let st' := {| st_tokens := st_tokens st; st_mems := Some new_mems; st_counter := st_counter st;
                  st_last_beam_num := st_last_beam_num st; st_beam_scores := st_beam_scores st;
                  st_beam_scorer := st_beam_scorer st; st_candidates := st_candidates st; st_gen := g |} in
    let is_end := bool_decide (prev ∈ end_tokens) in
    if is_end then Ok (true, st')
    else
      tokens ← cat_dim1 (st_tokens st) [[prev]];
      Ok (false, {| st_tokens := tokens; st_mems := Some new_mems; st_counter := st_counter st;
                    st_last_beam_num := st_last_beam_num st; st_beam_scores := st_beam_scores st;
                    st_beam_scorer := st_beam_scorer st; st_candidates := st_candidates st; st_gen := g |}).

Definition increment (st : loop_state) : loop_state :=
  {| st_tokens := st_tokens st; st_mems := st_mems st; st_counter := st_counter st + 1;
     st_last_beam_num := st_last_beam_num st; st_beam_scores := st_beam_scores st;
     st_beam_scorer := st_beam_scorer st; st_candidates := st_candidates st; st_gen := st_gen st |}.

(** [while counter < out_seq_length], entered with [remaining] equal to
    [out_seq_length - counter]: the counter grows by one per iteration,
    so the guard holds exactly while [remaining] is positive.  The
    progress print of lines 217-223 is not modelled. *)
Fixpoint sample_loop (remaining : nat) (st : loop_state) : result loop_state :=
  match remaining with
  | O => Ok st
  | S remaining =>
      '(stop, st) ← loop_body st;
      if stop : bool then Ok st else sample_loop remaining (increment st)
  end.

End SampleSequence.

Section Decoding.
Context `{Exp} `{BeamBackend}.
Variable tokenizer : Tokenizer.
Variable args : Args.

(** Lines 132-227.  Lines 143-152 build the scorer from
    [BeamSearchScorer], a name that nothing in the file binds: with
    [num_beams > 1] the call ends there with a [NameError]. *)
Definition sample_sequence (context_tokens : list (list Z)) (context_length : Z)
    (mems : option (list (list mem))) (end_tokens : option (list Z)) (g : rng)
  : result (list (list Z) * option (list (list mem)) * rng) :=
  '(context_tokens, first_inputs, tokens) ←
    (if negb (block_lm args) then
       '(context_tokens, attention_mask, position_ids) ← get_batch context_tokens args;
       Ok (context_tokens, Some (position_ids, attention_mask),
           replicate (Z.to_nat (num_beams args)) [])
     else Ok (context_tokens, None, [[get_command tokenizer "sop"]]));
  let mems := match mems with None => [] | Some mems => mems end in
  let end_tokens := match end_tokens with None => [eod_token args] | Some e => e end in
  beam_scorer ← (if decide (1 < num_beams args) then Raise NameError else Ok None);
  let st := {| st_tokens := tokens; st_mems := Some mems; st_counter := 0; st_last_beam_num := 1;
               st_beam_scores := [0%Q]; st_beam_scorer := beam_scorer;
               st_candidates := None; st_gen := g |} in
  st ← sample_loop args context_tokens context_length end_tokens first_inputs
         (Z.to_nat (out_seq_length args)) st;
  '(tokens, mems) ←
    (if decide (1 < num_beams args) then
       match st_beam_scorer st, st_candidates st with
       | Some beam_scorer, Some cand =>
           Ok (finalize beam_scorer (st_tokens st) (st_beam_scores st) cand
                        (eod_token args) (st_mems st))
       | _, _ => Raise NameError
       end
     else Ok (st_tokens st, st_mems st));
  out ← cat_dim1 context_tokens tokens;
  Ok (out, mems, st_gen st).

(** ** [generate_samples]: one round after [read_context] *)

(** [(t == token).nonzero(as_tuple=True)[0].tolist()] *)
Definition positions_of (token : Z) (t : list Z) : list nat :=
  (filter (λ vi, vi.1 = token) (indexed t)).*2.

(** [position_ids[0, p + 1:] += d] *)
Definition shift_after (p : nat) (d : Z) (position_ids : PositionIds) : PositionIds :=
  match position_ids with
  | Pos1 (row :: rows) =>
      Pos1 ((take (p + 1) row ++ ((λ x, x + d) <$> drop (p + 1) row)) :: rows)
  | _ => position_ids
  end.

(** [position_ids[0, p].item()] *)
Definition position_at (p : nat) (position_ids : PositionIds) : result Z :=
  match position_ids with
  | Pos1 (row :: _) =>
      match row !! p with Some x => Ok x | None => Raise IndexError end
  | _ => Raise RuntimeError
  end.

Definition generate (context_tokens_tensor : list Z) (context_length : Z) (g : rng)
  : result (list Z * rng) :=
  '(tokens, g) ←
    (if block_lm args then
       '(tokens, attention_mask, position_ids) ← get_batch [context_tokens_tensor] args;
       let mask_tokens :=
         if task_mask args then ["MASK"; "sMASK"; "gMASK"]%string else ["MASK"%string] in
       let mask_tokens := get_command tokenizer <$> mask_tokens in
       let end_tokens := [get_command tokenizer "eop"; eod_token args] in
       let mask_positions :=
         merge_sort le (mask_tokens ≫= λ token, positions_of token context_tokens_tensor) in
       let position_ids :=
         if no_block_position args
         then foldl (λ pos p, shift_after p (out_seq_length args) pos) position_ids mask_positions
         else position_ids in
       let '(_, mems) := model tokens position_ids attention_mask [] in
       '(tokens, _, g) ←
         foldM (λ '(tokens, mems, g) mask_position,
                  position ← (if no_block_position args
                              then position_at mask_position position_ids
                              else Ok (Z.of_nat mask_position));
                  sample_sequence tokens position mems (Some end_tokens) g)
               (tokens, Some mems, g) mask_positions;
       Ok (tokens, g)
     else
       '(tokens, _, g) ← sample_sequence [context_tokens_tensor] context_length None None g;
       Ok (tokens, g));
  Ok (concat tokens, g).

End Decoding.

(** ** [read_context] *)

Section ReadContext.
Variable tokenizer : Tokenizer.
Variable args : Args.

(** [pat in s] *)
Definition contains (pat s : string) : bool :=
  match String.index 0 pat s with Some _ => true | None => false end.

(** [s.endswith(suffix)] *)
Definition endswith (s suffix : string) : bool :=
  let n := String.length s in
  let m := String.length suffix in
  (m <=? n)%nat && String.eqb (substring (n - m) m s) suffix.

Inductive prompt : Type :=
| Stop
| Prompt (raw_text : string) (context_tokens : list Z).

(** Lines 31-55 on rank 0: [lines] is what [input] will return, call
    after call; [written] collects [output.write]. *)
Fixpoint prompt_loop (lines written : list string) : result (prompt * list string) :=
  match lines with
  | [] => Raise EOFError
  | raw_text :: lines =>
      if String.eqb raw_text "" then prompt_loop lines written
      else if String.eqb raw_text "stop" then Ok (Stop, written)
      else
        let generation_mask := (if task_mask args then "[gMASK]" else "[MASK]")%string in
        let raw_text :=
          if block_lm args && negb (contains "MASK]" raw_text)
          then (raw_text ++ " " ++ generation_mask)%string
          else raw_text in
        let written := written ++ [raw_text] in
        let context_tokens := EncodeAsIds tokenizer raw_text in
        let context_tokens :=
          if block_lm args then
            let context_tokens := get_command tokenizer "ENC" :: context_tokens in
            if negb (endswith raw_text "MASK]")
            then context_tokens ++ [get_command tokenizer "eos"]
            else context_tokens
          else context_tokens in
        let context_length := Z.of_nat (length context_tokens) in
        if bool_decide (max_sequence_length args ≤ context_length)
        then prompt_loop lines written
        else Ok (Prompt raw_text context_tokens, written)
  end.

(** What one rank does between collectives: it returns, raises, or
    enters a broadcast with its buffer and goes on with the buffer as
    filled by the source rank. *)
Inductive proc (R : Type) : Type :=
| Return (r : R)
| Throw (e : exn)
| Broadcast (tensor : list Z) (k : list Z → proc R).
Arguments Return {R} r.
Arguments Throw {R} e.
Arguments Broadcast {R} tensor k.

Record Synced : Type := {
  terminate_runs : Z;
  raw_text : option string;
  context_tokens_tensor : option (list Z);
  context_length : option Z
}.

(** [t[0].item()] *)
Definition item0 {R} (t : list Z) (k : Z → proc R) : proc R :=
  match t with
  | [] => Throw IndexError
  | x :: _ => k x
  end.

(** Lines 59-80 on one rank.  [local] is what lines 30-57 left there:
    the prompt on rank 0, nothing elsewhere. *)
Definition synchronise (rank : nat) (terminate_runs : Z) (local : option (string * list Z))
  : proc Synced :=
  Broadcast [terminate_runs] (λ terminate_runs_tensor,
    item0 terminate_runs_tensor (λ terminate_runs,
      if (terminate_runs =? 1) then
        Return {| terminate_runs := terminate_runs; raw_text := None;
                  context_tokens_tensor := None; context_length := None |}
      else
        match (if (rank =? 0)%nat
               then (λ p, Z.of_nat (length p.2)) <$> local
               else Some 0) with
        | None => Throw NameError
        | Some context_length =>
            Broadcast [context_length] (λ context_length_tensor,
              item0 context_length_tensor (λ context_length,
                match (if (rank =? 0)%nat
                       then snd <$> local
                       else Some (replicate (Z.to_nat context_length) 0)) with
                | None => Throw NameError
                | Some context_tokens_tensor =>
                    Broadcast context_tokens_tensor (λ context_tokens_tensor,
                      let raw_text :=
                        if negb (rank =? 0)%nat
                        then Some (DecodeIds tokenizer context_tokens_tensor)
                        else fst <$> local in
                      Return {| terminate_runs := terminate_runs; raw_text := raw_text;
                                context_tokens_tensor := Some context_tokens_tensor;
                                context_length := Some context_length |})
                end))
        end)).

Definition read_context (rank : nat) (lines : list string)
  : result (proc Synced * list string) :=
  if (rank =? 0)%nat then
    '(p, written) ← prompt_loop lines [];
    match p with
    | Stop => Ok (synchronise rank 1 None, written)
    | Prompt raw_text context_tokens =>
        Ok (synchronise rank 0 (Some (raw_text, context_tokens)), written)
    end
  else Ok (synchronise rank 0 None, []).

(** *** The process group in lock step *)

Inductive outcome (R : Type) : Type :=
| Done (returned : list R) (trace : list (list Z))
| Failed (e : exn)
| Stuck
| Unfinished.
Arguments Done {R} returned trace.
Arguments Failed {R} e.
Arguments Stuck {R}.
Arguments Unfinished {R}.

Definition returned {R} (p : proc R) : option R :=
  match p with Return r => Some r | _ => None end.

Definition thrown {R} (p : proc R) : option exn :=
  match p with Throw e => Some e | _ => None end.

Definition broadcasting {R} (p : proc R) : option (list Z * (list Z → proc R)) :=
  match p with Broadcast t k => Some (t, k) | _ => None end.

(** The ranks advance together: all have returned, or one has raised,
    or all sit in a broadcast with buffers of the size of the source's
    and receive its content; anything else cannot proceed.  [trace]
    records the broadcast contents in order. *)
Fixpoint run_group {R} (fuel : nat) (src : nat) (procs : list (proc R))
    (trace : list (list Z)) : outcome R :=
  match fuel with
  | O => Unfinished
  | S fuel =>
      match mapM returned procs with
      | Some rets => Done rets trace
      | None =>
          match omap thrown procs with
          | e :: _ => Failed e
          | [] =>
              match mapM broadcasting procs with
              | None => Stuck
              | Some bs =>
                  match bs.*1 !! src with
                  | None => Stuck
                  | Some sent =>
                      if forallb (λ b, length b.1 =? length sent)%nat bs
                      then run_group fuel src ((λ b, b.2 sent) <$> bs) (trace ++ [sent])
                      else Stuck
                  end
              end
          end
      end
  end.

(** [read_context] on every rank of a group of [world_size] ranks, the
    source of the broadcasts being rank 0. *)
Definition read_context_group (world_size : nat) (lines : list string) (fuel : nat)
  : result (outcome Synced) :=
  procs ← traverse (λ rank, fst <$> read_context rank lines) (seq 0 world_size);
  Ok (run_group fuel 0 procs []).

End ReadContext.

Arguments Return {R} r.
Arguments Throw {R} e.
Arguments Broadcast {R} tensor k.
Arguments Done {R} returned trace.
Arguments Failed {R} e.
Arguments Stuck {R}.
Arguments Unfinished {R}.

(** ** [ChatModel] ([examples/chatglm/chat_model.py]) *)

(** [t.index_select(1, idx)], the beam being the second dimension of a
    cached key or value. *)
Definition index_select1 {A} (t : list (list A)) (idx : list nat) : result (list (list A)) :=
  traverse (λ row, index_rows row idx) t.

Definition _reorder_cache {A} (past : list (list (list A) * list (list A)))
    (beam_idx : list nat) : result (list (list (list A) * list (list A))) :=
  traverse (λ layer_past,
              k ← index_select1 layer_past.1 beam_idx;
              v ← index_select1 layer_past.2 beam_idx;
              Ok (k, v)) past.

(** What [stream_generate] draws on: the forward pass with the upkeep of
    [model_kwargs] (lines 323-332 and 347-349), the logits processors and
    warpers, and the stopping criteria. *)
Class Generation := {
  model_kwargs : Type;
  forward_pass : list (list Z) → model_kwargs → result (list (list logit) * model_kwargs);
  logits_processor : list (list Z) → list (list logit) → list (list logit);
  logits_warper : list (list Z) → list (list logit) → list (list logit);
  stopping_criteria : list (list Z) → bool
}.

Inductive ending : Type :=
| Stopped
| Pending
| Crashed (e : exn).

(** Index of the first maximum, [torch.argmax(row)]. *)
Fixpoint argmax_from (best : nat) (best_value : Q) (i : nat) (row : list Q) : nat :=
  match row with
  | [] => best
  | x :: row' =>
      if Qltb best_value x then argmax_from i x (S i) row'
      else argmax_from best best_value (S i) row'
  end.

(** [unfinished_sequences] is an [int64] tensor: its products wrap
    around. *)
Definition wrap64 (z : Z) : Z := (z + 2 ^ 63) mod 2 ^ 64 - 2 ^ 63.

Section StreamGenerate.
Context `{Exp} `{Sampler} `{Generation}.
Variable do_sample : bool.
Variable eos_token_id : list Z.

(** A NaN row compares as maximal at its first entry. *)
Definition argmax (probs : option (list Q)) : result nat :=
  match probs with
  | None => Ok 0%nat
  | Some [] => Raise IndexError
  | Some (x :: row) => Ok (argmax_from 0 x 1 row)
  end.

Definition valid_probs (probs : option (list Q)) : result (list Q) :=
  match probs with
  | None | Some [] => Raise RuntimeError
  | Some p => Ok p
  end.

(** [sum(next_token != i for i in eos_token_id)] *)
Definition not_eos_count (next_token : Z) : Z :=
  foldr (λ i acc, (if bool_decide (next_token = i) then 0 else 1) + acc) 0 eos_token_id.

(** Lines 323-353: one iteration; the flag is the [break] condition. *)
Definition generate_step (input_ids : list (list Z)) (kw : model_kwargs)
    (unfinished_sequences : list Z) (g : rng)
  : result (list (list Z) * model_kwargs * list Z * rng * bool) :=
  '(next_token_logits, kw) ← forward_pass input_ids kw;
  let next_token_scores := logits_processor input_ids next_token_logits in
  let next_token_scores := logits_warper input_ids next_token_scores in
  let probs := softmax <$> next_token_scores in
  '(next_tokens, g) ←
    (if do_sample then
       probs ← traverse valid_probs probs;
       Ok (multinomial g probs)
     else
       next_tokens ← traverse argmax probs;
       Ok (next_tokens, g));
  let next_tokens := Z.of_nat <$> next_tokens in
  input_ids ← cat_dim1 input_ids ((λ t, [t]) <$> next_tokens);
  if bool_decide (eos_token_id = []) then Raise AttributeError
  else if bool_decide (length unfinished_sequences ≠ length next_tokens) then Raise RuntimeError
  else
    let unfinished_sequences :=
      zip_with (λ u t, wrap64 (u * not_eos_count t)) unfinished_sequences next_tokens in
    match unfinished_sequences with
    | [] => Raise RuntimeError
    | u :: us =>
        let stop := bool_decide (foldr Z.max u us = 0) || stopping_criteria input_ids in
        Ok (input_ids, kw, unfinished_sequences, g, stop)
    end.

(** The [while True] of the generator, cut after [fuel] iterations:
    the values yielded so far and how the run stands. *)
Fixpoint generate_loop (fuel : nat) (input_ids : list (list Z)) (kw : model_kwargs)
    (unfinished_sequences : list Z) (g : rng) : list (list (list Z)) * ending :=
  match fuel with
  | O => ([], Pending)
  | S fuel =>
      match generate_step input_ids kw unfinished_sequences g with
      | Raise e => ([], Crashed e)
      | Ok (input_ids, kw, unfinished_sequences, g, stop) =>
          if stop : bool then ([], Stopped)
          else
            let '(yielded, e) := generate_loop fuel input_ids kw unfinished_sequences g in
            (input_ids :: yielded, e)
      end
  end.

Definition stream_generate (fuel : nat) (input_ids : list (list Z)) (kw : model_kwargs)
    (g : rng) : list (list (list Z)) * ending :=
  generate_loop fuel input_ids kw (replicate (length input_ids) 1) g.

End StreamGenerate.

(** ** Test doubles *)

(** A computable stand-in for [exp]: powers of two of the integer part. *)
Definition pow2 (q : Q) : Q := (2 ^ Qfloor q)%Q.

#[global] Instance pow2_exp : Exp.
Proof.
  refine {| expw := pow2 |}.
  - intros q. apply Qpower_0_lt. reflexivity.
  - intros p q Hpq. apply Qpower_le_compat_l; [by apply Qfloor_resp_le | discriminate].
Defined.

(** Inverse-CDF sampling from a list of uniform draws. *)
Fixpoint inverse_cdf (u acc : Q) (i : nat) (probs : list Q) : nat :=
  match probs with
  | [] => pred i
  | p :: probs' =>
      if Qltb u (acc + p)%Q then i else inverse_cdf u (acc + p)%Q (S i) probs'
  end.

Fixpoint draw_rows (g : list Q) (probs : list (list Q)) : list nat * list Q :=
  match probs with
  | [] => ([], g)
  | row :: rows =>
      let '(u, g) := match g with [] => (0%Q, []) | u :: g => (u, g) end in
      let '(samples, g) := draw_rows g rows in
      (inverse_cdf u 0 0 row :: samples, g)
  end.

#[global] Instance list_sampler : Sampler.
Proof.
  refine {| rng := list Q; multinomial := draw_rows |}.
  intros g probs. revert g. induction probs as [|row rows IH]; intros g; [done |].
  simpl. destruct g as [|u g'].
  - specialize (IH []). destruct (draw_rows [] rows). simpl in *. by rewrite IH.
  - specialize (IH g'). destruct (draw_rows g' rows). simpl in *. by rewrite IH.
Defined.

Definition toy_tokenizer : Tokenizer :=
  {| EncodeAsIds := λ s, (λ c, Z.of_nat (nat_of_ascii c) + 100) <$> list_ascii_of_string s;
     DecodeIds := λ ids, string_of_list_ascii ((λ i, ascii_of_nat (Z.to_nat (i - 100))) <$> ids);
     get_command := λ name,
       if String.eqb name "eos" then 0
       else if String.eqb name "sop" then 1
       else if String.eqb name "eop" then 2
       else if String.eqb name "ENC" then 3
       else if String.eqb name "MASK" then 4
       else if String.eqb name "sMASK" then 5
       else if String.eqb name "gMASK" then 6
       else 7 |}.

(** A model over three tokens whose [float32] logits always favour
    token 0. *)
#[local] Instance zero_model : Model :=
  {| mem := unit;
     model := λ tokens _ _ mems, ((λ _, [[5; 0; 0]%Q]) <$> tokens, [(λ _, ()) <$> tokens]);
     max_float := 340282346638528859811704183484516925440 |}.

(** A scorer that always keeps two hypotheses grown from beam 0. *)
#[local] Instance twin_beam `{Sampler} `{Model} : BeamBackend :=
  {| scorer := unit;
     expand_candidates := λ g _ _ _,
       Ok ({| next_token_scores := [0; 0]%Q; next_tokens := [1; 2];
              next_indices := [0; 0]%nat |}, g);
     process := λ sc _ _ _ _,
       ({| next_beam_scores := [0; 0]%Q; next_beam_tokens := [1; 2];
           next_beam_indices := [0; 0]%nat |}, sc);
     is_done := λ _, false;
     finalize := λ _ tokens _ _ _ mems, (take 1 tokens, mems) |}.

Definition block_args : Args :=
  {| block_lm := true; no_block_position := false; task_mask := false;
     num_beams := 1; out_seq_length := 4; max_sequence_length := 512; mem_length := 0;
     temperature := 1; top_k := 0; top_p := 0; length_penalty := 1; eod_token := 0 |}.


Definition causal_args : Args :=
  {| block_lm := false; no_block_position := false; task_mask := false;
     num_beams := 1; out_seq_length := 4; max_sequence_length := 512; mem_length := 0;
     temperature := 1; top_k := 0; top_p := 0; length_penalty := 1; eod_token := 0 |}.


(** The loop state [sample_sequence] starts from in block mode, over the
    test doubles. *)
Definition start_state : loop_state :=
  {| st_tokens := [[get_command toy_tokenizer "sop"]]; st_mems := Some [];
     st_counter := 0; st_last_beam_num := 1; st_beam_scores := [0%Q];
     st_beam_scorer := None; st_candidates := None; st_gen := ([] : list Q) |}.

(** ** Vocabulary of the further properties *)

(** [row'] is [row] with some entries replaced by minus infinity. *)
Definition masked_from (row row' : list logit) : Prop :=
  length row' = length row ∧
  ∀ i x, row' !! i = Some x → x = NegInf ∨ row !! i = Some x.

(** Lines 247-253 of [generate_samples]: where the mask tokens stand in
    the context, in ascending order. *)
Definition mask_positions (tokenizer : Tokenizer) (args : Args)
    (context_tokens_tensor : list Z) : list nat :=
  let mask_tokens :=
    if task_mask args then ["MASK"; "sMASK"; "gMASK"]%string else ["MASK"%string] in
  let mask_tokens := get_command tokenizer <$> mask_tokens in
  merge_sort le (mask_tokens ≫= λ token, positions_of token context_tokens_tensor).

(** ** Model inputs of [ChatModel] *)

(** [list.index] raises [ValueError], which the inference script never
    meets: the exceptions of [chat_model.py] are [exn] and this one. *)
Inductive chat_exn : Type :=
| ValueError
| Builtin (e : exn).

Inductive chat_result (A : Type) : Type :=
| Returns (a : A)
| Raises (e : chat_exn).
Arguments Returns {A} a.
Arguments Raises {A} e.

#[global] Instance chat_result_ret : MRet chat_result := fun A a => Returns a.
#[global] Instance chat_result_bind : MBind chat_result := fun A B f m =>
  match m with
  | Returns a => f a
  | Raises e => Raises e
  end.

(** [[f(x) for x in xs]] *)
Fixpoint collect {A B} (f : A → chat_result B) (xs : list A) : chat_result (list B) :=
  match xs with
  | [] => Returns []
  | x :: xs' => y ← f x; ys ← collect f xs'; Returns (y :: ys)
  end.

(** [seq.index(x)] *)
Definition list_index (x : Z) (seq : list Z) : chat_result nat :=
  match list_find (λ y, y = x) seq with
  | Some (i, _) => Returns i
  | None => Raises ValueError
  end.

(** [torch.ones((n, n)).tril_()] *)
Definition tril (n : nat) : list (list Z) :=
  (λ r, (λ c, if (c <=? r)%nat then 1 else 0) <$> seq 0 n) <$> seq 0 n.

(** [m[:, :k] = 1] *)
Definition fill_columns (k : nat) (m : list (list Z)) : list (list Z) :=
  (λ row, replicate (k `min` length row) 1 ++ drop k row) <$> m.

(** Lines 57-58.  [position_ids] comes from [expand]: its rows are one
    and the same row of storage, so that the assignment to row [i] is an
    assignment to this shared row. *)
Fixpoint assign_positions (mask_positions : list nat) (i : nat) (context_lengths : list nat)
    (position_ids : list Z) : chat_result (list Z) :=
  match context_lengths with
  | [] => Returns position_ids
  | context_length :: context_lengths =>
      match mask_positions !! i with
      | None => Raises (Builtin IndexError)
      | Some mask_position =>
          assign_positions mask_positions (S i) context_lengths
            (take context_length position_ids
             ++ replicate (length position_ids - context_length) (Z.of_nat mask_position))
      end
  end.

Definition MASK : Z := 150000.
Definition gMASK : Z := 150001.

(** What [prepare_inputs_for_generation] returns: without a cache the
    whole input with mask and positions, with a cache the last token and
    its positions.  The cache itself is handed on unchanged and left
    out. *)
Inductive model_inputs : Type :=
| Full (input_ids : list (list Z)) (position_ids : list (list (list Z)))
       (attention_mask : list (list (list (list Z))))
| Incremental (last_token : list (list Z)) (position_ids : list (list (list Z))).

Section ChatInputs.
Variable bos_token_id : Z.

(** Lines 42-71, with [position_encoding_2d] as [__init__] sets it.
    [input_ids] has shape [(length input_ids, seq_length)]. *)
Definition get_masks_and_position_ids (seq_length : nat) (input_ids : list (list Z))
    (mask_positions : list nat) (gmask : bool)
  : chat_result (list (list (list (list Z))) * list (list (list Z))) :=
  let batch_size := length input_ids in
  context_lengths ← collect (list_index bos_token_id) input_ids;
  let attention_mask := replicate batch_size (tril seq_length) in
  let attention_mask := zip_with fill_columns context_lengths attention_mask in
  let attention_mask := (λ m, [m]) <$> attention_mask in
  position_ids ← (if gmask then Returns (arange seq_length)
                  else assign_positions mask_positions 0 context_lengths (arange seq_length));
  let position_ids := replicate batch_size position_ids in
  let block_position_ids :=
    (λ context_length,
       replicate context_length 0
       ++ ((λ x, x + 1) <$> arange (seq_length - context_length))) <$> context_lengths in
  match block_position_ids with
  | [] => Raises (Builtin RuntimeError)
  | _ :: _ =>
      Returns (attention_mask, zip_with (λ p b, [p; b]) position_ids block_position_ids)
  end.

(** Lines 73-120; [has_past] tells whether [past] or [past_key_values]
    is given. *)
Definition prepare_inputs_for_generation (seq_length : nat) (input_ids : list (list Z))
    (has_past : bool) : chat_result model_inputs :=
  let has_mask := bool_decide (MASK ∈ concat input_ids) in
  let mask_token := if has_mask then MASK else gMASK in
  let use_gmask := negb has_mask in
  mask_positions ← collect (list_index mask_token) input_ids;
  if has_past then
    context_lengths ← collect (list_index bos_token_id) input_ids;
    last_token ← (if decide (seq_length = 0%nat) then Raises (Builtin IndexError)
                  else Returns (last_column input_ids));
    let position_ids :=
      zip_with (λ mask_position context_length,
                  [[Z.of_nat mask_position]; [Z.of_nat seq_length - Z.of_nat context_length]])
        mask_positions context_lengths in
    Returns (Incremental last_token position_ids)
  else
    '(attention_mask, position_ids) ←
      get_masks_and_position_ids seq_length input_ids mask_positions use_gmask;
    Returns (Full input_ids position_ids attention_mask).

End ChatInputs.

(** ** [InvalidScoreLogitsProcessor] *)

(** A float score: NaN, an infinity, or a number. *)
Inductive score : Type :=
| Nan
| Inf (negative : bool)
| Finite (q : Q).

(** [isnan(x) or isinf(x)] *)
Definition is_invalid (x : score) : bool :=
  match x with
  | Finite _ => false
  | _ => true
  end.

(** The index 20005 of line 24. *)
Definition fallback_index : nat := Z.to_nat 20005.

(** Lines 20-25: [scores.zero_()] and [scores[..., 20005] = 5e4] when
    any score of the batch is NaN or infinite. *)
Definition InvalidScoreLogitsProcessor (scores : list (list score))
  : result (list (list score)) :=
  if existsb (existsb is_invalid) scores then
    traverse (λ row,
                let row := (λ _, Finite 0) <$> row in
                if decide (fallback_index < length row)%nat
                then Ok (<[fallback_index := Finite 50000]> row)
                else Raise IndexError) scores
  else Ok scores.

(** ** Copying parameters ([examples/vit/transform_param.py]) *)

(** The [data] of a parameter: its shape and its entries, which are
    floats.  A module is what [named_parameters()] lists, each name
    once; names are ASCII. *)
Record tensor : Type := {
  shape : list nat;
  elements : list score
}.

Inductive copy_exn : Type :=
| KeyError
| AssertionError.

(** [x == y] on floats: NaN equals nothing. *)
Definition score_eqb (x y : score) : bool :=
  match x, y with
  | Finite p, Finite q => Qeq_bool p q
  | Inf a, Inf b => Bool.eqb a b
  | _, _ => false
  end.

(** [(a == b).all()] on tensors of one shape *)
Definition all_equal (a b : tensor) : bool :=
  forallb (λ xy, score_eqb xy.1 xy.2) (zip (elements a) (elements b)).

(** [dict(named_parameters())[k]] *)
Fixpoint dict_get (k : string) (params : list (string * tensor)) : option tensor :=
  match params with
  | [] => None
  | (k', t) :: params => if String.eqb k' k then Some t else dict_get k params
  end.

(** Lines 47-58.  The parameters of [dst] are overwritten one by one;
    the result is [dst] as the call leaves it, and the exception if one
    was raised. *)
Fixpoint copy_layer_param (src dst : list (string * tensor))
  : list (string * tensor) * option copy_exn :=
  match dst with
  | [] => ([], None)
  | (k, d) :: rest =>
      match dict_get k src with
      | None => (dst, Some KeyError)
      | Some s =>
          if bool_decide (shape d = shape s) then
            if all_equal s s then
              let '(rest', e) := copy_layer_param src rest in ((k, s) :: rest', e)
            else ((k, s) :: rest, Some AssertionError)
          else (dst, Some AssertionError)
      end
  end.

(** Lines 60-62 *)
Definition copy_from_param (src dst : tensor) : tensor * option copy_exn :=
  if bool_decide (shape src = shape dst) then (src, None) else (dst, Some AssertionError).

(** [s.lower()] *)
Definition lower_ascii (c : ascii) : ascii :=
  let n := nat_of_ascii c in
  if (65 <=? n)%nat && (n <=? 90)%nat then ascii_of_nat (n + 32) else c.

Fixpoint lower (s : string) : string :=
  match s with
  | EmptyString => EmptyString
  | String c s => String (lower_ascii c) (lower s)
  end.

(** [param.data = t] on the parameter named [k] *)
Definition set_data (k : string) (t : tensor) (params : list (string * tensor))
  : list (string * tensor) :=
  (λ kv, if String.eqb kv.1 k then (kv.1, t) else kv) <$> params.

(** Lines 74-77 *)
Fixpoint assign_pairs (pairs : list ((string * tensor) * (string * tensor)))
    (dst : list (string * tensor)) : list (string * tensor) * option copy_exn :=
  match pairs with
  | [] => (dst, None)
  | (kvs, kvd) :: pairs =>
      if bool_decide (shape kvd.2 = shape kvs.2) then
        let dst := set_data kvd.1 kvs.2 dst in
        if all_equal kvs.2 kvs.2 then assign_pairs pairs dst
        else (dst, Some AssertionError)
      else (dst, Some AssertionError)
  end.

(** Lines 64-77.  [type(v) is not torch.nn.Identity()] compares a type
    with a fresh instance and holds always, so that the name decides
    alone. *)
Definition copy_layer_norm (src dst : list (string * tensor))
  : list (string * tensor) * option copy_exn :=
  let src_ln := filter (λ kv, contains "norm" (lower kv.1) = true) src in
  let dst_ln := filter (λ kv, contains "layernorm" (lower kv.1) = true) dst in
  if bool_decide (length src_ln = length dst_ln)
  then assign_pairs (zip src_ln dst_ln) dst
  else (dst, Some AssertionError).

(** ** Further test doubles *)

(** [beam_args] with an [out_seq_length] of zero. *)
Definition idle_beam_args : Args :=
  {| block_lm := true; no_block_position := false; task_mask := false;
     num_beams := 2; out_seq_length := 0; max_sequence_length := 512; mem_length := 0;
     temperature := 1; top_k := 0; top_p := 0; length_penalty := 1; eod_token := 0 |}.

(** A generation set-up over three tokens whose logits always favour
    token 0, without processors, that never asks to stop. *)
Definition endless_generation : Generation :=
  {| model_kwargs := unit;
     forward_pass := λ input_ids kw, Ok ((λ _, [Fin 5; Fin 0; Fin 0]) <$> input_ids, kw);
     logits_processor := λ _ scores, scores;
     logits_warper := λ _ scores, scores;
     stopping_criteria := λ _, false |}.

(** The same with a maximal length of five tokens. *)
Definition capped_generation : Generation :=
  {| model_kwargs := unit;
     forward_pass := λ input_ids kw, Ok ((λ _, [Fin 5; Fin 0; Fin 0]) <$> input_ids, kw);
     logits_processor := λ _ scores, scores;
     logits_warper := λ _ scores, scores;
     stopping_criteria := λ input_ids, forallb (λ row, 5 <=? length row)%nat input_ids |}.

(** Two small modules: the source names its normalisations [norm], the
    destination [layernorm]. *)
Definition source_params : list (string * tensor) :=
  [("norm1.weight"%string, {| shape := [2%nat]; elements := [Finite 1; Finite 2] |});
   ("fc.weight"%string, {| shape := [1%nat]; elements := [Finite 3] |});
   ("Norm.bias"%string, {| shape := [1%nat]; elements := [Finite 4] |})].

Definition target_params : list (string * tensor) :=
  [("input_layernorm.weight"%string, {| shape := [2%nat]; elements := [Finite 0; Finite 0] |});
   ("dense.weight"%string, {| shape := [1%nat]; elements := [Finite 0] |});
   ("final_LayerNorm.bias"%string, {| shape := [1%nat]; elements := [Finite 0] |})].

Definition copied_params : list (string * tensor) :=
  [("input_layernorm.weight"%string, {| shape := [2%nat]; elements := [Finite 1; Finite 2] |});
   ("dense.weight"%string, {| shape := [1%nat]; elements := [Finite 0] |});
   ("final_LayerNorm.bias"%string, {| shape := [1%nat]; elements := [Finite 4] |})].

(** * Properties *)

(** ** Order and sorting facts *)

Lemma Qltb_lt x y : Qltb x y = true ↔ (x < y)%Q.
Proof.
  unfold Qltb. rewrite negb_true_iff, <- not_true_iff_false, Qle_bool_iff.
  split; [apply Qnot_le_lt | apply Qlt_not_le].
Qed.

Lemma Qltb_ge x y : Qltb x y = false ↔ (y <= x)%Q.
Proof. unfold Qltb. by rewrite negb_false_iff, Qle_bool_iff. Qed.

Lemma logit_leb_refl a : logit_leb a a = true.
Proof. destruct a; simpl; [done |]. apply Qle_bool_iff, Qle_refl. Qed.

Lemma logit_leb_total a b : logit_leb a b = false → logit_leb b a = true.
Proof.
  destruct a as [|x], b as [|y]; simpl; try done.
  rewrite <- not_true_iff_false, !Qle_bool_iff. intros Hxy.
  apply Qlt_le_weak. by apply Qnot_le_lt.
Qed.

Lemma logit_leb_trans a b c :
  logit_leb a b = true → logit_leb b c = true → logit_leb a c = true.
Proof.
  destruct a as [|x], b as [|y], c as [|z]; simpl; try done.
  rewrite !Qle_bool_iff. apply Qle_trans.
Qed.

Lemma insert_desc_perm x l : insert_desc x l ≡ₚ x :: l.
Proof.
  induction l as [|y l IH]; simpl; [done |].
  destruct (logit_leb y.1 x.1); [done |].
  rewrite IH. apply Permutation_swap.
Qed.

Lemma sort_desc_perm l : sort_desc l ≡ₚ l.
Proof.
  induction l as [|x l IH]; simpl; [done |].
  by rewrite insert_desc_perm, IH.
Qed.

Lemma insert_desc_sorted x l :
  StronglySorted desc l → StronglySorted desc (insert_desc x l).
Proof.
  induction 1 as [|y l Hl IH Hy]; simpl.
  - repeat constructor.
  - destruct (logit_leb y.1 x.1) eqn:Hyx.
    + constructor; [by constructor |].
      constructor; [done |].
      eapply Forall_impl; [exact Hy |].
      intros z Hz. unfold desc in *. by eapply logit_leb_trans.
    + constructor; [done |].
      rewrite insert_desc_perm. constructor; [|done].
      by apply logit_leb_total.
Qed.

Lemma sort_desc_sorted l : StronglySorted desc (sort_desc l).
Proof.
  induction l as [|x l IH]; simpl; [constructor |].
  by apply insert_desc_sorted.
Qed.

Lemma sorted_lookup_desc l i j a b :
  StronglySorted desc l → (i ≤ j)%nat →
  l !! i = Some a → l !! j = Some b → desc a b.
Proof.
  intros Hs. revert i j. induction Hs as [|x l Hl IH Hx]; intros i j Hij Hi Hj.
  - done.
  - destruct i as [|i], j as [|j]; simpl in *; simplify_eq.
    + apply logit_leb_refl.
    + rewrite Forall_forall in Hx. apply Hx, list_elem_of_lookup. eauto.
    + lia.
    + eapply IH; [|done..]. lia.
Qed.

Lemma filter_all {A} (P : A → Prop) `{∀ x, Decision (P x)} (l : list A) :
  Forall P l → filter P l = l.
Proof.
  induction 1 as [|x l Hx _ IH]; [done |].
  by rewrite filter_cons_True, IH.
Qed.

Lemma filter_none {A} (P : A → Prop) `{∀ x, Decision (P x)} (l : list A) :
  Forall (λ x, ¬ P x) l → filter P l = [].
Proof.
  induction 1 as [|x l Hx _ IH]; [done |].
  by rewrite filter_cons_False, IH.
Qed.

Lemma length_filter_fst {A B} (P : A → Prop) `{∀ x, Decision (P x)} (l : list (A * B)) :
  length (filter P l.*1) = length (filter (λ p, P p.1) l).
Proof.
  induction l as [|[a b] l IH]; [done |].
  rewrite fmap_cons, !filter_cons. simpl.
  destruct (decide (P a)); simpl; by rewrite IH.
Qed.

Lemma indexed_fst {A} (row : list A) : (indexed row).*1 = row.
Proof. unfold indexed. apply fst_zip. by rewrite length_seq. Qed.

Lemma indexed_snd {A} (row : list A) : (indexed row).*2 = seq 0 (length row).
Proof. unfold indexed. apply snd_zip. by rewrite length_seq. Qed.

Lemma indexed_length {A} (row : list A) : length (indexed row) = length row.
Proof. by rewrite <- (length_fmap fst), indexed_fst. Qed.

Lemma indexed_lookup {A} (row : list A) k x i :
  indexed row !! k = Some (x, i) ↔ i = k ∧ row !! k = Some x.
Proof.
  unfold indexed. rewrite lookup_zip_Some. simpl. rewrite lookup_seq.
  split; [intros (? & ? & ?) | intros (-> & Hk)]; simplify_eq; [done |].
  split; [done |]. split; [done |]. by eapply lookup_lt_Some.
Qed.

Lemma indexed_elem {A} (row : list A) x i :
  (x, i) ∈ indexed row ↔ row !! i = Some x.
Proof.
  rewrite list_elem_of_lookup. split.
  - intros [k Hk]. by apply indexed_lookup in Hk as [-> ?].
  - intros Hi. exists i. by apply indexed_lookup.
Qed.

Lemma sort_desc_length l : length (sort_desc l) = length l.
Proof. apply Permutation_length, sort_desc_perm. Qed.

Lemma sort_desc_indexed_elem (row : list logit) x i :
  (x, i) ∈ sort_desc (indexed row) ↔ row !! i = Some x.
Proof. by rewrite sort_desc_perm, indexed_elem. Qed.

Lemma sort_desc_indexed_NoDup (row : list logit) :
  NoDup (sort_desc (indexed row)).*2.
Proof.
  rewrite sort_desc_perm, indexed_snd. apply NoDup_seq.
Qed.

Lemma unfiltered_threshold (kth : Q) (row : list Q) :
  unfiltered ((λ x, if Qltb x kth then NegInf else Fin x) <$> row)
  = length (filter (λ x, Qltb x kth = false) row).
Proof.
  unfold unfiltered. induction row as [|x row IH]; [done |].
  rewrite fmap_cons. destruct (Qltb x kth) eqn:Hx.
  - rewrite filter_cons_False by done.
    rewrite filter_cons_False by (by rewrite Hx). exact IH.
  - rewrite filter_cons_True by done.
    rewrite (filter_cons_True (λ x, Qltb x kth = false)) by done.
    simpl. by rewrite IH.
Qed.

(** In a descending list the entry at position [k] has at least [S k]
    entries not below it and at most [k] entries above it. *)
Lemma sorted_rank s k kth :
  StronglySorted desc s → s !! k = Some kth →
  (S k ≤ length (filter (λ p, logit_ltb p.1 kth.1 = false) s))%nat ∧
  (length (filter (λ p, logit_ltb kth.1 p.1 = true) s) ≤ k)%nat ∧
  ((∀ j p, (k < j)%nat → s !! j = Some p → logit_leb kth.1 p.1 = false) →
   length (filter (λ p, logit_ltb p.1 kth.1 = false) s) = S k).
Proof.
  intros Hs Hk.
  assert (Hlen : (k < length s)%nat) by by eapply lookup_lt_Some.
  assert (Hhead : filter (λ p, logit_ltb p.1 kth.1 = false) (take (S k) s) = take (S k) s).
  { apply filter_all, Forall_lookup. intros i x Hi.
    apply lookup_take_Some in Hi as [Hi Hik].
    unfold logit_ltb. apply negb_false_iff.
    apply (sorted_lookup_desc s i k x kth); [done | lia | done | done]. }
  split; [|split].
  - rewrite <- (take_drop (S k) s) at 1.
    rewrite filter_app, length_app, Hhead, length_take_le by lia. lia.
  - rewrite <- (take_drop k s).
    rewrite filter_app, length_app.
    rewrite (filter_none _ (drop k s)).
    + pose proof (length_filter (λ p, logit_ltb kth.1 p.1 = true) (take k s)) as Hle.
      rewrite length_take_le in Hle by lia. simpl. lia.
    + apply Forall_lookup. intros i x Hi. rewrite lookup_drop in Hi.
      unfold logit_ltb. rewrite negb_true_iff, not_false_iff_true.
      apply (sorted_lookup_desc s k (k + i) kth x); [done | lia | done | done].
  - intros Hbelow. rewrite <- (take_drop (S k) s) at 1.
    rewrite filter_app, length_app, Hhead, length_take_le by lia.
    rewrite (filter_none _ (drop (S k) s)); [simpl; lia |].
    apply Forall_lookup. intros i x Hi. rewrite lookup_drop in Hi.
    unfold logit_ltb. rewrite negb_false_iff, not_true_iff_false.
    apply (Hbelow (S k + i)%nat); [lia | done].
Qed.

Lemma last_take {A} (l : list A) k :
  (k ≤ length l)%nat → last (take k l) = match k with O => None | S k' => l !! k' end.
Proof.
  intros Hk. rewrite last_lookup, length_take_le by done.
  destruct k as [|k']; simpl; [done |]. by rewrite lookup_take_lt by lia.
Qed.

Lemma traverse_singleton {A B} (f : A → result B) x :
  traverse f [x] = y ← f x; Ok [y].
Proof. simpl. by destruct (f x). Qed.

Lemma length_filter_fmap {A B} (f : A → B) (P : B → Prop) `{∀ y, Decision (P y)}
    (l : list A) :
  length (filter P (f <$> l)) = length (filter (λ x, P (f x)) l).
Proof.
  induction l as [|x l IH]; [done |].
  rewrite fmap_cons, !filter_cons.
  destruct (decide (P (f x))); simpl; by rewrite IH.
Qed.

Lemma count_sorted (P : logit → Prop) `{∀ y, Decision (P y)} (row : list logit) :
  length (filter P row) = length (filter (λ p, P p.1) (sort_desc (indexed row))).
Proof.
  rewrite <- (indexed_fst row) at 1. rewrite length_filter_fst.
  apply Permutation_length. by rewrite sort_desc_perm.
Qed.

Lemma sort_fin_lookup (row : list Q) j x i :
  sort_desc (indexed (Fin <$> row)) !! j = Some (x, i) →
  ∃ y, x = Fin y ∧ row !! i = Some y.
Proof.
  intros Hj. apply list_elem_of_lookup_2, sort_desc_indexed_elem in Hj.
  rewrite list_lookup_fmap in Hj. destruct (row !! i) as [y|]; simplify_eq/=. eauto.
Qed.

(** C1 (as amended): with [0 < top_k <= vocab_size] the filter keeps the
    entries that are not below the [top_k]-th largest value [kth]: fewer
    than [top_k] entries lie above [kth], at least [top_k] entries stay
    unfiltered, and exactly [top_k] when no two entries are equal; equal
    entries at the threshold are all kept.  With [top_k > vocab_size]
    [torch.topk] raises. *)
Theorem top_k_logits_keeps_threshold `{Exp} (row : list Q) (top_k : Z) :
  0 < top_k →
  if decide (top_k ≤ Z.of_nat (length row)) then
    ∃ kth out,
      kth ∈ row ∧
      top_k_logits [Fin <$> row] top_k 0 = Ok [out] ∧
      out = (λ x, if Qltb x kth then NegInf else Fin x) <$> row ∧
      (length (filter (λ x, Qltb kth x = true) row) < Z.to_nat top_k)%nat ∧
      (Z.to_nat top_k ≤ unfiltered out)%nat ∧
      (distinct_values row → unfiltered out = Z.to_nat top_k)
  else top_k_logits [Fin <$> row] top_k 0 = Raise RuntimeError.
Proof.
  intros Hpos. destruct (Z.to_nat top_k) as [|k] eqn:Hk; [lia |].
  case_decide as Hle.
  - unfold top_k_logits. rewrite decide_True by done.
    rewrite traverse_singleton. unfold top_k_row, topk. rewrite length_fmap, Hk.
    rewrite decide_True by lia. cbn [mbind result_bind].
    set (s := sort_desc (indexed (Fin <$> row))).
    assert (Hlen : length s = length row).
    { unfold s. by rewrite sort_desc_length, indexed_length, length_fmap. }
    destruct (s !! k) as [[x i]|] eqn:Hs;
      [|apply lookup_ge_None in Hs; lia].
    destruct (sort_fin_lookup row k x i Hs) as (kth & -> & Hi).
    rewrite fmap_take, last_take by (rewrite length_fmap; lia).
    rewrite list_lookup_fmap. fold s. rewrite Hs. simpl.
    exists kth, ((λ x, if Qltb x kth then NegInf else Fin x) <$> row).
    destruct (sorted_rank s k (Fin kth, i) (sort_desc_sorted _) Hs)
      as (Hge & Hgt & Hexact).
    split; [by eapply list_elem_of_lookup_2 |].
    split.
    { f_equal. f_equal. by rewrite <- list_fmap_compose. }
    split; [done |].
    rewrite unfiltered_threshold.
    assert (Hcount : length (filter (λ x, Qltb x kth = false) row)
                     = length (filter (λ p, logit_ltb p.1 (Fin kth) = false) s)).
    { etrans; [symmetry; exact (length_filter_fmap Fin
                                  (λ y, logit_ltb y (Fin kth) = false) row) |].
      exact (count_sorted (λ y, logit_ltb y (Fin kth) = false) (Fin <$> row)). }
    assert (Habove : length (filter (λ x, Qltb kth x = true) row)
                     = length (filter (λ p, logit_ltb (Fin kth) p.1 = true) s)).
    { etrans; [symmetry; exact (length_filter_fmap Fin
                                  (λ y, logit_ltb (Fin kth) y = true) row) |].
      exact (count_sorted (λ y, logit_ltb (Fin kth) y = true) (Fin <$> row)). }
    rewrite Hcount, Habove. simpl in Hge, Hgt, Hexact.
    split; [lia |]. split; [done |].
    + intros Hdistinct. apply Hexact. intros j [y ij] Hj Hsj. simpl.
      destruct (sort_fin_lookup row j y ij Hsj) as (v & -> & Hij).
      simpl. apply not_true_iff_false. rewrite Qle_bool_iff. intros Hkv.
      assert (Hvk : (v <= kth)%Q).
      { apply Qle_bool_iff.
        apply (sorted_lookup_desc s k j (Fin kth, i) (Fin v, ij)
                 (sort_desc_sorted _)); [lia | done | done]. }
      assert (ij = i) as ->.
      { eapply Hdistinct; [done | done |]. by apply Qle_antisym. }
      assert (j = k); [|lia].
      eapply (NoDup_lookup _ j k i (sort_desc_indexed_NoDup (Fin <$> row)));
        fold s; rewrite list_lookup_fmap.
      * by rewrite Hsj.
      * by rewrite Hs.
  - unfold top_k_logits. rewrite decide_True by done.
    rewrite traverse_singleton. unfold top_k_row, topk. rewrite length_fmap, Hk.
    rewrite decide_False by lia. done.
Qed.

(** C1 (as stated) fails on a row of equal logits: all three entries
    reach the threshold and stay, where [min(top_k, vocab_size)] is one. *)
Lemma top_k_logits_ties_counterexample :
  ¬ ∃ out, top_k_logits [Fin <$> [1; 1; 1]%Q] 1 0 = Ok [out] ∧
           unfiltered out = (Z.to_nat 1 `min` length [1; 1; 1]%Q)%nat.
Proof. intros (out & Hout & Hcount). vm_compute in Hout. by simplify_eq. Qed.

Lemma top_k_logits_keeps_threshold_witness :
  0 < 2 ∧
  ∃ kth out,
    kth ∈ [3; 1; 2]%Q ∧
    top_k_logits [Fin <$> [3; 1; 2]%Q] 2 0 = Ok [out] ∧
    out = (λ x, if Qltb x kth then NegInf else Fin x) <$> [3; 1; 2]%Q ∧
    (length (filter (λ x, Qltb kth x = true) [3; 1; 2]%Q) < Z.to_nat 2)%nat ∧
    (Z.to_nat 2 ≤ unfiltered out)%nat ∧
    (distinct_values [3; 1; 2]%Q → unfiltered out = Z.to_nat 2).
Proof.
  split; [reflexivity |].
  exact (top_k_logits_keeps_threshold [3; 1; 2]%Q 2 eq_refl).
Defined.

(** ** Sums, cumulative sums and softmax *)

Lemma Qsum_cons x l : Qsum (x :: l) = (x + Qsum l)%Q.
Proof. reflexivity. Qed.

Lemma Qsum_app l1 l2 : (Qsum (l1 ++ l2) == Qsum l1 + Qsum l2)%Q.
Proof.
  induction l1 as [|x l1 IH]; simpl; [lra |]. rewrite IH. lra.
Qed.

Lemma Qsum_nonneg l : Forall (λ x, 0 <= x)%Q l → (0 <= Qsum l)%Q.
Proof. induction 1 as [|x l Hx _ IH]; simpl; lra. Qed.

Lemma Qsum_take_mono l i j :
  Forall (λ x, 0 <= x)%Q l → (i ≤ j)%nat → (Qsum (take i l) <= Qsum (take j l))%Q.
Proof.
  intros Hl Hij. replace j with (i + (j - i))%nat by lia.
  rewrite <- take_take_drop, Qsum_app.
  assert (0 <= Qsum (take (j - i) (drop i l)))%Q; [|lra].
  apply Qsum_nonneg, Forall_take, Forall_drop, Hl.
Qed.

Lemma Qsum_scale l t : (Qsum ((λ x, x / t) <$> l) == Qsum l / t)%Q.
Proof.
  induction l as [|x l IH]; simpl.
  - unfold Qdiv. lra.
  - rewrite IH. unfold Qdiv. lra.
Qed.

Lemma cumsum_from_length acc l : length (cumsum_from acc l) = length l.
Proof. revert acc. induction l as [|x l IH]; intros acc; simpl; [done |]. by rewrite IH. Qed.

Lemma cumsum_from_lookup acc l i c :
  cumsum_from acc l !! i = Some c → (c == acc + Qsum (take (S i) l))%Q.
Proof.
  revert acc i. induction l as [|x l IH]; intros acc i Hi; [done |].
  destruct i as [|i]; simpl in Hi.
  - simplify_eq. simpl. lra.
  - apply IH in Hi. rewrite Hi. simpl. lra.
Qed.

Lemma mono_from (f : nat → bool) k j :
  (∀ k, f k = true → f (S k) = true) → f k = true → (k ≤ j)%nat → f j = true.
Proof. intros Hf Hk. induction 1; auto. Qed.

(** A boolean sequence that never falls back is false on an initial
    segment of [0..n) and true on the rest. *)
Lemma threshold_prefix (f : nat → bool) n :
  (∀ k, f k = true → f (S k) = true) →
  ∃ m, (m ≤ n)%nat ∧ (∀ k, (k < m)%nat → f k = false) ∧
       (∀ k, (m ≤ k)%nat → (k < n)%nat → f k = true).
Proof.
  intros Hf. induction n as [|n (m & Hm & Hlow & Hhigh)].
  - exists 0%nat. split; [done |]. split; intros; lia.
  - destruct (decide (m = n)) as [->|Hne].
    + destruct (f n) eqn:Hn.
      * exists n. split; [lia |]. split; [done |].
        intros k ? ?. by replace k with n by lia.
      * exists (S n). split; [done |]. split; [|intros; lia].
        intros k ?. destruct (decide (k = n)) as [->|]; [done |]. apply Hlow. lia.
    + exists m. split; [lia |]. split; [done |].
      intros k ? ?. apply (mono_from f m k Hf); [|done]. apply Hhigh; lia.
Qed.

Lemma mask_indices_length row L : length (mask_indices row L) = length row.
Proof. induction L as [|j L IH]; simpl; [done |]. by rewrite length_insert. Qed.

Lemma mask_indices_lookup row L i :
  mask_indices row L !! i = (λ x, if decide (i ∈ L) then NegInf else x) <$> row !! i.
Proof.
  induction L as [|j L IH]; simpl.
  - by destruct (row !! i).
  - rewrite list_lookup_insert, mask_indices_length.
    destruct (decide (j = i ∧ (j < length row)%nat)) as [[-> Hj]|Hj].
    + apply lookup_lt_is_Some_2 in Hj as [x ->]. simpl.
      destruct (decide (i ∈ i :: L)) as [|Hin]; [done |].
      exfalso. apply Hin, list_elem_of_here.
    + rewrite IH. destruct (row !! i) as [x|] eqn:Hi; simpl; [|done].
      destruct (decide (i = j)) as [->|Hne].
      * exfalso. apply Hj. split; [done |]. by eapply lookup_lt_Some.
      * f_equal. destruct (decide (i ∈ L)) as [Hin|Hin], (decide (i ∈ j :: L)) as [Hin'|Hin'];
          try done.
        -- exfalso. apply Hin'. by apply list_elem_of_further.
        -- exfalso. by apply elem_of_cons in Hin' as [?|?].
Qed.

(** What [sorted_indices[sorted_indices_to_remove]] selects. *)
Lemma selected_indices (mask : list bool) (idxs : list nat) i :
  i ∈ (filter (λ bi, bi.1 = true) (zip mask idxs)).*2 ↔
  ∃ k, mask !! k = Some true ∧ idxs !! k = Some i.
Proof.
  rewrite list_elem_of_fmap. split.
  - intros ([b j] & -> & [Hb Hin]%list_elem_of_filter). simpl in *. subst b.
    apply list_elem_of_lookup in Hin as [k Hk]. exists k.
    by apply lookup_zip_Some in Hk.
  - intros (k & Hm & Hi). exists (true, i). split; [done |].
    apply list_elem_of_filter. split; [done |].
    apply list_elem_of_lookup. exists k. by apply lookup_zip_Some.
Qed.

Section TopP.
Context `{Exp}.

Lemma weight_nonneg x : (0 <= weight x)%Q.
Proof. destruct x as [|q]; simpl; [lra |]. apply Qlt_le_weak, expw_pos. Qed.

Lemma weight_mono a b : logit_leb a b = true → (weight a <= weight b)%Q.
Proof.
  destruct a as [|x], b as [|y]; simpl; try done.
  - intros _. apply Qlt_le_weak, expw_pos.
  - rewrite Qle_bool_iff. apply expw_mono.
Qed.

Lemma Qsum_weight_pos (row : list logit) :
  row ≠ [] → Forall (λ x, is_filtered x = false) row → (0 < Qsum (weight <$> row))%Q.
Proof.
  intros Hne Hfin. destruct Hfin as [|x row Hx Hrow]; [done |].
  destruct x as [|q]; [done |]. rewrite fmap_cons, Qsum_cons. simpl weight.
  pose proof (expw_pos q).
  assert (0 <= Qsum (weight <$> row))%Q; [|lra].
  apply Qsum_nonneg, Forall_fmap, Forall_forall. intros y _. apply weight_nonneg.
Qed.

Lemma softmax_positive (row : list logit) :
  (0 < Qsum (weight <$> row))%Q →
  softmax row = Some ((λ x, x / Qsum (weight <$> row))%Q <$> (weight <$> row)).
Proof.
  intros Hpos. unfold softmax. destruct row as [|x row]; [done |].
  destruct (Qeq_bool _ 0) eqn:Hz; [|done].
  apply Qeq_bool_iff in Hz. rewrite Hz in Hpos. lra.
Qed.

Lemma scaled_nonneg (w : list Q) t :
  (0 < t)%Q → Forall (λ x, 0 <= x)%Q w → Forall (λ x, 0 <= x)%Q ((λ x, x / t)%Q <$> w).
Proof.
  intros Ht Hw. apply Forall_fmap. eapply Forall_impl; [exact Hw |].
  intros x Hx. simpl in *. apply Qle_shift_div_l; [done |]. lra.
Qed.

Lemma scaled_total (w : list Q) :
  (0 < Qsum w)%Q → (Qsum ((λ x, x / Qsum w)%Q <$> w) == 1)%Q.
Proof.
  intros Ht. rewrite Qsum_scale. field. lra.
Qed.

End TopP.

Lemma Qltb_proper t a b : (a == b)%Q → Qltb t a = Qltb t b.
Proof. intros Hab. unfold Qltb. by rewrite Hab. Qed.

(** The removal mask of lines 120-123, position by position: rank [k] is
    removed when the probabilities of the ranks before it already exceed
    [top_p]. *)
Lemma nucleus_mask_lookup (probs : list Q) (top_p : Q) k :
  (0 < top_p)%Q → (k < length probs)%nat →
  (false :: removelast ((λ c, Qltb top_p c) <$> cumsum probs)) !! k
  = Some (Qltb top_p (Qsum (take k probs))).
Proof.
  intros Hp Hk. destruct k as [|i].
  - simpl. f_equal. symmetry. apply Qltb_ge. by apply Qlt_le_weak.
  - simpl lookup. rewrite removelast_firstn_len.
    change (@firstn bool) with (@take bool).
    rewrite length_fmap. unfold cumsum. rewrite cumsum_from_length.
    rewrite lookup_take_lt by lia. rewrite list_lookup_fmap.
    destruct (cumsum_from 0 probs !! i) as [c|] eqn:Hc.
    + simpl. f_equal. apply Qltb_proper.
      rewrite (cumsum_from_lookup _ _ _ _ Hc). lra.
    + apply lookup_ge_None in Hc. rewrite cumsum_from_length in Hc. lia.
Qed.

Section Nucleus.
Context `{Exp}.

Lemma top_p_row_positive (row : list logit) (top_p : Q) probs :
  softmax (sort_desc (indexed row)).*1 = Some probs → probs ≠ [] →
  top_p_row top_p row
  = Ok (mask_indices row
          (filter (λ bi, bi.1 = true)
             (zip (false :: removelast ((λ c, Qltb top_p c) <$> cumsum probs))
                  (sort_desc (indexed row)).*2)).*2).
Proof.
  intros Hsm Hne. unfold top_p_row. rewrite Hsm.
  destruct probs as [|p probs]; [done |]. done.
Qed.

(** C2 (as amended): for [top_p] in (0,1) the nucleus filter keeps the
    first [m >= 1] ranks of the descending order, the most probable
    token among them; their cumulative pre-filter probability exceeds
    [top_p], and without the last of them it is at most [top_p] (it may
    equal [top_p]). *)
Theorem top_p_keeps_minimal_prefix (row : list Q) (top_p : Q) :
  row ≠ [] → (0 < top_p)%Q → (top_p < 1)%Q →
  ∃ probs m out,
    softmax (sort_desc (indexed (Fin <$> row))).*1 = Some probs ∧
    top_k_logits [Fin <$> row] 0 top_p = Ok [out] ∧
    (1 ≤ m ≤ length row)%nat ∧
    (∀ k x i, sort_desc (indexed (Fin <$> row)) !! k = Some (x, i) →
              out !! i = Some (if decide (k < m)%nat then x else NegInf)) ∧
    (∀ k p p0, probs !! k = Some p → probs !! 0%nat = Some p0 → (p <= p0)%Q) ∧
    (top_p < Qsum (take m probs))%Q ∧
    (Qsum (take (m - 1) probs) <= top_p)%Q.
Proof.
  intros Hne Hp0 Hp1.
  set (s := sort_desc (indexed (Fin <$> row))).
  assert (Hlen : length s = length row).
  { unfold s. by rewrite sort_desc_length, indexed_length, length_fmap. }
  assert (Hn : (0 < length row)%nat) by (destruct row; [done | simpl; lia]).
  assert (Hfin : Forall (λ x, is_filtered x = false) s.*1).
  { apply Forall_lookup. intros k x Hk.
    apply list_lookup_fmap_Some in Hk as ([x' i] & -> & Hk).
    by destruct (sort_fin_lookup row k x' i Hk) as (y & -> & _). }
  assert (Ht : (0 < Qsum (weight <$> s.*1))%Q).
  { apply Qsum_weight_pos; [|done]. intros Hnil.
    apply (f_equal length) in Hnil. rewrite length_fmap, Hlen in Hnil. simpl in Hnil. lia. }
  set (probs := (λ x, x / Qsum (weight <$> s.*1))%Q <$> (weight <$> s.*1)).
  assert (Hsm : softmax s.*1 = Some probs) by by apply softmax_positive.
  assert (Hplen : length probs = length row).
  { unfold probs. by rewrite !length_fmap. }
  assert (Hnn : Forall (λ x, 0 <= x)%Q probs).
  { apply scaled_nonneg; [done |]. apply Forall_fmap, Forall_forall.
    intros x _. apply weight_nonneg. }
  assert (Htot : (Qsum probs == 1)%Q) by by apply scaled_total.
  set (f := λ k, Qltb top_p (Qsum (take k probs))).
  assert (Hf : ∀ k, f k = true → f (S k) = true).
  { intros k. unfold f. rewrite !Qltb_lt. intros Hk.
    pose proof (Qsum_take_mono probs k (S k) Hnn ltac:(lia)). lra. }
  destruct (threshold_prefix f (length row) Hf) as (m & Hm & Hlow & Hhigh).
  assert (Hf0 : f 0%nat = false).
  { unfold f. apply Qltb_ge. simpl. by apply Qlt_le_weak. }
  assert (Hm1 : (1 ≤ m)%nat).
  { destruct m as [|m]; [|lia]. rewrite Hhigh in Hf0 by lia. done. }
  exists probs, m. eexists. split; [done |].
  split.
  { unfold top_k_logits. rewrite decide_False by lia. cbn [mbind result_bind].
    rewrite (proj2 (Qltb_lt 0 top_p) Hp0).
    rewrite (top_p_row_positive _ _ probs Hsm).
    - reflexivity.
    - intros Hnil. apply (f_equal length) in Hnil. simpl in Hnil. lia. }
  split; [lia |].
  split.
  { intros k x i Hk. fold s.
    assert (Hkn : (k < length row)%nat).
    { rewrite <- Hlen. by eapply lookup_lt_Some. }
    assert (Hrow : (Fin <$> row) !! i = Some x).
    { by eapply sort_desc_indexed_elem, list_elem_of_lookup_2. }
    rewrite mask_indices_lookup, Hrow. cbn [fmap option_fmap option_map]. f_equal.
    destruct (decide (k < m)%nat) as [Hkm|Hkm].
    - rewrite decide_False; [done |].
      intros (k' & Hmask & Hidx)%selected_indices.
      assert (k' = k) as ->.
      { eapply (NoDup_lookup _ k' k i (sort_desc_indexed_NoDup (Fin <$> row)));
          [done |]. fold s. by rewrite list_lookup_fmap, Hk. }
      rewrite nucleus_mask_lookup in Hmask by (done || lia).
      fold (f k) in Hmask. rewrite Hlow in Hmask by done. done.
    - rewrite decide_True; [done |].
      apply selected_indices. exists k. split.
      + rewrite nucleus_mask_lookup by (done || lia).
        fold (f k). rewrite Hhigh by lia. done.
      + by rewrite list_lookup_fmap, Hk. }
  split.
  { intros k p p0 Hk H0. unfold probs in Hk, H0.
    rewrite !list_lookup_fmap in Hk, H0.
    destruct (s !! k) as [[x i]|] eqn:Hsk; [|done].
    destruct (s !! 0%nat) as [[x0 i0]|] eqn:Hs0; [|done].
    simpl in Hk, H0. simplify_eq.
    apply Qmult_le_compat_r; [|by apply Qlt_le_weak, Qinv_lt_0_compat].
    apply weight_mono.
    apply (sorted_lookup_desc s 0 k (x0, i0) (x, i) (sort_desc_sorted _));
      [lia | done | done]. }
  split.
  - destruct (decide (m = length row)) as [->|Hmn].
    + rewrite <- Hplen, firstn_all. lra.
    + apply Qltb_lt. apply (Hhigh m); lia.
  - apply Qltb_ge. apply (Hlow (m - 1)%nat). lia.
Qed.

End Nucleus.

Lemma top_p_keeps_minimal_prefix_witness :
  [0; 2; 1]%Q ≠ [] ∧ (0 < 1 # 2)%Q ∧ (1 # 2 < 1)%Q ∧
  ∃ probs m out,
    softmax (sort_desc (indexed (Fin <$> [0; 2; 1]%Q))).*1 = Some probs ∧
    top_k_logits [Fin <$> [0; 2; 1]%Q] 0 (1 # 2) = Ok [out] ∧
    (1 ≤ m ≤ length [0; 2; 1]%Q)%nat ∧
    (∀ k x i, sort_desc (indexed (Fin <$> [0; 2; 1]%Q)) !! k = Some (x, i) →
              out !! i = Some (if decide (k < m)%nat then x else NegInf)) ∧
    (∀ k p p0, probs !! k = Some p → probs !! 0%nat = Some p0 → (p <= p0)%Q) ∧
    (1 # 2 < Qsum (take m probs))%Q ∧
    (Qsum (take (m - 1) probs) <= 1 # 2)%Q.
Proof.
  split; [done |]. split; [reflexivity |]. split; [reflexivity |].
  exact (top_p_keeps_minimal_prefix [0; 2; 1]%Q (1 # 2) ltac:(done) eq_refl eq_refl).
Defined.

(** C2 (as stated) fails on two equal logits with [top_p = 1/2]: both
    entries are kept, and without the lower-ranked one the cumulative
    probability is exactly [top_p], not below it. *)
Lemma top_p_minimality_counterexample :
  ∃ probs out,
    softmax (sort_desc (indexed [Fin 0; Fin 0])).*1 = Some probs ∧
    top_k_logits [[Fin 0; Fin 0]] 0 (1 # 2) = Ok [out] ∧
    unfiltered out = 2%nat ∧
    ¬ (Qsum (take (unfiltered out - 1) probs) < 1 # 2)%Q.
Proof.
  eexists _, _. split; [vm_compute; reflexivity |].
  split; [vm_compute; reflexivity |]. split; [reflexivity |].
  vm_compute. discriminate.
Qed.

(** ** The sampling step *)

Section SamplingStep.
Context `{Exp} `{Sampler} `{Model}.

Lemma Qsum_weight_pos_exists (row : list logit) :
  Exists (λ x, is_filtered x = false) row → (0 < Qsum (weight <$> row))%Q.
Proof.
  induction 1 as [x row Hx|x row _ IH]; rewrite fmap_cons, Qsum_cons.
  - destruct x as [|q]; [done |]. simpl weight. pose proof (expw_pos q).
    assert (0 <= Qsum (weight <$> row))%Q; [|lra].
    apply Qsum_nonneg, Forall_fmap, Forall_forall. intros y _. apply weight_nonneg.
  - pose proof (weight_nonneg x). lra.
Qed.


(** The nucleus filter never masks the first rank. *)
Lemma top_p_row_keeps_first (row : list logit) (top_p : Q) :
  row ≠ [] →
  ∃ out, top_p_row top_p row = Ok out ∧
         ∀ x i, sort_desc (indexed row) !! 0%nat = Some (x, i) → out !! i = Some x.
Proof.
  intros Hne. unfold top_p_row.
  set (s := sort_desc (indexed row)).
  set (above := match softmax s.*1 with
                | Some probs => (λ c, Qltb top_p c) <$> cumsum probs
                | None => replicate (length row) false
                end).
  assert (Hlen : length s = length row).
  { unfold s. by rewrite sort_desc_length, indexed_length. }
  assert (Habove : above ≠ []).
  { intros Hnil. apply (f_equal length) in Hnil. unfold above, softmax in Hnil.
    destruct s.*1 as [|x l] eqn:Hs1.
    - apply (f_equal length) in Hs1. rewrite length_fmap, Hlen in Hs1.
      destruct row; [done | simpl in Hs1; lia].
    - destruct (Qeq_bool _ 0).
      + rewrite length_replicate in Hnil. destruct row; [done | simpl in Hnil; lia].
      + unfold cumsum in Hnil.
        rewrite length_fmap, cumsum_from_length, !length_fmap in Hnil.
        simpl in Hnil. lia. }
  destruct above as [|a above'] eqn:Ha; [done |].
  eexists. split; [reflexivity |].
  intros x i Hfst.
  assert (Hrow : row !! i = Some x).
  { by eapply sort_desc_indexed_elem, list_elem_of_lookup_2. }
  rewrite mask_indices_lookup, Hrow. cbn [fmap option_fmap option_map]. f_equal.
  rewrite decide_False; [done |].
  intros (k & Hmask & Hidx)%selected_indices.
  assert (k = 0%nat) as ->.
  { eapply (NoDup_lookup _ k 0 i (sort_desc_indexed_NoDup row)); [done |].
    fold s. by rewrite list_lookup_fmap, Hfst. }
  done.
Qed.

Lemma sorted_first_finite (row : list logit) :
  Exists (λ x, is_filtered x = false) row →
  ∃ q i, sort_desc (indexed row) !! 0%nat = Some (Fin q, i).
Proof.
  intros (y & [j Hj]%list_elem_of_lookup & Hy)%Exists_exists.
  assert (Hin : (y, j) ∈ sort_desc (indexed row)) by by apply sort_desc_indexed_elem.
  apply list_elem_of_lookup in Hin as [k Hk].
  destruct (sort_desc (indexed row) !! 0%nat) as [[x i]|] eqn:Hfst.
  - pose proof (sorted_lookup_desc _ 0 k (x, i) (y, j) (sort_desc_sorted _)
                  ltac:(lia) Hfst Hk) as Hd.
    unfold desc in Hd. simpl in Hd.
    destruct x as [|q]; [by destruct y |]. eauto.
  - apply lookup_ge_None in Hfst. apply lookup_lt_Some in Hk. lia.
Qed.

(** Filtering a row that has a finite entry leaves one. *)
Lemma top_k_logits_keeps_one (row : list logit) (top_k : Z) (top_p : Q) :
  Exists (λ x, is_filtered x = false) row →
  top_k ≤ Z.of_nat (length row) →
  ∃ out, top_k_logits [row] top_k top_p = Ok [out] ∧
         Exists (λ x, is_filtered x = false) out.
Proof.
  intros Hex Hk.
  assert (Hstep : ∃ mid, (if decide (0 < top_k)
                          then traverse (top_k_row top_k) [row] else Ok [row]) = Ok [mid] ∧
                         Exists (λ x, is_filtered x = false) mid).
  { case_decide as Hpos; [|eauto].
    rewrite traverse_singleton. unfold top_k_row, topk.
    rewrite decide_True by lia. cbn [mbind result_bind].
    destruct (Z.to_nat top_k) as [|k] eqn:Hkn; [lia |].
    rewrite fmap_take, last_take
      by (rewrite length_fmap, sort_desc_length, indexed_length; lia).
    rewrite list_lookup_fmap.
    destruct (sort_desc (indexed row) !! k) as [[kth i]|] eqn:Hs.
    2:{ apply lookup_ge_None in Hs.
        rewrite sort_desc_length, indexed_length in Hs. lia. }
    simpl. eexists. split; [reflexivity |].
    destruct (sorted_first_finite row Hex) as (q & i0 & Hfst).
    assert (Hq : row !! i0 = Some (Fin q)).
    { by eapply sort_desc_indexed_elem, list_elem_of_lookup_2. }
    apply Exists_exists. exists (Fin q). split; [|done].
    apply list_elem_of_fmap. exists (Fin q). split; [|by eapply list_elem_of_lookup_2].
    pose proof (sorted_lookup_desc _ 0 k (Fin q, i0) (kth, i) (sort_desc_sorted _)
                  ltac:(lia) Hfst Hs) as Hd.
    unfold desc in Hd. simpl in Hd. unfold logit_ltb. by rewrite Hd. }
  destruct Hstep as (mid & Hmid & Hexm).
  unfold top_k_logits. rewrite Hmid. cbn [mbind result_bind].
  destruct (Qltb 0 top_p); [|eauto].
  destruct (top_p_row_keeps_first mid top_p) as (out & Hout & Hfirst).
  { intros ->. by apply Exists_nil in Hexm. }
  rewrite Hout. cbn [mbind result_bind]. exists out. split; [done |].
  destruct (sorted_first_finite mid Hexm) as (q & i & Hfst).
  apply Exists_exists. exists (Fin q). split; [|done].
  eapply list_elem_of_lookup_2. by apply Hfirst.
Qed.


(** A quotient beyond the float range: the step raises, as it does for
    a temperature of zero. *)
Lemma sample_token_overflow (args : Args) (g : rng) (row : list Q) (x : Q) :
  x ∈ row → (max_float < x / temperature args)%Q →
  sample_token args g [row] = Raise RuntimeError.
Proof.
  intros Hin Hover. unfold sample_token.
  assert (Hrow : mapM (divide args) row = None).
  { apply mapM_None, Exists_exists. exists x. split; [done |]. unfold divide. cbv zeta.
    by rewrite (proj2 (Qltb_lt _ _) Hover). }
  cbn [mapM]. by rewrite Hrow.
Qed.


End SamplingStep.



(** ** The sampling loop *)

Lemma cat_dim1_prefix {A} (a b out : list (list A)) :
  cat_dim1 a b = Ok out →
  length b = length a ∧ out = zip_with app a b ∧
  Forall2 (λ c o, take (length c) o = c) a out.
Proof.
  unfold cat_dim1. case_decide as Hlen; [|done]. intros [= <-].
  split; [done |]. split; [done |].
  revert b Hlen. induction a as [|c a IH]; intros [|d b] Hlen; simplify_eq/=.
  - constructor.
  - constructor; [by rewrite take_app_length | by apply IH].
Qed.

Section Loop.
Context `{Exp} `{BeamBackend}.
Variable args : Args.
Variable context_tokens : list (list Z).
Variable context_length : Z.
Variable end_tokens : list Z.
Variable first_inputs : option (PositionIds * AttentionMask).

Abbreviation step_forward := (forward args context_tokens context_length first_inputs).
Abbreviation step := (loop_body args context_tokens context_length end_tokens first_inputs).
Abbreviation loop := (sample_loop args context_tokens context_length end_tokens first_inputs).

(** One iteration without beams: a forward call and a draw; an end
    token leaves the sequence as it is and breaks, any other token is
    appended. *)
Lemma loop_body_single (st st' : loop_state) (stop : bool) :
  ¬ (1 < num_beams args) →
  step st = Ok (stop, st') →
  ∃ logits new_mems prev,
    step_forward st = Ok (logits, new_mems) ∧
    sample_token args (st_gen st) logits = Ok (prev, st_gen st') ∧
    st_mems st' = Some new_mems ∧
    st_counter st' = st_counter st ∧
    match stop with
    | true => prev ∈ end_tokens ∧ st_tokens st' = st_tokens st
    | false => (prev ∉ end_tokens) ∧ cat_dim1 (st_tokens st) [[prev]] = Ok (st_tokens st')
    end.
Proof.
  intros Hbeams. unfold loop_body.
  destruct (step_forward st) as [[logits new_mems]|e] eqn:Hfwd; [|done].
  cbn [mbind result_bind]. rewrite decide_False by done.
  destruct (sample_token args (st_gen st) logits) as [[prev g]|e] eqn:Hdraw; [|done].
  cbn [mbind result_bind]. case_bool_decide as Hend.
  - intros [= <- <-]. exists logits, new_mems, prev. by repeat split.
  - destruct (cat_dim1 (st_tokens st) [[prev]]) as [tokens|e] eqn:Hcat; [|done].
    cbn [mbind result_bind]. intros [= <- <-].
    exists logits, new_mems, prev. by repeat split.
Qed.

Lemma loop_body_end_token (st : loop_state) logits new_mems prev g :
  ¬ (1 < num_beams args) →
  step_forward st = Ok (logits, new_mems) →
  sample_token args (st_gen st) logits = Ok (prev, g) →
  prev ∈ end_tokens →
  step st = Ok (true,
                {| st_tokens := st_tokens st; st_mems := Some new_mems;
                   st_counter := st_counter st;
                   st_last_beam_num := st_last_beam_num st;
                   st_beam_scores := st_beam_scores st;
                   st_beam_scorer := st_beam_scorer st;
                   st_candidates := st_candidates st; st_gen := g |}).
Proof.
  intros Hbeams Hfwd Hdraw Hend. unfold loop_body. rewrite Hfwd.
  cbn [mbind result_bind]. rewrite decide_False by done.
  rewrite Hdraw. cbn [mbind result_bind].
  by rewrite bool_decide_eq_true_2 by done.
Qed.

Lemma sample_loop_S (n : nat) (st : loop_state) :
  loop (S n) st
  = '(stop, st') ← step st; if stop : bool then Ok st' else loop n (increment st').
Proof. reflexivity. Qed.

(** The forward call of a block-mode iteration. *)
Lemma forward_block (st : loop_state) (mems : list (list mem)) :
  block_lm args = true → st_mems st = Some mems →
  step_forward st
  = let '(next_token_logits, mems) :=
      model (last_column (st_tokens st))
        (if no_block_position args
         then Pos1 (replicate (Z.to_nat (st_last_beam_num st))
                      [context_length + st_counter st])
         else Pos2 (replicate (Z.to_nat (st_last_beam_num st))
                      [[context_length]; [st_counter st + 1]]))
        (MaskFlag [0]) mems in
    next_token_logits ← select_last next_token_logits;
    Ok (next_token_logits, mems).
Proof.
  intros Hblock Hmems. unfold forward. rewrite Hblock, Hmems.
  cbn [negb]. rewrite andb_false_r. cbn [mbind result_bind].
  by destruct (no_block_position args).
Qed.

(** C3: in the loop without beams, a sampled end token stops the loop
    and is not appended; otherwise the loop runs until the number of
    generated tokens reaches the bound.  [n] is [out_seq_length] minus
    the counter at entry. *)
Theorem sample_loop_stops (n : nat) (st : loop_state) (row : list Z) :
  ¬ (1 < num_beams args) → st_tokens st = [row] →
  (∀ logits new_mems prev g,
     step_forward st = Ok (logits, new_mems) →
     sample_token args (st_gen st) logits = Ok (prev, g) →
     prev ∈ end_tokens →
     ∃ st', loop (S n) st = Ok st' ∧
            st_tokens st' = [row] ∧ st_counter st' = st_counter st) ∧
  (∀ st', loop n st = Ok st' →
     ∃ generated,
       st_tokens st' = [row ++ generated] ∧
       Forall (λ t, t ∉ end_tokens) generated ∧
       st_counter st' = st_counter st + Z.of_nat (length generated) ∧
       (length generated = n ∨
        (length generated < n)%nat ∧
        ∃ st_last logits new_mems prev,
          st_tokens st_last = [row ++ generated] ∧
          st_counter st_last = st_counter st' ∧
          step_forward st_last = Ok (logits, new_mems) ∧
          sample_token args (st_gen st_last) logits = Ok (prev, st_gen st') ∧
          prev ∈ end_tokens ∧ st_mems st' = Some new_mems)).
Proof.
  intros Hbeams Hrow. split.
  - intros logits new_mems prev g Hfwd Hdraw Hend.
    rewrite sample_loop_S, (loop_body_end_token st logits new_mems prev g) by done.
    eexists. split; [reflexivity |]. by split.
  - revert st row Hrow. induction n as [|n IH]; intros st row Hrow st' Hloop.
    + injection Hloop as <-. exists []. rewrite app_nil_r.
      split; [done |]. split; [constructor |]. split; [simpl; lia |]. by left.
    + cbn [sample_loop] in Hloop.
      destruct (step st) as [[stop st1]|e] eqn:Hbody; [|done].
      cbn [mbind result_bind] in Hloop.
      destruct (loop_body_single st st1 stop Hbeams Hbody)
        as (logits & new_mems & prev & Hfwd & Hdraw & Hmems & Hcount & Hstop).
      destruct stop.
      * injection Hloop as <-. destruct Hstop as [Hend Htok].
        exists []. rewrite app_nil_r.
        split; [congruence |]. split; [constructor |].
        split; [simpl; lia |]. right. split; [simpl; lia |].
        exists st, logits, new_mems, prev. by repeat split.
      * destruct Hstop as [Hend Hcat]. rewrite Hrow in Hcat.
        injection Hcat as Htok.
        destruct (IH (increment st1) (row ++ [prev]) (eq_sym Htok) st' Hloop)
          as (generated & Htokens & Hall & Hcounter & Hlast).
        exists (prev :: generated). rewrite <- app_assoc in Htokens.
        split; [done |]. split; [by constructor |].
        split; [simpl in *; lia |].
        destruct Hlast as [Hlen|[Hlen Hlast]]; [left; simpl; lia |].
        right. split; [simpl; lia |].
        destruct Hlast as (st_last & ? & ? & ? & Ht & ?).
        rewrite <- app_assoc in Ht. exists st_last. eauto 10.
Qed.

End Loop.

Section Sequence.
Context `{Exp} `{BeamBackend}.
Variable tokenizer : Tokenizer.
Variable args : Args.

(** C10: whenever [sample_sequence] returns, every row of the result
    is the corresponding row of [context_tokens], unchanged, followed by
    what the decoding produced. *)
Theorem sample_sequence_keeps_context (context_tokens : list (list Z))
    (context_length : Z) (mems : option (list (list mem))) (end_tokens : option (list Z))
    (g : rng) out mems' g' :
  sample_sequence tokenizer args context_tokens context_length mems end_tokens g
  = Ok (out, mems', g') →
  ∃ tokens,
    length tokens = length context_tokens ∧
    out = zip_with app context_tokens tokens ∧
    Forall2 (λ c o, take (length c) o = c) context_tokens out.
Proof.
  unfold sample_sequence. destruct (block_lm args) eqn:Hblock; cbn [negb].
  - cbn [mbind result_bind].
    destruct (decide (1 < num_beams args)) as [Hbeams|Hbeams]; [done |].
    cbn [mbind result_bind].
    destruct (sample_loop _ _ _ _ _ _ _) as [st|e]; [|done].
    cbn [mbind result_bind].
    destruct (cat_dim1 context_tokens (st_tokens st)) as [out'|e] eqn:Hcat; [|done].
    cbn [mbind result_bind]. intros [= <- <- <-].
    exists (st_tokens st). exact (cat_dim1_prefix _ _ _ Hcat).
  - unfold get_batch. by rewrite Hblock.
Qed.

(** C4 (as amended): context [5, 7, 2], end token 0, [out_seq_length]
    4 and a first draw of token 0.  In block mode the loop ends in its
    first iteration and the result is the context followed by the
    start-of-piece token alone; the end token is not appended. *)
Theorem sample_sequence_end_token_first (context_length : Z) (mems : list (list mem))
    (g g' : rng) logits3 new_mems logits :
  block_lm args = true → ¬ (1 < num_beams args) → out_seq_length args = 4 →
  model [[get_command tokenizer "sop"]]
        (if no_block_position args then Pos1 [[context_length + 0]]
         else Pos2 [[[context_length]; [0 + 1]]])
        (MaskFlag [0]) mems = (logits3, new_mems) →
  select_last logits3 = Ok logits →
  sample_token args g logits = Ok (0, g') →
  sample_sequence tokenizer args [[5; 7; 2]] context_length (Some mems) (Some [0]) g
  = Ok ([[5; 7; 2; get_command tokenizer "sop"]], Some new_mems, g').
Proof.
  intros Hblock Hbeams Hlen Hmodel Hlast Hdraw.
  unfold sample_sequence. rewrite Hblock, Hlen. cbn [negb mbind result_bind].
  rewrite decide_False by done. cbn [mbind result_bind].
  change (Z.to_nat 4) with 4%nat.
  rewrite sample_loop_S.
  rewrite (loop_body_end_token _ _ _ _ _ _ logits new_mems 0 g').
  - cbn [mbind result_bind st_tokens st_mems st_gen]. rewrite decide_False by done.
    cbn [mbind result_bind]. reflexivity.
  - done.
  - rewrite (forward_block _ _ _ _ _ mems) by done.
    cbn [st_tokens st_last_beam_num st_counter].
    change (Z.to_nat 1) with 1%nat.
    cbn [replicate last_column fmap list_fmap length drop Nat.sub].
    rewrite Hmodel, Hlast. reflexivity.
  - done.
  - apply list_elem_of_here.
Qed.

End Sequence.

(** ** Beam reordering *)

Lemma traverse_Forall2 {A B} (f : A → result B) xs ys :
  traverse f xs = Ok ys → Forall2 (λ x y, f x = Ok y) xs ys.
Proof.
  revert ys. induction xs as [|x xs IH]; intros ys Hys; simpl in Hys.
  - injection Hys as <-. constructor.
  - destruct (f x) as [y|e] eqn:Hx; [|done]. cbn [mbind result_bind] in Hys.
    destruct (traverse f xs) as [ys'|e]; [|done]. cbn [mbind result_bind] in Hys.
    injection Hys as <-. constructor; [done |]. by apply IH.
Qed.

Lemma traverse_ok {A B} (f : A → result B) (g : A → B) xs :
  (∀ x, x ∈ xs → f x = Ok (g x)) → traverse f xs = Ok (g <$> xs).
Proof.
  induction xs as [|x xs IH]; intros Hf; [done |]. simpl.
  rewrite Hf by apply list_elem_of_here. cbn [mbind result_bind].
  rewrite IH; [done |]. intros y Hy. apply Hf. by apply list_elem_of_further.
Qed.

(** Row [i] of [t[idx]] is row [idx[i]] of [t]. *)
Lemma index_rows_lookup {A} (t : list A) (idx : list nat) (out : list A) :
  index_rows t idx = Ok out →
  length out = length idx ∧
  ∀ i b, idx !! i = Some b → ∃ r, t !! b = Some r ∧ out !! i = Some r.
Proof.
  intros Hout%traverse_Forall2. split; [symmetry; by eapply Forall2_length |].
  intros i b Hi.
  destruct (Forall2_lookup_l _ _ _ _ _ Hout Hi) as (r & Hr & Hb).
  destruct (t !! b) as [r'|]; [|done]. injection Hb as ->. eauto.
Qed.

(** [_reorder_cache] applies the same selection to the key and the value
    of every layer. *)
Lemma reorder_cache_lookup {A} (past out : list (list (list A) * list (list A)))
    (beam_idx : list nat) :
  _reorder_cache past beam_idx = Ok out →
  Forall2 (λ layer layer',
             index_select1 layer.1 beam_idx = Ok layer'.1 ∧
             index_select1 layer.2 beam_idx = Ok layer'.2) past out.
Proof.
  intros Hout%traverse_Forall2. eapply Forall2_impl; [exact Hout |].
  intros [k v] [k' v'] Hl. simpl in *.
  destruct (index_select1 k beam_idx) as [k0|e]; [|done]. cbn [mbind result_bind] in Hl.
  destruct (index_select1 v beam_idx) as [v0|e]; [|done]. cbn [mbind result_bind] in Hl.
  by injection Hl as -> ->.
Qed.

Section Beams.
Context `{Exp} `{BeamBackend}.

Lemma reorder_beams_lookup (tokens : list (list Z)) (mems : list (list mem))
    (beam_idx : list nat) (beam_next_tokens : list Z) tokens' mems' :
  reorder_beams tokens mems beam_idx beam_next_tokens = Ok (tokens', mems') →
  (∀ i b, beam_idx !! i = Some b →
     ∃ row t, tokens !! b = Some row ∧ beam_next_tokens !! i = Some t ∧
              tokens' !! i = Some (row ++ [t])) ∧
  (mems ≠ [] →
   ∃ ms, mems' = Some ms ∧
         Forall2 (λ layer layer',
                    length layer' = length beam_idx ∧
                    ∀ i b, beam_idx !! i = Some b →
                           ∃ m, layer !! b = Some m ∧ layer' !! i = Some m) mems ms).
Proof.
  unfold reorder_beams.
  destruct (index_rows tokens beam_idx) as [selected|e] eqn:Hsel; [|done].
  cbn [mbind result_bind].
  destruct (cat_dim1 _ _) as [cat|e] eqn:Hcat; [|done].
  cbn [mbind result_bind].
  apply index_rows_lookup in Hsel as [Hlen Hsel].
  apply cat_dim1_prefix in Hcat as (Hlen' & -> & _).
  rewrite length_fmap in Hlen'.
  intros Hmems. split.
  - intros i b Hi. destruct (Hsel i b Hi) as (row & Hb & Hrow).
    assert (is_Some (beam_next_tokens !! i)) as [t Ht].
    { apply lookup_lt_is_Some. rewrite Hlen', Hlen. by eapply lookup_lt_Some. }
    exists row, t. split; [done |]. split; [done |].
    destruct mems as [|layer layers]; cbn [mbind result_bind] in Hmems.
    + injection Hmems as <- <-.
      by rewrite lookup_zip_with, Hrow, list_lookup_fmap, Ht.
    + destruct (traverse _ _); [|done]. simpl in Hmems. injection Hmems as <- <-.
      by rewrite lookup_zip_with, Hrow, list_lookup_fmap, Ht.
  - intros Hne. destruct mems as [|layer layers]; [done |].
    destruct (traverse _ (layer :: layers)) as [ms|e] eqn:Hms; [|done].
    simpl in Hmems. injection Hmems as <- <-. exists ms. split; [done |].
    apply traverse_Forall2 in Hms.
    eapply Forall2_impl; [exact Hms |]. intros l l' Hl. by apply index_rows_lookup.
Qed.

End Beams.

(** ** Prompts without a mask *)

Lemma positions_of_absent (token : Z) (t : list Z) :
  token ∉ t → positions_of token t = [].
Proof.
  intros Habsent. unfold positions_of. rewrite filter_none; [done |].
  apply Forall_forall. intros [v i] Hin%indexed_elem Hv. simpl in Hv. subst v.
  apply Habsent. by eapply list_elem_of_lookup_2.
Qed.

Section NoMask.
Context `{Exp} `{BeamBackend}.
Variable tokenizer : Tokenizer.
Variable args : Args.

(** C6 (as amended): block mode never rejects a prompt for lacking a
    mask.  [read_context] appends the generation mask to a text that has
    none and accepts it; and when no mask id occurs in the tokenised
    context, [generate_samples] runs the encoding pass, infills nothing
    and hands back the context tokens as they are. *)
Theorem block_mode_without_mask :
  block_lm args = true →
  (∀ raw_text lines written,
     raw_text ≠ ""%string → raw_text ≠ "stop"%string →
     contains "MASK]" raw_text = false →
     let text :=
       (raw_text ++ " " ++ (if task_mask args then "[gMASK]" else "[MASK]"))%string in
     let tokens :=
       let tokens := get_command tokenizer "ENC" :: EncodeAsIds tokenizer text in
       if negb (endswith text "MASK]")
       then tokens ++ [get_command tokenizer "eos"] else tokens in
     Z.of_nat (length tokens) < max_sequence_length args →
     prompt_loop tokenizer args (raw_text :: lines) written
     = Ok (Prompt text tokens, written ++ [text])) ∧
  (∀ context_tokens_tensor context_length g,
     (∀ name, name ∈ (if task_mask args then ["MASK"; "sMASK"; "gMASK"] else ["MASK"])%string →
              get_command tokenizer name ∉ context_tokens_tensor) →
     generate tokenizer args context_tokens_tensor context_length g
     = Ok (context_tokens_tensor, g)).
Proof.
  intros Hblock. split.
  - intros raw_text lines written Hne Hstop Hmask text tokens Hlen.
    cbn [prompt_loop].
    rewrite (proj2 (String.eqb_neq _ _) Hne), (proj2 (String.eqb_neq _ _) Hstop).
    rewrite Hblock, Hmask. cbn [negb andb]. fold text. fold tokens.
    by rewrite bool_decide_eq_false_2 by lia.
  - intros ctx context_length g Habsent.
    unfold generate. rewrite Hblock. unfold get_batch. rewrite Hblock.
    cbn [mbind result_bind].
    assert (Hpos : ((get_command tokenizer <$>
                       (if task_mask args then ["MASK"; "sMASK"; "gMASK"]
                        else ["MASK"])%string)
                    ≫= λ token, positions_of token ctx) = []).
    { destruct (task_mask args); cbn [fmap list_fmap mbind list_bind];
        rewrite !positions_of_absent; try done;
        apply Habsent; repeat constructor. }
    destruct (task_mask args); rewrite Hpos;
      change (merge_sort le []) with (@nil nat);
      cbn [foldl foldM mbind result_bind];
      destruct (no_block_position args);
      destruct (model _ _ _ _) as [? mems];
      cbn [mbind result_bind concat]; by rewrite !app_nil_r.
Qed.

End NoMask.

(** ** Greedy decoding *)

Section Greedy.
Context `{Exp} `{Sampler} `{Generation}.
Variable eos_token_id : list Z.

(** Without sampling an iteration neither reads nor advances the
    generator state. *)
Lemma generate_step_greedy input_ids kw unfinished (g1 g2 : rng) :
  generate_step false eos_token_id input_ids kw unfinished g2
  = '(ids, kw', unfinished', _, stop) ←
      generate_step false eos_token_id input_ids kw unfinished g1;
    Ok (ids, kw', unfinished', g2, stop).
Proof.
  unfold generate_step.
  destruct (forward_pass input_ids kw) as [[logits kw']|e]; [|done].
  cbn [mbind result_bind].
  destruct (traverse argmax _) as [next_tokens|e]; [|done].
  cbn [mbind result_bind].
  destruct (cat_dim1 _ _) as [ids|e]; [|done]. cbn [mbind result_bind].
  case_bool_decide; [done |]. case_bool_decide; [done |].
  by destruct (zip_with _ _ _).
Qed.

(** C9: greedy decoding ([do_sample = False]) is deterministic: the
    yielded sequences and the way the run ends do not depend on the
    state of the random generator, so two runs on the same context
    agree. *)
Theorem greedy_decoding_deterministic (fuel : nat) (input_ids : list (list Z))
    (kw : model_kwargs) (g1 g2 : rng) :
  stream_generate false eos_token_id fuel input_ids kw g1
  = stream_generate false eos_token_id fuel input_ids kw g2.
Proof.
  unfold stream_generate. generalize (replicate (length input_ids) 1).
  revert input_ids kw g1 g2.
  induction fuel as [|fuel IH]; intros input_ids kw g1 g2 unfinished; [done |].
  cbn [generate_loop].
  rewrite (generate_step_greedy input_ids kw unfinished g1 g2).
  destruct (generate_step false eos_token_id input_ids kw unfinished g1)
    as [[[[[ids kw'] unfinished'] g] stop]|e]; [|done].
  cbn [mbind result_bind]. destruct stop; [done |].
  by rewrite (IH ids kw' g g2 unfinished').
Qed.

End Greedy.

(** ** Prompt synchronisation *)

Lemma mapM_fmap_all {A B C} (f : B → option C) (g : A → B) (h : A → C) (l : list A) :
  (∀ x, f (g x) = Some (h x)) → mapM f (g <$> l) = Some (h <$> l).
Proof.
  intros Hf. apply mapM_Some_2, Forall2_fmap, Forall_Forall2_diag, Forall_forall.
  intros x _. apply Hf.
Qed.

Lemma mapM_cons_Some {B C} (f : B → option C) (x : B) (y : C) (l : list B) (k : list C) :
  f x = Some y → mapM f l = Some k → mapM f (x :: l) = Some (y :: k).
Proof.
  intros Hx Hl%mapM_Some_1. apply mapM_Some_2. by constructor.
Qed.

Section Group.
Context {R A : Type}.

Lemma omap_thrown_broadcast (buf : A → list Z) (k : A → list Z → proc R) (l : list A) :
  omap thrown ((λ r, Broadcast (buf r) (k r)) <$> l) = [].
Proof. induction l as [|x l IH]; [done |]. rewrite fmap_cons. exact IH. Qed.

(** All ranks have returned: the group is done. *)
Lemma run_group_done (fuel src : nat) (f : A → proc R) (ret : A → R) (r0 : R)
    (l : list A) (trace : list (list Z)) :
  (∀ r, f r = Return (ret r)) →
  run_group (S fuel) src (Return r0 :: (f <$> l)) trace = Done (r0 :: (ret <$> l)) trace.
Proof.
  intros Hf. cbn [run_group].
  rewrite (mapM_cons_Some returned _ r0 _ (ret <$> l)); [done | done |].
  apply mapM_fmap_all. intros r. by rewrite Hf.
Qed.

(** All ranks sit in a broadcast with buffers of the source's size:
    each goes on with what rank 0 sent. *)
Lemma run_group_round (fuel : nat) (b0 : list Z) (k0 : list Z → proc R)
    (f : A → proc R) (buf : A → list Z) (k : A → list Z → proc R)
    (l : list A) (trace : list (list Z)) (o : outcome R) :
  (∀ r, f r = Broadcast (buf r) (k r)) →
  (∀ r, length (buf r) = length b0) →
  run_group fuel 0 (k0 b0 :: ((λ r, k r b0) <$> l)) (trace ++ [b0]) = o →
  run_group (S fuel) 0 (Broadcast b0 k0 :: (f <$> l)) trace = o.
Proof.
  intros Hf Hlen <-.
  rewrite (list_fmap_ext f (λ r, Broadcast (buf r) (k r)) l) by (intros; apply Hf).
  cbn [run_group].
  rewrite (proj2 (mapM_None returned _)) by by left.
  change (omap thrown (Broadcast b0 k0 :: ?l)) with (omap thrown l).
  rewrite omap_thrown_broadcast.
  rewrite (mapM_cons_Some broadcasting _ (b0, k0) _ ((λ r, (buf r, k r)) <$> l));
    [| done | by apply mapM_fmap_all].
  cbn [fmap list_fmap lookup list_lookup fst].
  replace (forallb _ _) with true.
  - cbn [snd]. do 2 f_equal. by rewrite <- list_fmap_compose.
  - symmetry. cbn [forallb fst]. rewrite Nat.eqb_refl. cbn [andb].
    apply forallb_forall. intros b (r & <- & _)%in_map_iff. cbn [fst].
    apply Nat.eqb_eq, Hlen.
Qed.

End Group.

Section Synchronise.
Variable tokenizer : Tokenizer.
Variable args : Args.

(** C8: [read_context] broadcasts from rank 0 the termination flag,
    then the context length, then the context tokens, and afterwards
    every rank holds the flag, the length and the tokens of rank 0; when
    the flag is set, nothing but the flag is broadcast. *)
Theorem read_context_synchronises (world_size : nat) (lines : list string)
    (p : prompt) (written : list string) (fuel : nat) :
  (0 < world_size)%nat → (4 ≤ fuel)%nat →
  prompt_loop tokenizer args lines [] = Ok (p, written) →
  ∃ rets trace,
    read_context_group tokenizer args world_size lines fuel = Ok (Done rets trace) ∧
    length rets = world_size ∧
    match p with
    | Stop =>
        trace = [[1]] ∧
        Forall (λ r, terminate_runs r = 1 ∧ context_tokens_tensor r = None ∧
                     context_length r = None) rets
    | Prompt _ context_tokens =>
        trace = [[0]; [Z.of_nat (length context_tokens)]; context_tokens] ∧
        Forall (λ r, terminate_runs r = 0 ∧
                     context_tokens_tensor r = Some context_tokens ∧
                     context_length r = Some (Z.of_nat (length context_tokens))) rets
    end.
Proof.
  intros Hworld Hfuel Hprompt.
  destruct world_size as [|n]; [lia |].
  destruct fuel as [|[|[|[|fuel]]]]; try lia.
  unfold read_context_group.
  change (seq 0 (S n)) with (0%nat :: seq 1 n). rewrite <- fmap_S_seq.
  cbn [traverse].
  rewrite (traverse_ok _ (λ r, synchronise tokenizer r 0 None)).
  2:{ intros r (r' & -> & _)%list_elem_of_fmap. reflexivity. }
  rewrite <- list_fmap_compose.
  unfold read_context. cbn [Nat.eqb]. rewrite Hprompt.
  cbn [mbind result_bind].
  destruct p as [|raw_text context_tokens]; cbn [fst mbind result_bind fmap result_fmap].
  - eexists _, _. split.
    + f_equal. unfold synchronise.
      eapply run_group_round; [intros r; reflexivity | done |].
      cbn [item0 Z.eqb Pos.eqb].
      eapply run_group_done. intros r. reflexivity.
    + split; [by rewrite length_cons, length_fmap, length_seq |].
      split; [done |].
      constructor; [done |]. apply Forall_fmap, Forall_forall. by intros r _.
  - eexists _, _. split.
    + f_equal. unfold synchronise.
      eapply run_group_round; [intros r; reflexivity | done |].
      cbn [item0 Z.eqb Nat.eqb fmap option_fmap option_map snd].
      eapply run_group_round; [intros r; reflexivity | done |].
      cbn [item0 Nat.eqb fmap option_fmap option_map snd].
      eapply run_group_round; [intros r; reflexivity | |].
      { intros r. cbn. by rewrite length_replicate, Nat2Z.id. }
      eapply run_group_done. intros r. reflexivity.
    + split; [by rewrite length_cons, length_fmap, length_seq |].
      split; [done |].
      constructor; [done |]. apply Forall_fmap, Forall_forall. by intros r _.
Qed.

End Synchronise.

(** ** The properties on the test doubles *)

Lemma sample_loop_stops_witness :
  ¬ (1 < num_beams block_args) ∧
  st_tokens start_state = [[1]] ∧
  ∃ st', sample_loop block_args [[5; 7; 2]] 3 [2] None 4 start_state = Ok st' ∧
    ∃ generated,
      st_tokens st' = [[1] ++ generated] ∧
      Forall (λ t, t ∉ [2]) generated ∧
      st_counter st' = st_counter start_state + Z.of_nat (length generated) ∧
      (length generated = 4%nat ∨
       (length generated < 4)%nat ∧
       ∃ st_last logits new_mems prev,
         st_tokens st_last = [[1] ++ generated] ∧
         st_counter st_last = st_counter st' ∧
         forward block_args [[5; 7; 2]] 3 None st_last = Ok (logits, new_mems) ∧
         sample_token block_args (st_gen st_last) logits = Ok (prev, st_gen st') ∧
         prev ∈ [2] ∧ st_mems st' = Some new_mems).
Proof.
  split; [by vm_compute |]. split; [reflexivity |].
  eexists. split; [vm_compute; reflexivity |].
  apply (sample_loop_stops block_args [[5; 7; 2]] 3 [2] None 4 start_state [1]
           ltac:(by vm_compute) eq_refl).
  vm_compute. reflexivity.
Defined.

Lemma sample_sequence_end_token_first_witness :
  block_lm block_args = true ∧ ¬ (1 < num_beams block_args) ∧
  out_seq_length block_args = 4 ∧
  model [[get_command toy_tokenizer "sop"]]
        (if no_block_position block_args then Pos1 [[3 + 0]] else Pos2 [[[3]; [0 + 1]]])
        (MaskFlag [0]) [] = ([[[5; 0; 0]%Q]], [[()]]) ∧
  select_last [[[5; 0; 0]%Q]] = Ok [[5; 0; 0]%Q] ∧
  sample_token block_args ([] : list Q) [[5; 0; 0]%Q] = Ok (0, []) ∧
  sample_sequence toy_tokenizer block_args [[5; 7; 2]] 3 (Some []) (Some [0]) ([] : list Q)
  = Ok ([[5; 7; 2; get_command toy_tokenizer "sop"]], Some [[()]], []).
Proof.
  split; [reflexivity |]. split; [by vm_compute |]. split; [reflexivity |].
  split; [reflexivity |]. split; [reflexivity |].
  split; [vm_compute; reflexivity |].
  exact (sample_sequence_end_token_first toy_tokenizer block_args 3 [] ([] : list Q) []
           [[[5; 0; 0]%Q]] [[()]] [[5; 0; 0]%Q]
           eq_refl ltac:(by vm_compute) eq_refl eq_refl eq_refl
           ltac:(vm_compute; reflexivity)).
Defined.

(** C4 (as stated) fails: with the start-of-piece token 1 the block-mode
    result is [5, 7, 2, 1], in which the end token 0 does not occur, and
    in causal mode the call raises [NotImplementedError]. *)
Lemma sample_sequence_end_token_counterexample :
  sample_sequence toy_tokenizer block_args [[5; 7; 2]] 3 None (Some [0]) ([] : list Q)
  = Ok ([[5; 7; 2; 1]], Some [[()]], []) ∧
  [[5; 7; 2; 1]] ≠ [[5; 7; 2; 0]] ∧
  sample_sequence toy_tokenizer causal_args [[5; 7; 2]] 3 None (Some [0]) ([] : list Q)
  = Raise NotImplementedError.
Proof.
  split; [vm_compute; reflexivity |]. split; [done |]. vm_compute. reflexivity.
Qed.

Lemma sample_sequence_keeps_context_witness :
  sample_sequence toy_tokenizer block_args [[5; 7; 2]] 3 None (Some [2]) ([] : list Q)
  = Ok ([[5; 7; 2; 1; 0; 0; 0; 0]], Some [[()]], []) ∧
  ∃ tokens,
    length tokens = length [[5; 7; 2]] ∧
    [[5; 7; 2; 1; 0; 0; 0; 0]] = zip_with app [[5; 7; 2]] tokens ∧
    Forall2 (λ c o, take (length c) o = c) [[5; 7; 2]] [[5; 7; 2; 1; 0; 0; 0; 0]].
Proof.
  assert (Hrun : sample_sequence toy_tokenizer block_args [[5; 7; 2]] 3 None (Some [2])
                   ([] : list Q)
                 = Ok ([[5; 7; 2; 1; 0; 0; 0; 0]], Some [[()]], []))
    by (vm_compute; reflexivity).
  split; [exact Hrun |].
  exact (sample_sequence_keeps_context toy_tokenizer block_args [[5; 7; 2]] 3 None
           (Some [2]) ([] : list Q) _ _ _ Hrun).
Defined.

Lemma block_mode_without_mask_witness :
  block_lm block_args = true ∧
  prompt_loop toy_tokenizer block_args ["hi"%string] []
  = Ok (Prompt "hi [MASK]" [3; 204; 205; 132; 191; 177; 165; 183; 175; 193],
        ["hi [MASK]"%string]) ∧
  generate toy_tokenizer block_args [3; 110; 6] 3 ([] : list Q) = Ok ([3; 110; 6], []).
Proof.
  split; [reflexivity |].
  destruct (block_mode_without_mask toy_tokenizer block_args eq_refl) as [Hprompt Hgen].
  split.
  - apply (Hprompt "hi"%string [] []); [done | done | reflexivity | reflexivity].
  - apply Hgen. intros name ->%list_elem_of_singleton.
    change (4 ∉ [3; 110; 6]). rewrite !not_elem_of_cons.
    repeat split; [done.. | apply not_elem_of_nil].
Defined.

(** C6 (as stated) fails: with [task_mask] off, the context
    [ENC, 110, gMASK] holds no MASK id, and generation returns it without
    raising. *)
Lemma block_mode_without_mask_counterexample :
  block_lm block_args = true ∧
  (get_command toy_tokenizer "MASK" ∉ [3; 110; 6]) ∧
  generate toy_tokenizer block_args [3; 110; 6] 3 ([] : list Q) = Ok ([3; 110; 6], []).
Proof.
  split; [reflexivity |]. split; [|vm_compute; reflexivity].
  change (4 ∉ [3; 110; 6]). rewrite !not_elem_of_cons.
  repeat split; [done.. | apply not_elem_of_nil].
Qed.


Lemma read_context_synchronises_witness :
  (0 < 2)%nat ∧ (4 ≤ 4)%nat ∧
  prompt_loop toy_tokenizer block_args ["hi"%string] []
  = Ok (Prompt "hi [MASK]" [3; 204; 205; 132; 191; 177; 165; 183; 175; 193],
        ["hi [MASK]"%string]) ∧
  ∃ rets trace,
    read_context_group toy_tokenizer block_args 2 ["hi"%string] 4 = Ok (Done rets trace) ∧
    length rets = 2%nat ∧
    trace = [[0]; [10]; [3; 204; 205; 132; 191; 177; 165; 183; 175; 193]] ∧
    Forall (λ r, terminate_runs r = 0 ∧
                 context_tokens_tensor r
                 = Some [3; 204; 205; 132; 191; 177; 165; 183; 175; 193] ∧
                 context_length r = Some 10) rets.
Proof.
  split; [lia |]. split; [lia |]. split; [vm_compute; reflexivity |].
  exact (read_context_synchronises toy_tokenizer block_args 2 ["hi"%string]
           (Prompt "hi [MASK]" [3; 204; 205; 132; 191; 177; 165; 183; 175; 193])
           ["hi [MASK]"%string] 4 ltac:(lia) ltac:(lia) ltac:(vm_compute; reflexivity)).
Defined.

(** * Further properties *)

(** ** The logits filter *)

Lemma masked_from_refl row : masked_from row row.
Proof. split; [done |]. intros i x Hx. by right. Qed.

Lemma masked_from_trans a b c : masked_from a b → masked_from b c → masked_from a c.
Proof.
  intros [Hab Hab'] [Hbc Hbc']. split; [congruence |].
  intros i x Hx. destruct (Hbc' i x Hx) as [->|Hb]; [by left | by apply Hab'].
Qed.

Section FilterShape.
Context `{Exp}.

Lemma top_k_row_masked (top_k : Z) (row out : list logit) :
  top_k_row top_k row = Ok out → masked_from row out.
Proof.
  unfold top_k_row. destruct (topk row (Z.to_nat top_k)) as [[values idx]|e]; [|done].
  cbn [mbind result_bind]. destruct (last values) as [kth|]; [|done].
  intros [= <-]. split; [by rewrite length_fmap |].
  intros i x. rewrite list_lookup_fmap. destruct (row !! i) as [y|]; [|done].
  cbn [fmap option_fmap option_map]. intros [= <-].
  destruct (logit_ltb y kth); [by left | by right].
Qed.

Lemma top_p_row_masked (top_p : Q) (row out : list logit) :
  top_p_row top_p row = Ok out → masked_from row out.
Proof.
  unfold top_p_row.
  destruct (match softmax _ with Some _ => _ | None => _ end) as [|a above]; [done |].
  intros [= <-]. split; [by rewrite mask_indices_length |].
  intros i x. rewrite mask_indices_lookup. destruct (row !! i) as [y|]; [|done].
  cbn [fmap option_fmap option_map]. intros [= <-].
  case_decide; [by left | by right].
Qed.

(** X1: whatever [top_k] and [top_p], a filtered tensor has the shape of
    its input, and each of its entries is the input entry at that place
    or minus infinity: the filter only masks. *)
Theorem top_k_logits_only_masks (logits out : list (list logit)) (top_k : Z) (top_p : Q) :
  top_k_logits logits top_k top_p = Ok out → Forall2 masked_from logits out.
Proof.
  unfold top_k_logits.
  destruct (if decide (0 < top_k) then _ else _) as [mid|e] eqn:Hmid; [|done].
  cbn [mbind result_bind].
  assert (Hfirst : Forall2 masked_from logits mid).
  { case_decide.
    - apply traverse_Forall2 in Hmid. eapply Forall2_impl; [exact Hmid |].
      intros row row'. apply top_k_row_masked.
    - injection Hmid as <-. apply Forall_Forall2_diag, Forall_forall.
      intros row _. apply masked_from_refl. }
  destruct (Qltb 0 top_p); [|by intros [= <-]].
  destruct mid as [|row [|? ?]]; try done.
  destruct (top_p_row top_p row) as [row'|e] eqn:Hrow; [|done].
  cbn [mbind result_bind]. intros [= <-].
  apply Forall2_length in Hfirst as Hlen.
  destruct logits as [|row0 [|? ?]]; try done.
  apply Forall2_cons_1 in Hfirst as [Hfirst _].
  constructor; [|constructor].
  eapply masked_from_trans; [exact Hfirst |]. exact (top_p_row_masked _ _ _ Hrow).
Qed.

End FilterShape.

Lemma top_k_logits_only_masks_witness :
  top_k_logits [[Fin 0; Fin 2; Fin 1]] 0 (1 # 2) = Ok [[NegInf; Fin 2; NegInf]] ∧
  Forall2 masked_from [[Fin 0; Fin 2; Fin 1]] [[NegInf; Fin 2; NegInf]].
Proof.
  assert (Hrun : top_k_logits [[Fin 0; Fin 2; Fin 1]] 0 (1 # 2)
                 = Ok [[NegInf; Fin 2; NegInf]]) by (vm_compute; reflexivity).
  split; [exact Hrun |].
  exact (top_k_logits_only_masks _ _ _ _ Hrun).
Defined.

Lemma unfiltered_exists (row : list logit) :
  Exists (λ x, is_filtered x = false) row → (1 ≤ unfiltered row)%nat.
Proof.
  unfold unfiltered. induction 1 as [x row Hx|x row _ IH].
  - rewrite filter_cons_True by done. simpl. lia.
  - rewrite filter_cons. destruct (decide _); simpl; lia.
Qed.

Section FilterSupport.
Context `{Exp}.

(** The probabilities of a finite non-empty row, in descending order. *)
Lemma softmax_sorted_finite (row : list Q) :
  row ≠ [] →
  ∃ probs,
    softmax (sort_desc (indexed (Fin <$> row))).*1 = Some probs ∧
    length probs = length row ∧
    Forall (λ x, 0 <= x)%Q probs ∧ (Qsum probs == 1)%Q.
Proof.
  intros Hne. set (s := sort_desc (indexed (Fin <$> row))).
  assert (Hlen : length s = length row).
  { unfold s. by rewrite sort_desc_length, indexed_length, length_fmap. }
  assert (Hfin : Forall (λ x, is_filtered x = false) s.*1).
  { apply Forall_lookup. intros k x Hk.
    apply list_lookup_fmap_Some in Hk as ([x' i] & -> & Hk).
    by destruct (sort_fin_lookup row k x' i Hk) as (y & -> & _). }
  assert (Ht : (0 < Qsum (weight <$> s.*1))%Q).
  { apply Qsum_weight_pos; [|done]. intros Hnil.
    apply (f_equal length) in Hnil. rewrite length_fmap, Hlen in Hnil.
    destruct row; [done | simpl in Hnil; lia]. }
  eexists. split; [by apply softmax_positive |].
  split; [by rewrite !length_fmap |].
  split; [|by apply scaled_total].
  apply scaled_nonneg; [done |]. apply Forall_fmap, Forall_forall.
  intros x _. apply weight_nonneg.
Qed.

(** X2: in exact arithmetic a [top_p] of one or more, with no [top_k],
    filters nothing: the cumulative probability never exceeds it. *)
Theorem top_p_one_keeps_all (row : list Q) (top_k : Z) (top_p : Q) :
  row ≠ [] → top_k ≤ 0 → (1 <= top_p)%Q →
  top_k_logits [Fin <$> row] top_k top_p = Ok [Fin <$> row].
Proof.
  intros Hne Hk Hp.
  destruct (softmax_sorted_finite row Hne) as (probs & Hsm & Hlen & Hnn & Htot).
  unfold top_k_logits. rewrite decide_False by lia. cbn [mbind result_bind].
  rewrite (proj2 (Qltb_lt 0 top_p)) by lra.
  rewrite (top_p_row_positive _ _ probs Hsm).
  2:{ intros ->. destruct row; [done | simpl in Hlen; lia]. }
  rewrite filter_none; [done |].
  apply Forall_lookup. intros k [b i] Hzip.
  apply lookup_zip_Some in Hzip as [Hmask Hidx]. simpl in *.
  assert (Hkn : (k < length probs)%nat).
  { apply lookup_lt_Some in Hidx.
    by rewrite length_fmap, sort_desc_length, indexed_length, length_fmap, <- Hlen in Hidx. }
  rewrite nucleus_mask_lookup in Hmask by (lra || done).
  injection Hmask as <-. apply not_true_iff_false, Qltb_ge.
  pose proof (Qsum_take_mono probs k (length probs) Hnn ltac:(lia)) as Hmono.
  rewrite firstn_all in Hmono. lra.
Qed.

(** X3: a finite non-empty row never loses all its entries, for any
    [top_p] and any [top_k] up to the vocabulary size: what is left
    normalises to a probability distribution, so that the draw that
    follows is well defined. *)
Theorem top_k_logits_leaves_distribution (row : list Q) (top_k : Z) (top_p : Q) :
  row ≠ [] → top_k ≤ Z.of_nat (length row) →
  ∃ out probs,
    top_k_logits [Fin <$> row] top_k top_p = Ok [out] ∧
    (1 ≤ unfiltered out)%nat ∧
    softmax out = Some probs ∧ probs ≠ [] ∧
    Forall (λ p, 0 <= p)%Q probs ∧ (Qsum probs == 1)%Q.
Proof.
  intros Hne Hk.
  assert (Hex : Exists (λ x, is_filtered x = false) (Fin <$> row)).
  { destruct row as [|x row]; [done |]. by left. }
  destruct (top_k_logits_keeps_one (Fin <$> row) top_k top_p Hex) as (out & Hout & Hex').
  { by rewrite length_fmap. }
  pose proof (Qsum_weight_pos_exists out Hex') as Ht.
  exists out. eexists. split; [done |].
  split; [by apply unfiltered_exists |].
  split; [by apply softmax_positive |].
  split; [by destruct Hex' |].
  split; [|by apply scaled_total].
  apply scaled_nonneg; [done |]. apply Forall_fmap, Forall_forall.
  intros x _. apply weight_nonneg.
Qed.

End FilterSupport.

Lemma top_p_one_keeps_all_witness :
  [0; 2; 1]%Q ≠ [] ∧ 0 ≤ 0 ∧ (1 <= 1)%Q ∧
  top_k_logits [Fin <$> [0; 2; 1]%Q] 0 1 = Ok [Fin <$> [0; 2; 1]%Q].
Proof.
  split; [done |]. split; [lia |]. split; [by vm_compute |].
  exact (top_p_one_keeps_all [0; 2; 1]%Q 0 1 ltac:(done) ltac:(lia) ltac:(by vm_compute)).
Defined.

Lemma top_k_logits_leaves_distribution_witness :
  [0; 2; 1]%Q ≠ [] ∧ 2 ≤ Z.of_nat (length [0; 2; 1]%Q) ∧
  ∃ out probs,
    top_k_logits [Fin <$> [0; 2; 1]%Q] 2 (1 # 10) = Ok [out] ∧
    (1 ≤ unfiltered out)%nat ∧
    softmax out = Some probs ∧ probs ≠ [] ∧
    Forall (λ p, 0 <= p)%Q probs ∧ (Qsum probs == 1)%Q.
Proof.
  split; [done |]. split; [by vm_compute |].
  exact (top_k_logits_leaves_distribution [0; 2; 1]%Q 2 (1 # 10)
           ltac:(done) ltac:(by vm_compute)).
Defined.

Lemma length_filter_mono {A} (P Q : A → Prop) `{∀ x, Decision (P x)} `{∀ x, Decision (Q x)}
    (l : list A) :
  (∀ x, P x → Q x) → (length (filter P l) ≤ length (filter Q l))%nat.
Proof.
  intros HPQ. induction l as [|x l IH]; [done |].
  rewrite !filter_cons. destruct (decide (P x)) as [HP|HP].
  - rewrite decide_True by auto. simpl. lia.
  - destruct (decide (Q x)); simpl; lia.
Qed.

Lemma traverse_fixed {A} (f : A → result A) (xs ys : list A) :
  (∀ x y, f x = Ok y → f y = Ok y) → traverse f xs = Ok ys → traverse f ys = Ok ys.
Proof.
  intros Hf Hxs%traverse_Forall2. induction Hxs as [|x y xs ys Hx _ IH]; [done |].
  cbn [traverse]. rewrite (Hf x y Hx). cbn [mbind result_bind]. by rewrite IH.
Qed.

(** The threshold of the top-k filter is the entry of rank [k] in the
    descending order. *)
Lemma top_k_row_threshold (row : list logit) (k : nat) :
  (k < length row)%nat →
  ∃ kth i,
    sort_desc (indexed row) !! k = Some (kth, i) ∧
    top_k_row (Z.of_nat (S k)) row
    = Ok ((λ x, if logit_ltb x kth then NegInf else x) <$> row).
Proof.
  intros Hk. unfold top_k_row, topk. rewrite Nat2Z.id.
  rewrite decide_True by lia. cbn [mbind result_bind].
  rewrite fmap_take, last_take
    by (rewrite length_fmap, sort_desc_length, indexed_length; lia).
  rewrite list_lookup_fmap.
  destruct (sort_desc (indexed row) !! k) as [[kth i]|] eqn:Hs.
  - exists kth, i. by split.
  - apply lookup_ge_None in Hs. rewrite sort_desc_length, indexed_length in Hs. lia.
Qed.

Lemma top_k_row_fixed (top_k : Z) (row out : list logit) :
  top_k_row top_k row = Ok out → top_k_row top_k out = Ok out.
Proof.
  intros Hout.
  assert (Hk : ∃ k, top_k = Z.of_nat (S k) ∧ (k < length row)%nat).
  { unfold top_k_row, topk in Hout. case_decide as Hle; [|done].
    cbn [mbind result_bind] in Hout.
    destruct (Z.to_nat top_k) as [|k] eqn:Hk.
    - by rewrite take_0 in Hout.
    - exists k. split; lia. }
  destruct Hk as (k & -> & Hk).
  destruct (top_k_row_threshold row k Hk) as (kth & i & Hs & Hrow).
  rewrite Hrow in Hout. injection Hout as <-.
  set (f := λ x, if logit_ltb x kth then NegInf else x).
  destruct (top_k_row_threshold (f <$> row) k) as (kth' & i' & Hs' & Hrow').
  { by rewrite length_fmap. }
  rewrite Hrow'. f_equal. rewrite <- list_fmap_compose.
  apply list_fmap_ext. intros _ x _. unfold compose.
  assert (Hle : logit_leb kth' kth = true).
  { destruct (logit_leb kth' kth) eqn:Hlt; [done |]. exfalso.
    destruct (sorted_rank _ k (kth', i') (sort_desc_sorted _) Hs') as (Hmany & _ & _).
    destruct (sorted_rank _ k (kth, i) (sort_desc_sorted _) Hs) as (_ & Hfew & _).
    simpl in Hmany, Hfew.
    assert (Hmany' : (S k ≤ length (filter (λ y, logit_ltb (f y) kth' = false) row))%nat).
    { eapply Nat.le_trans; [exact Hmany |]. apply Nat.eq_le_incl.
      etrans; [symmetry; exact (count_sorted (λ y, logit_ltb y kth' = false) (f <$> row)) |].
      exact (length_filter_fmap f (λ y, logit_ltb y kth' = false) row). }
    assert (Hfew' : (length (filter (λ y, logit_ltb kth y = true) row) ≤ k)%nat).
    { eapply Nat.le_trans; [|exact Hfew]. apply Nat.eq_le_incl.
      exact (count_sorted (λ y, logit_ltb kth y = true) row). }
    pose proof (length_filter_mono (λ y, logit_ltb (f y) kth' = false)
                  (λ y, logit_ltb kth y = true) row) as Hmono.
    enough (∀ y, logit_ltb (f y) kth' = false → logit_ltb kth y = true)
      by (specialize (Hmono ltac:(done)); lia).
    intros y. unfold f, logit_ltb.
    rewrite negb_false_iff, negb_true_iff.
    destruct (logit_leb kth y) eqn:Hy; simpl.
    - intros Hy'. destruct (logit_leb y kth) eqn:Hyk; [|done].
      by rewrite (logit_leb_trans kth' y kth Hy' Hyk) in Hlt.
    - intros Hinf. by destruct kth'. }
  unfold f. destruct (logit_ltb x kth) eqn:Hx; simpl.
  - by destruct (logit_ltb NegInf kth').
  - unfold logit_ltb in *. apply negb_false_iff in Hx.
    by rewrite (logit_leb_trans kth' kth x Hle Hx).
Qed.

Section FilterTwice.
Context `{Exp}.

(** X4: without [top_p], filtering a filtered tensor again with the same
    [top_k] changes nothing. *)
Theorem top_k_logits_idempotent (logits out : list (list logit)) (top_k : Z) (top_p : Q) :
  (top_p <= 0)%Q →
  top_k_logits logits top_k top_p = Ok out →
  top_k_logits out top_k top_p = Ok out.
Proof.
  intros Hp. unfold top_k_logits.
  rewrite (proj2 (Qltb_ge 0 top_p) Hp).
  case_decide.
  - destruct (traverse _ logits) as [mid|e] eqn:Hmid; [|done].
    cbn [mbind result_bind]. intros [= <-].
    rewrite (traverse_fixed _ logits mid); [done | | done].
    intros x y. apply top_k_row_fixed.
  - cbn [mbind result_bind]. by intros [= <-].
Qed.

End FilterTwice.

Lemma top_k_logits_idempotent_witness :
  (0 <= 0)%Q ∧
  top_k_logits [[Fin 3; Fin 1; Fin 2; Fin 2]] 2 0 = Ok [[Fin 3; NegInf; Fin 2; Fin 2]] ∧
  top_k_logits [[Fin 3; NegInf; Fin 2; Fin 2]] 2 0 = Ok [[Fin 3; NegInf; Fin 2; Fin 2]].
Proof.
  assert (Hrun : top_k_logits [[Fin 3; Fin 1; Fin 2; Fin 2]] 2 0
                 = Ok [[Fin 3; NegInf; Fin 2; Fin 2]]) by (vm_compute; reflexivity).
  split; [by vm_compute |]. split; [exact Hrun |].
  exact (top_k_logits_idempotent _ _ 2 0 ltac:(by vm_compute) Hrun).
Defined.

(** ** [sample_sequence] and [generate_samples] *)

Section SequenceShape.
Context `{Exp} `{BeamBackend}.
Variable tokenizer : Tokenizer.
Variable args : Args.

(** What the loop without beams adds to its single row. *)
Lemma sample_loop_generated (context_tokens : list (list Z)) (context_length : Z)
    (end_tokens : list Z) (first_inputs : option (PositionIds * AttentionMask))
    (n : nat) (st st' : loop_state) (row : list Z) :
  ¬ (1 < num_beams args) → st_tokens st = [row] → is_Some (st_mems st) →
  sample_loop args context_tokens context_length end_tokens first_inputs n st = Ok st' →
  ∃ generated,
    st_tokens st' = [row ++ generated] ∧ (length generated ≤ n)%nat ∧
    Forall (λ t, t ∉ end_tokens) generated ∧ is_Some (st_mems st').
Proof.
  intros Hbeams. revert st row.
  induction n as [|n IH]; intros st row Hrow Hmems Hloop.
  - injection Hloop as <-. exists []. rewrite app_nil_r. by repeat split.
  - rewrite sample_loop_S in Hloop.
    destruct (loop_body _ _ _ _ _ st) as [[stop st1]|e] eqn:Hbody; [|done].
    cbn [mbind result_bind] in Hloop.
    destruct (loop_body_single _ _ _ _ _ st st1 stop Hbeams Hbody)
      as (logits & new_mems & prev & _ & _ & Hmems1 & _ & Hstop).
    destruct stop.
    + injection Hloop as <-. destruct Hstop as [_ Htok].
      exists []. rewrite app_nil_r. rewrite Hmems1.
      split; [congruence |]. split; [simpl; lia |]. by split.
    + destruct Hstop as [Hend Hcat]. rewrite Hrow in Hcat. injection Hcat as Htok.
      destruct (IH (increment st1) (row ++ [prev])) as (generated & Ht & Hlen & Hall & Hm);
        [exact (eq_sym Htok) | cbn [increment st_mems]; by rewrite Hmems1 | done |].
      exists (prev :: generated). rewrite <- app_assoc in Ht.
      split; [done |]. split; [simpl; lia |]. split; [by constructor | done].
Qed.

Lemma sample_sequence_single (row : list Z) (context_length : Z)
    (mems : option (list (list mem))) (end_tokens : option (list Z))
    (g : rng) out mems' g' :
  block_lm args = true → ¬ (1 < num_beams args) →
  sample_sequence tokenizer args [row] context_length mems end_tokens g
  = Ok (out, mems', g') →
  ∃ generated,
    out = [row ++ get_command tokenizer "sop" :: generated] ∧
    (length generated ≤ Z.to_nat (out_seq_length args))%nat ∧
    Forall (λ t, t ∉ default [eod_token args] end_tokens) generated ∧
    is_Some mems'.
Proof.
  intros Hblock Hbeams. unfold sample_sequence. rewrite Hblock.
  cbn [negb mbind result_bind]. rewrite decide_False by done. cbn [mbind result_bind].
  destruct (sample_loop _ _ _ _ _ _ _) as [st'|e] eqn:Hloop; [|done].
  cbn [mbind result_bind]. rewrite decide_False by done. cbn [mbind result_bind].
  apply sample_loop_generated with (row := [get_command tokenizer "sop"]) in Hloop
    as (generated & Htok & Hlen & Hall & Hmems); [|done|done|by eexists].
  rewrite Htok. unfold cat_dim1. rewrite decide_True by done.
  cbn [mbind result_bind zip_with]. intros [= <- <- <-].
  exists generated. split; [done |]. split; [done |]. split; [|done].
  by destruct end_tokens.
Qed.

(** X5: causal mode is not implemented: with [block_lm] off,
    [sample_sequence] fails in [get_batch], and with it a whole round of
    [generate_samples], whatever the prompt. *)
Theorem causal_mode_not_implemented (context_tokens_tensor : list Z) (context_length : Z)
    (g : rng) :
  block_lm args = false →
  generate tokenizer args context_tokens_tensor context_length g
  = Raise NotImplementedError.
Proof.
  intros Hblock. unfold generate, sample_sequence, get_batch. by rewrite Hblock.
Qed.

(** X6: beam search cannot start.  In block mode with [num_beams > 1]
    every call of [sample_sequence] fails with a [NameError] at line 144,
    where [BeamSearchScorer] is unbound, whatever [out_seq_length] and
    the other settings are: no iteration of the loop runs. *)
Theorem beam_search_scorer_unbound (context_tokens : list (list Z)) (context_length : Z)
    (mems : option (list (list mem))) (end_tokens : option (list Z)) (g : rng) :
  block_lm args = true → 1 < num_beams args →
  sample_sequence tokenizer args context_tokens context_length mems end_tokens g
  = Raise NameError.
Proof.
  intros Hblock Hbeams. unfold sample_sequence. rewrite Hblock.
  cbn [negb mbind result_bind]. by rewrite decide_True by done.
Qed.

(** X7: in block mode without beams, a returned sequence is the context,
    the start-of-piece token, and at most [out_seq_length] generated
    tokens none of which is an end token. *)
Theorem sample_sequence_bounded (row : list Z) (context_length : Z)
    (mems : option (list (list mem))) (end_tokens : option (list Z))
    (g : rng) out mems' g' :
  block_lm args = true → ¬ (1 < num_beams args) →
  sample_sequence tokenizer args [row] context_length mems end_tokens g
  = Ok (out, mems', g') →
  ∃ generated,
    out = [row ++ get_command tokenizer "sop" :: generated] ∧
    (length generated ≤ Z.to_nat (out_seq_length args))%nat ∧
    Forall (λ t, t ∉ default [eod_token args] end_tokens) generated.
Proof.
  intros Hblock Hbeams Hrun.
  destruct (sample_sequence_single _ _ _ _ _ _ _ _ Hblock Hbeams Hrun)
    as (generated & ? & ? & ? & _).
  by exists generated.
Qed.

End SequenceShape.

Lemma causal_mode_not_implemented_witness :
  block_lm causal_args = false ∧
  generate toy_tokenizer causal_args [5; 7; 2] 3 ([] : list Q) = Raise NotImplementedError.
Proof.
  split; [reflexivity |].
  exact (causal_mode_not_implemented toy_tokenizer causal_args [5; 7; 2] 3 ([] : list Q)
           eq_refl).
Defined.

Lemma beam_search_scorer_unbound_witness :
  block_lm idle_beam_args = true ∧ 1 < num_beams idle_beam_args ∧
  sample_sequence toy_tokenizer idle_beam_args [[5; 7; 2]] 3 None None ([] : list Q)
  = Raise NameError.
Proof.
  split; [reflexivity |]. split; [reflexivity |].
  exact (beam_search_scorer_unbound toy_tokenizer idle_beam_args [[5; 7; 2]] 3 None None
           ([] : list Q) eq_refl eq_refl).
Defined.

Lemma sample_sequence_bounded_witness :
  block_lm block_args = true ∧ ¬ (1 < num_beams block_args) ∧
  sample_sequence toy_tokenizer block_args [[5; 7; 2]] 3 None (Some [2]) ([] : list Q)
  = Ok ([[5; 7; 2; 1; 0; 0; 0; 0]], Some [[()]], []) ∧
  ∃ generated,
    [[5; 7; 2; 1; 0; 0; 0; 0]] = [[5; 7; 2] ++ get_command toy_tokenizer "sop" :: generated] ∧
    (length generated ≤ Z.to_nat (out_seq_length block_args))%nat ∧
    Forall (λ t, t ∉ default [eod_token block_args] (Some [2])) generated.
Proof.
  assert (Hrun : sample_sequence toy_tokenizer block_args [[5; 7; 2]] 3 None (Some [2])
                   ([] : list Q)
                 = Ok ([[5; 7; 2; 1; 0; 0; 0; 0]], Some [[()]], []))
    by (vm_compute; reflexivity).
  split; [reflexivity |]. split; [by vm_compute |]. split; [exact Hrun |].
  exact (sample_sequence_bounded toy_tokenizer block_args [5; 7; 2] 3 None (Some [2])
           ([] : list Q) _ _ _ eq_refl ltac:(by vm_compute) Hrun).
Defined.

(** ** Mask positions *)

Lemma positions_of_elem (token : Z) (t : list Z) (i : nat) :
  i ∈ positions_of token t ↔ t !! i = Some token.
Proof.
  unfold positions_of. rewrite list_elem_of_fmap. split.
  - intros ([v j] & -> & [Hv Hin]%list_elem_of_filter). simpl in *. subst v.
    by apply indexed_elem in Hin.
  - intros Hi. exists (token, i). split; [done |].
    apply list_elem_of_filter. split; [done |]. by apply indexed_elem.
Qed.

(** X9: the queue of infill sites is sorted in ascending order and holds
    exactly the positions of the context where the id of one of the mask
    commands stands ([MASK] alone, or also [sMASK] and [gMASK] under
    [task_mask]). *)
Theorem mask_positions_sorted_exact (tokenizer : Tokenizer) (args : Args)
    (context_tokens_tensor : list Z) :
  StronglySorted le (mask_positions tokenizer args context_tokens_tensor) ∧
  ∀ i, i ∈ mask_positions tokenizer args context_tokens_tensor ↔
       ∃ name,
         name ∈ (if task_mask args then ["MASK"; "sMASK"; "gMASK"] else ["MASK"])%string ∧
         context_tokens_tensor !! i = Some (get_command tokenizer name).
Proof.
  unfold mask_positions. split; [apply StronglySorted_merge_sort; apply _ |].
  intros i. rewrite merge_sort_Permutation, list_elem_of_bind. split.
  - intros (token & Hi & (name & -> & Hname)%list_elem_of_fmap).
    exists name. split; [by destruct (task_mask args) |]. by apply positions_of_elem.
  - intros (name & Hname & Hi). exists (get_command tokenizer name).
    split; [by apply positions_of_elem |].
    apply list_elem_of_fmap. exists name. split; [done |]. by destruct (task_mask args).
Qed.

(** ** Infilling *)

Lemma foldM_spans {A B C : Type}
    (body : list (list Z) * A * C → B → result (list (list Z) * A * C))
    (P : list Z → Prop) (positions : list B) :
  (∀ row a c p res, body ([row], a, c) p = Ok res →
     ∃ span a' c', res = ([row ++ span], a', c') ∧ P span) →
  ∀ row a c tokens' a' c',
    foldM body ([row], a, c) positions = Ok (tokens', a', c') →
    ∃ spans,
      tokens' = [row ++ concat spans] ∧ length spans = length positions ∧ Forall P spans.
Proof.
  intros Hbody. induction positions as [|p positions IH]; intros row a c tokens' a' c'.
  - intros [= <- <- <-]. exists []. by rewrite app_nil_r.
  - cbn [foldM]. destruct (body ([row], a, c) p) as [res|e] eqn:Hstep; [|done].
    cbn [mbind result_bind].
    destruct (Hbody _ _ _ _ _ Hstep) as (span & a1 & c1 & -> & Hspan).
    intros (spans & -> & Hlen & Hall)%IH.
    exists (span :: spans). cbn [concat length]. rewrite <- app_assoc.
    split; [done |]. split; [by rewrite Hlen |]. by constructor.
Qed.

Section Infilling.
Context `{Exp} `{BeamBackend}.
Variable tokenizer : Tokenizer.
Variable args : Args.

(** X10: in block mode without beam search, [generate] returns the
    context followed by one generated span per mask position, all of
    them appended after the context in the order of the positions.  Each
    span is [sop] followed by at most [out_seq_length] tokens, none of
    which is [eop] or the end-of-document token. *)
Theorem generate_appends_spans (context_tokens_tensor : list Z) (context_length : Z)
    (g : rng) (out : list Z) (g' : rng) :
  block_lm args = true → ¬ (1 < num_beams args) →
  generate tokenizer args context_tokens_tensor context_length g = Ok (out, g') →
  ∃ spans,
    out = context_tokens_tensor ++ concat spans ∧
    length spans = length (mask_positions tokenizer args context_tokens_tensor) ∧
    Forall (λ span, ∃ generated,
              span = get_command tokenizer "sop" :: generated ∧
              (length generated ≤ Z.to_nat (out_seq_length args))%nat ∧
              Forall (λ t, t ≠ get_command tokenizer "eop" ∧ t ≠ eod_token args) generated)
           spans.
Proof.
  intros Hblock Hbeams. unfold generate, get_batch, mask_positions. rewrite Hblock.
  cbv zeta. cbn [mbind result_bind concat]. rewrite app_nil_r.
  set (positions := merge_sort le _).
  destruct (model _ _ _ _) as [logits mems0].
  destruct (foldM _ _ positions) as [[[tokens' mems'] g1]|e] eqn:Hfold; [|done].
  cbn [mbind result_bind]. intros [= <- <-].
  apply (foldM_spans _
           (λ span, ∃ generated,
              span = get_command tokenizer "sop" :: generated ∧
              (length generated ≤ Z.to_nat (out_seq_length args))%nat ∧
              Forall (λ t, t ≠ get_command tokenizer "eop" ∧ t ≠ eod_token args) generated))
    in Hfold as (spans & -> & Hlen & Hall).
  { exists spans. cbn [concat]. by rewrite app_nil_r. }
  intros row mems g0 p [[res mems1] g2]. cbn beta iota.
  assert (Hstep : ∀ position : result Z,
            (position ← position;
             sample_sequence tokenizer args [row] position mems
               (Some [get_command tokenizer "eop"; eod_token args]) g0)
            = Ok (res, mems1, g2) →
            ∃ span a' c', (res, mems1, g2) = ([row ++ span], a', c') ∧
              ∃ generated, span = get_command tokenizer "sop" :: generated ∧
                (length generated ≤ Z.to_nat (out_seq_length args))%nat ∧
                Forall (λ t, t ≠ get_command tokenizer "eop" ∧ t ≠ eod_token args)
                  generated); [|by apply Hstep].
  intros [position|e]; cbn [mbind result_bind]; [|done].
  intros Hrun.
  apply sample_sequence_single in Hrun as (generated & -> & Hlen & Hall & _); [|done..].
  exists (get_command tokenizer "sop" :: generated), mems1, g2.
  split; [done |]. exists generated. split; [done |]. split; [done |].
  eapply Forall_impl; [exact Hall |]. intros t Ht. cbn [from_option id] in Ht.
  rewrite !not_elem_of_cons in Ht. tauto.
Qed.

End Infilling.

Lemma generate_appends_spans_witness :
  block_lm block_args = true ∧ ¬ (1 < num_beams block_args) ∧
  generate toy_tokenizer block_args [3; 4; 7; 4] 4
    ([95 # 100; 1 # 2; 95 # 100; 95 # 100; 1 # 2]%Q : list Q)
  = Ok ([3; 4; 7; 4; 1; 1; 1; 1; 1], []) ∧
  ∃ spans,
    [3; 4; 7; 4; 1; 1; 1; 1; 1] = [3; 4; 7; 4] ++ concat spans ∧
    length spans = length (mask_positions toy_tokenizer block_args [3; 4; 7; 4]) ∧
    Forall (λ span, ∃ generated,
              span = get_command toy_tokenizer "sop" :: generated ∧
              (length generated ≤ Z.to_nat (out_seq_length block_args))%nat ∧
              Forall (λ t, t ≠ get_command toy_tokenizer "eop" ∧ t ≠ eod_token block_args)
                generated)
           spans.
Proof.
  assert (Hrun : generate toy_tokenizer block_args [3; 4; 7; 4] 4
                   ([95 # 100; 1 # 2; 95 # 100; 95 # 100; 1 # 2]%Q : list Q)
                 = Ok ([3; 4; 7; 4; 1; 1; 1; 1; 1], []))
    by (vm_compute; reflexivity).
  split; [reflexivity |]. split; [by vm_compute |]. split; [exact Hrun |].
  exact (generate_appends_spans toy_tokenizer block_args [3; 4; 7; 4] 4 _ _ _
           eq_refl ltac:(by vm_compute) Hrun).
Defined.

(** ** Reading the prompt *)

Lemma substring_append_skip (pre s : string) (k n : nat) :
  substring (String.length pre + k) n (pre ++ s) = substring k n s.
Proof. induction pre as [|c pre IH]; [done |]. exact IH. Qed.

Lemma contains_after (pat pre s : string) (k : nat) :
  pat ≠ ""%string → substring k (String.length pat) s = pat →
  contains pat (pre ++ s) = true.
Proof.
  intros Hpat Hsub. unfold contains.
  destruct (index 0 pat (pre ++ s)%string) eqn:Hidx; [done |].
  exfalso.
  pose proof (index_correct3 0 (String.length pre + k) pat _ Hidx Hpat (Nat.le_0_l _))
    as Hneq.
  by rewrite substring_append_skip in Hneq.
Qed.

Section Prompt.
Variable tokenizer : Tokenizer.
Variable args : Args.

(** X11: a prompt that [read_context] accepts on rank 0 is shorter than
    [max_sequence_length]; its tokens are the encoding of the text, in
    block mode between [ENC] and, unless the text ends in [MASK]], [eos];
    the text is the last thing written to the output; and in block mode
    the text always contains a mask. *)
Theorem prompt_loop_accepts (lines written : list string) (raw : string)
    (context_tokens : list Z) (written' : list string) :
  prompt_loop tokenizer args lines written = Ok (Prompt raw context_tokens, written') →
  Z.of_nat (length context_tokens) < max_sequence_length args ∧
  context_tokens
  = (if block_lm args
     then get_command tokenizer "ENC" :: EncodeAsIds tokenizer raw
            ++ (if endswith raw "MASK]" then [] else [get_command tokenizer "eos"])
     else EncodeAsIds tokenizer raw) ∧
  last written' = Some raw ∧
  (block_lm args = true → contains "MASK]" raw = true).
Proof.
  revert written. induction lines as [|typed lines IH]; intros written; [done |].
  cbn [prompt_loop]. destruct (String.eqb typed "") eqn:Hempty; [apply IH |].
  destruct (String.eqb typed "stop") eqn:Hstop; [done |].
  cbv zeta. set (text := if block_lm args && negb (contains "MASK]" typed) then _ else _).
  case_bool_decide as Hlong; [apply IH |].
  intros [= <- <- <-]. split; [exact (proj2 (Z.lt_nge _ _) Hlong) |]. split.
  { destruct (block_lm args); [|done]. destruct (endswith text "MASK]"); [|done].
    by rewrite app_nil_r. }
  split; [by rewrite last_snoc |].
  intros Hblock. subst text. rewrite Hblock. cbn [andb].
  destruct (contains "MASK]" typed) eqn:Hmask; [done |]. cbn [negb].
  destruct (task_mask args).
  - by apply (contains_after _ _ _ 3).
  - by apply (contains_after _ _ _ 2).
Qed.

(** X12: reading the prompt fails only when the input runs out, and
    never when a line [stop] is still to come. *)
Theorem prompt_loop_fails_at_end_of_input (lines written : list string) (e : exn) :
  prompt_loop tokenizer args lines written = Raise e →
  e = EOFError ∧ "stop"%string ∉ lines.
Proof.
  revert written. induction lines as [|typed lines IH]; intros written.
  - intros [= <-]. split; [done |]. apply not_elem_of_nil.
  - cbn [prompt_loop]. destruct (String.eqb typed "") eqn:Hempty.
    { intros [-> Hin]%IH. split; [done |]. apply not_elem_of_cons. split; [|done].
      intros <-. done. }
    destruct (String.eqb typed "stop") eqn:Hstop; [done |].
    cbv zeta. case_bool_decide; [|done].
    intros [-> Hin]%IH. split; [done |]. apply not_elem_of_cons. split; [|done].
    intros <-. done.
Qed.

End Prompt.

Lemma prompt_loop_accepts_witness :
  prompt_loop toy_tokenizer block_args [""; "hi"; "stop"]%string []
  = Ok (Prompt "hi [MASK]" [3; 204; 205; 132; 191; 177; 165; 183; 175; 193],
        ["hi [MASK]"%string]) ∧
  Z.of_nat (length [3; 204; 205; 132; 191; 177; 165; 183; 175; 193])
  < max_sequence_length block_args ∧
  [3; 204; 205; 132; 191; 177; 165; 183; 175; 193]
  = (if block_lm block_args
     then get_command toy_tokenizer "ENC" :: EncodeAsIds toy_tokenizer "hi [MASK]"
            ++ (if endswith "hi [MASK]" "MASK]" then []
                else [get_command toy_tokenizer "eos"])
     else EncodeAsIds toy_tokenizer "hi [MASK]") ∧
  last ["hi [MASK]"%string] = Some "hi [MASK]"%string ∧
  (block_lm block_args = true → contains "MASK]" "hi [MASK]" = true).
Proof.
  assert (Hrun : prompt_loop toy_tokenizer block_args [""; "hi"; "stop"]%string []
                 = Ok (Prompt "hi [MASK]" [3; 204; 205; 132; 191; 177; 165; 183; 175; 193],
                       ["hi [MASK]"%string]))
    by (vm_compute; reflexivity).
  split; [exact Hrun |].
  exact (prompt_loop_accepts toy_tokenizer block_args _ _ _ _ _ Hrun).
Defined.

Lemma prompt_loop_fails_at_end_of_input_witness :
  prompt_loop toy_tokenizer block_args [""]%string [] = Raise EOFError ∧
  EOFError = EOFError ∧ "stop"%string ∉ [""%string].
Proof.
  assert (Hrun : prompt_loop toy_tokenizer block_args [""]%string [] = Raise EOFError)
    by reflexivity.
  split; [exact Hrun |].
  exact (prompt_loop_fails_at_end_of_input toy_tokenizer block_args _ _ _ Hrun).
Defined.

(** ** The text every rank ends up with *)

Section RawText.
Variable tokenizer : Tokenizer.
Variable args : Args.

Lemma read_context_group_prompt (n : nat) (lines : list string) (raw : string)
    (context_tokens : list Z) (written : list string) (fuel : nat) :
  prompt_loop tokenizer args lines [] = Ok (Prompt raw context_tokens, written) →
  read_context_group tokenizer args (S n) lines (4 + fuel)
  = Ok (Done
          ({| terminate_runs := 0; raw_text := Some raw;
              context_tokens_tensor := Some context_tokens;
              context_length := Some (Z.of_nat (length context_tokens)) |}
           :: ((λ _ : nat,
                  {| terminate_runs := 0;
                     raw_text := Some (DecodeIds tokenizer context_tokens);
                     context_tokens_tensor := Some context_tokens;
                     context_length := Some (Z.of_nat (length context_tokens)) |})
               <$> seq 0 n))
          [[0]; [Z.of_nat (length context_tokens)]; context_tokens]).
Proof.
  intros Hprompt. unfold read_context_group.
  change (seq 0 (S n)) with (0%nat :: seq 1 n). rewrite <- fmap_S_seq.
  cbn [traverse].
  rewrite (traverse_ok _ (λ r, synchronise tokenizer r 0 None)).
  2:{ intros r (r' & -> & _)%list_elem_of_fmap. reflexivity. }
  rewrite <- list_fmap_compose.
  unfold read_context. cbn [Nat.eqb]. rewrite Hprompt.
  cbn [mbind result_bind fst fmap result_fmap plus].
  f_equal. unfold synchronise.
  eapply run_group_round; [intros r; reflexivity | done |].
  cbn [item0 Z.eqb Nat.eqb fmap option_fmap option_map snd].
  eapply run_group_round; [intros r; reflexivity | done |].
  cbn [item0 Nat.eqb fmap option_fmap option_map snd].
  eapply run_group_round; [intros r; reflexivity | |].
  { intros r. cbn. by rewrite length_replicate, Nat2Z.id. }
  eapply run_group_done. intros r. reflexivity.
Qed.

(** X13: after [read_context] the ranks agree on the tokens but not on
    the text: rank 0 keeps the text as it was typed (and completed with
    the mask), every other rank holds what the tokenizer decodes from
    the tokens. *)
Theorem read_context_raw_text (world_size : nat) (lines : list string) (raw : string)
    (context_tokens : list Z) (written : list string) (fuel : nat) :
  (0 < world_size)%nat → (4 ≤ fuel)%nat →
  prompt_loop tokenizer args lines [] = Ok (Prompt raw context_tokens, written) →
  ∃ rets trace,
    read_context_group tokenizer args world_size lines fuel = Ok (Done rets trace) ∧
    length rets = world_size ∧
    ∀ rank r, rets !! rank = Some r →
      raw_text r = Some (if (rank =? 0)%nat then raw
                         else DecodeIds tokenizer context_tokens).
Proof.
  intros Hworld Hfuel Hprompt.
  destruct world_size as [|n]; [lia |].
  replace fuel with (4 + (fuel - 4))%nat by lia.
  eexists _, _. split; [exact (read_context_group_prompt _ _ _ _ _ _ Hprompt) |].
  split; [by rewrite length_cons, length_fmap, length_seq |].
  intros [|rank] r.
  - by intros [= <-].
  - rewrite lookup_cons_ne_0 by done. cbn [Nat.pred Nat.eqb].
    rewrite list_lookup_fmap.
    destruct (seq 0 n !! rank); [|done]. by intros [= <-].
Qed.

End RawText.

Lemma read_context_raw_text_witness :
  (0 < 3)%nat ∧ (4 ≤ 4)%nat ∧
  prompt_loop toy_tokenizer block_args [""; "hi"; "stop"]%string []
  = Ok (Prompt "hi [MASK]" [3; 204; 205; 132; 191; 177; 165; 183; 175; 193],
        ["hi [MASK]"%string]) ∧
  ∃ rets trace,
    read_context_group toy_tokenizer block_args 3 [""; "hi"; "stop"]%string 4
    = Ok (Done rets trace) ∧
    length rets = 3%nat ∧
    ∀ rank r, rets !! rank = Some r →
      raw_text r
      = Some (if (rank =? 0)%nat then "hi [MASK]"%string
              else DecodeIds toy_tokenizer [3; 204; 205; 132; 191; 177; 165; 183; 175; 193]).
Proof.
  assert (Hrun : prompt_loop toy_tokenizer block_args [""; "hi"; "stop"]%string []
                 = Ok (Prompt "hi [MASK]" [3; 204; 205; 132; 191; 177; 165; 183; 175; 193],
                       ["hi [MASK]"%string]))
    by (vm_compute; reflexivity).
  split; [lia |]. split; [lia |]. split; [exact Hrun |].
  exact (read_context_raw_text toy_tokenizer block_args 3 _ _ _ _ 4
           ltac:(lia) ltac:(lia) Hrun).
Defined.

(** ** The generator of [stream_generate] *)

Lemma max_zero (us : list Z) : Forall (λ x, x = 0) us → foldr Z.max 0 us = 0.
Proof. induction 1 as [|x us -> _ IH]; [done |]. cbn [foldr]. by rewrite IH. Qed.

Lemma max_nonzero (u : Z) (us : list Z) :
  foldr Z.max u us ≠ 0 → ∃ x, x ∈ u :: us ∧ x ≠ 0.
Proof.
  intros Hmax. destruct (decide (Forall (λ x, x = 0) (u :: us))) as [Hall|Hsome].
  - exfalso. apply Hmax. inversion_clear Hall as [|? ? -> Hus]. by apply max_zero.
  - apply not_Forall_Exists in Hsome; [|apply _].
    apply Exists_exists in Hsome as (x & Hin & Hx). by exists x.
Qed.

Section Generator.
Context `{Exp} `{Sampler} `{Generation}.
Variable do_sample : bool.
Variable eos_token_id : list Z.

Lemma generate_step_inv (input_ids : list (list Z)) (kw : model_kwargs)
    (unfinished : list Z) (g : rng) ids' kw' unfinished' g' (stop : bool) :
  generate_step do_sample eos_token_id input_ids kw unfinished g
  = Ok (ids', kw', unfinished', g', stop) →
  ∃ next_tokens u us,
    length next_tokens = length input_ids ∧ length unfinished = length next_tokens ∧
    ids' = zip_with app input_ids ((λ t, [t]) <$> next_tokens) ∧
    unfinished'
    = zip_with (λ u t, wrap64 (u * not_eos_count eos_token_id t)) unfinished next_tokens ∧
    unfinished' = u :: us ∧
    stop = bool_decide (foldr Z.max u us = 0) || stopping_criteria ids'.
Proof.
  unfold generate_step.
  destruct (forward_pass input_ids kw) as [[logits kw1]|e]; [|done].
  cbn [mbind result_bind].
  destruct (if do_sample then _ else _) as [[next_tokens g1]|e]; [|done].
  cbn [mbind result_bind].
  destruct (cat_dim1 _ _) as [ids|e] eqn:Hcat; [|done]. cbn [mbind result_bind].
  apply cat_dim1_prefix in Hcat as (Hlen & -> & _). rewrite !length_fmap in Hlen.
  case_bool_decide; [done |]. case_bool_decide as Hunf; [done |].
  rewrite length_fmap in Hunf.
  destruct (zip_with _ unfinished _) as [|u us] eqn:Hzip; [done |].
  intros [= <- <- <- <- <-].
  exists (Z.of_nat <$> next_tokens), u, us. by rewrite length_fmap.
Qed.

(** What holds of the state at each [yield], given a property that
    every iteration keeps. *)
Lemma generate_loop_invariant (I : nat → list (list Z) → list Z → Prop) :
  (∀ n ids kw unfinished g ids' kw' unfinished' g' stop,
     I n ids unfinished →
     generate_step do_sample eos_token_id ids kw unfinished g
     = Ok (ids', kw', unfinished', g', stop) →
     I (S n) ids' unfinished') →
  ∀ fuel n ids kw unfinished g yielded e,
    I n ids unfinished →
    generate_loop do_sample eos_token_id fuel ids kw unfinished g = (yielded, e) →
    ∀ k ids_k, yielded !! k = Some ids_k →
      stopping_criteria ids_k = false ∧
      ∃ unfinished_k, I (S (n + k)) ids_k unfinished_k ∧ ∃ x, x ∈ unfinished_k ∧ x ≠ 0.
Proof.
  intros Hkeep. induction fuel as [|fuel IH]; intros n ids kw unfinished g yielded e Hinv.
  { intros [= <- <-] k ids_k. by rewrite lookup_nil. }
  cbn [generate_loop].
  destruct (generate_step _ _ ids kw unfinished g)
    as [[[[[ids' kw'] unfinished'] g'] stop]|err] eqn:Hstep.
  2:{ intros [= <- <-] k ids_k. by rewrite lookup_nil. }
  pose proof (Hkeep _ _ _ _ _ _ _ _ _ _ Hinv Hstep) as Hinv'.
  apply generate_step_inv in Hstep as (toks & u & us & _ & _ & _ & _ & Hunf & Hstop).
  destruct stop.
  { intros [= <- <-] k ids_k. by rewrite lookup_nil. }
  symmetry in Hstop. apply orb_false_iff in Hstop as [Hmax Hcrit].
  apply bool_decide_eq_false in Hmax. apply max_nonzero in Hmax. rewrite <- Hunf in Hmax.
  destruct (generate_loop _ _ fuel ids' kw' unfinished' g') as [rest e'] eqn:Hloop.
  intros [= <- <-] [|k] ids_k.
  - intros [= <-]. split; [done |]. exists unfinished'. by rewrite Nat.add_0_r.
  - rewrite lookup_cons_ne_0 by done. cbn [Nat.pred]. intros Hk.
    destruct (IH _ _ _ _ _ _ _ Hinv' Hloop k ids_k Hk) as (Hcrit' & unf_k & Hinv_k & Hx).
    split; [done |]. exists unf_k. by rewrite Nat.add_succ_r.
Qed.

(** X14: the k-th tensor that [stream_generate] yields consists of the
    rows of the input, each extended by exactly k+1 tokens (also the rows
    that have produced an end token before), and it does not meet the
    stopping criteria: the tensor on which the generator stops is never
    yielded. *)
Theorem stream_generate_yields (fuel : nat) (input_ids : list (list Z))
    (kw : model_kwargs) (g : rng) (k : nat) (ids_k : list (list Z)) :
  (stream_generate do_sample eos_token_id fuel input_ids kw g).1 !! k = Some ids_k →
  Forall2 (λ row row', ∃ new, row' = row ++ new ∧ length new = S k) input_ids ids_k ∧
  stopping_criteria ids_k = false.
Proof.
  unfold stream_generate.
  destruct (generate_loop _ _ _ _ _ _ _) as [yielded e] eqn:Hloop. cbn [fst]. intros Hk.
  pose proof (generate_loop_invariant
    (λ n ids _, Forall2 (λ row row', ∃ new, row' = row ++ new ∧ length new = n)
                  input_ids ids)) as Hinv.
  cbv beta in Hinv.
  destruct (Hinv) with (n := 0%nat) (3 := Hloop) (4 := Hk) as (Hcrit & _ & Hrows & _).
  - clear. intros n ids kw unfinished g ids' kw' unfinished' g' stop Hrows
      (toks & _ & _ & Hlen & _ & -> & _)%generate_step_inv.
    revert toks Hlen. induction Hrows as [|row0 row rows0 rows (new & -> & Hnew) _ IH];
      intros [|t toks] Hlen; simplify_eq/=; constructor.
    + exists (new ++ [t]). rewrite <- app_assoc, length_app. split; [done |]. simpl. lia.
    + by apply IH.
  - apply Forall_Forall2_diag, Forall_forall. intros row _. exists [].
    by rewrite app_nil_r.
  - done.
Qed.

End Generator.

Lemma wrap64_mod (z : Z) : wrap64 z mod 2 ^ 64 = z mod 2 ^ 64.
Proof.
  unfold wrap64. rewrite Zminus_mod_idemp_l. f_equal. lia.
Qed.

Lemma max_zero_elem (u : Z) (us : list Z) :
  foldr Z.max u us = 0 → ∃ x, x ∈ u :: us ∧ x = 0.
Proof.
  induction us as [|y us IH]; cbn [foldr].
  - intros ->. exists 0. split; [apply list_elem_of_here | done].
  - intros Hmax. destruct (Z.max_spec y (foldr Z.max u us)) as [[_ Heq]|[_ Heq]].
    + rewrite Heq in Hmax. destruct (IH Hmax) as (x & Hin & ->). exists 0. split; [|done].
      apply elem_of_cons in Hin as [<-|Hin]; [apply list_elem_of_here |].
      by do 2 apply list_elem_of_further.
    + rewrite Heq in Hmax. subst y. exists 0. split; [|done].
      apply list_elem_of_further, list_elem_of_here.
Qed.

Lemma not_eos_count_pair (a b t : Z) :
  a ≠ b → not_eos_count [a; b] t = 1 ∨ not_eos_count [a; b] t = 2.
Proof.
  intros Hab. unfold not_eos_count. cbn [foldr].
  do 2 case_bool_decide; [congruence | by left | by left | by right].
Qed.

Lemma power_of_two_nonzero (j : nat) : (j ≤ 63)%nat → 2 ^ Z.of_nat j mod 2 ^ 64 ≠ 0.
Proof.
  intros Hj. rewrite Z.mod_small; [lia |]. split; [lia |].
  apply Z.pow_lt_mono_r; lia.
Qed.

Section EndTokens.
Context `{Exp} `{Sampler} `{Generation}.
Variable do_sample : bool.

(** X15: with a single end token, every tensor that [stream_generate]
    yields has a row that is still unfinished: the k+1 tokens generated
    for it so far contain no end token. *)
Theorem stream_generate_yields_unfinished (eos : Z) (fuel : nat)
    (input_ids : list (list Z)) (kw : model_kwargs) (g : rng)
    (k : nat) (ids_k : list (list Z)) :
  (stream_generate do_sample [eos] fuel input_ids kw g).1 !! k = Some ids_k →
  ∃ i row new,
    input_ids !! i = Some row ∧ ids_k !! i = Some (row ++ new) ∧
    length new = S k ∧ eos ∉ new.
Proof.
  unfold stream_generate.
  destruct (generate_loop _ _ _ _ _ _ _) as [yielded e] eqn:Hloop. cbn [fst]. intros Hk.
  pose proof (generate_loop_invariant do_sample [eos]
    (λ n ids unfinished, ∀ i u, unfinished !! i = Some u → u ≠ 0 →
       ∃ row new, input_ids !! i = Some row ∧ ids !! i = Some (row ++ new) ∧
                  length new = n ∧ eos ∉ new)) as Hinv.
  cbv beta in Hinv.
  destruct (Hinv) with (n := 0%nat) (3 := Hloop) (4 := Hk)
    as (_ & unf_k & Hrows & x & Hx & Hx0).
  - clear. intros n ids kw unfinished g ids' kw' unfinished' g' stop Hrows
      (toks & _ & _ & _ & _ & -> & -> & _)%generate_step_inv.
    intros i u' (u & t & -> & Hu & Ht)%lookup_zip_with_Some Hne.
    assert (u ≠ 0 ∧ t ≠ eos) as [Hu0 Hteos].
    { split.
      - intros ->. by rewrite Z.mul_0_l in Hne.
      - intros ->. unfold not_eos_count in Hne. cbn [foldr] in Hne.
        rewrite bool_decide_eq_true_2, Z.mul_0_r in Hne by done. done. }
    destruct (Hrows i u Hu Hu0) as (row & new & Hrow & Hcur & Hlen & Hnew).
    exists row, (new ++ [t]). split; [done |]. split.
    + apply lookup_zip_with_Some. exists (row ++ new), [t].
      split; [by rewrite app_assoc |]. split; [done |].
      by rewrite list_lookup_fmap, Ht.
    + split; [rewrite length_app; simpl; lia |].
      rewrite elem_of_app, list_elem_of_singleton. by intros [Hin | ->].
  - intros i u [-> Hi]%lookup_replicate _.
    apply lookup_lt_is_Some in Hi as [row Hrow]. exists row, [].
    rewrite app_nil_r. repeat (split; [done |]). apply not_elem_of_nil.
  - apply list_elem_of_lookup in Hx as [i Hi].
    destruct (Hrows i x Hi Hx0) as (row & new & ?). by exists i, row, new.
Qed.

Lemma generate_loop_powers (a b : Z) (fuel : nat) :
  a ≠ b → (∀ ids, stopping_criteria ids = false) →
  ∀ (n : nat) (ids : list (list Z)) (kw : model_kwargs) (unfinished : list Z) (g : rng),
    (n + fuel ≤ 63)%nat →
    Forall (λ u, ∃ j : nat, (j ≤ n)%nat ∧ u mod 2 ^ 64 = 2 ^ Z.of_nat j mod 2 ^ 64)
      unfinished →
    (generate_loop do_sample [a; b] fuel ids kw unfinished g).2 ≠ Stopped.
Proof.
  intros Hab Hcrit. induction fuel as [|fuel IH]; intros n ids kw unfinished g Hn Hinv;
    [done |].
  cbn [generate_loop].
  destruct (generate_step _ _ ids kw unfinished g)
    as [[[[[ids' kw'] unfinished'] g'] stop]|err] eqn:Hstep; [|done].
  apply generate_step_inv in Hstep as (toks & u & us & _ & _ & _ & Hzip & Hunf & ->).
  assert (Hinv' : Forall (λ u, ∃ j : nat, (j ≤ S n)%nat ∧
                                u mod 2 ^ 64 = 2 ^ Z.of_nat j mod 2 ^ 64) unfinished').
  { rewrite Hzip. apply Forall_forall.
    intros x (i & (u0 & t & -> & Hu & Ht)%lookup_zip_with_Some)%list_elem_of_lookup.
    rewrite Forall_forall in Hinv.
    destruct (Hinv u0) as (j & Hj & Hu0); [by eapply list_elem_of_lookup_2 |].
    rewrite wrap64_mod, <- Z.mul_mod_idemp_l, Hu0, Z.mul_mod_idemp_l by lia.
    destruct (not_eos_count_pair a b t Hab) as [-> | ->].
    - exists j. split; [lia |]. by rewrite Z.mul_1_r.
    - exists (S j). split; [lia |]. f_equal. rewrite Nat2Z.inj_succ, Z.pow_succ_r by lia.
      lia. }
  rewrite Hcrit, orb_false_r.
  rewrite bool_decide_eq_false_2.
  2:{ intros (x & Hin & ->)%max_zero_elem. rewrite <- Hunf in Hin.
      rewrite Forall_forall in Hinv'. destruct (Hinv' 0 Hin) as (j & Hj & Hzero).
      symmetry in Hzero. revert Hzero. rewrite Z.mod_0_l by lia.
      apply power_of_two_nonzero. lia. }
  specialize (IH (S n) ids' kw' unfinished' g' ltac:(lia) Hinv').
  by destruct (generate_loop _ _ fuel ids' kw' unfinished' g').
Qed.

(** X16: with two distinct end-token ids,
    [sum(next_tokens != i for i in eos_token_id)] is one or two for
    every token, so that an end token never marks a sequence as
    finished: [unfinished_sequences] holds [int64] powers of two, which
    reach zero only by wrapping around after 64 doublings.  Within the
    first 63 iterations the generator therefore never stops unless a
    stopping criterion fires. *)
Theorem stream_generate_two_end_tokens (a b : Z) (fuel : nat)
    (input_ids : list (list Z)) (kw : model_kwargs) (g : rng) :
  a ≠ b → (∀ ids, stopping_criteria ids = false) → (fuel ≤ 63)%nat →
  (stream_generate do_sample [a; b] fuel input_ids kw g).2 ≠ Stopped.
Proof.
  intros Hab Hcrit Hfuel. unfold stream_generate.
  apply (generate_loop_powers a b fuel Hab Hcrit 0); [lia |].
  apply Forall_forall. intros x [-> _]%elem_of_replicate. by exists 0%nat.
Qed.

End EndTokens.

Lemma stream_generate_yields_witness :
  (@stream_generate pow2_exp list_sampler capped_generation false [1] 5
     [[7; 7]; [8; 8]] tt ([] : list Q)).1 !! 1%nat
  = Some [[7; 7; 0; 0]; [8; 8; 0; 0]] ∧
  Forall2 (λ row row', ∃ new, row' = row ++ new ∧ length new = 2%nat)
    [[7; 7]; [8; 8]] [[7; 7; 0; 0]; [8; 8; 0; 0]] ∧
  @stopping_criteria capped_generation [[7; 7; 0; 0]; [8; 8; 0; 0]] = false.
Proof.
  assert (Hrun : (@stream_generate pow2_exp list_sampler capped_generation false [1] 5
                    [[7; 7]; [8; 8]] tt ([] : list Q)).1 !! 1%nat
                 = Some [[7; 7; 0; 0]; [8; 8; 0; 0]])
    by (vm_compute; reflexivity).
  split; [exact Hrun |].
  exact (@stream_generate_yields pow2_exp list_sampler capped_generation false [1] 5
           [[7; 7]; [8; 8]] tt ([] : list Q) 1 _ Hrun).
Defined.

Lemma stream_generate_yields_unfinished_witness :
  (@stream_generate pow2_exp list_sampler capped_generation true [1] 5
     [[7; 7]; [8; 8]] tt ([95 # 100; 1 # 2; 1 # 2; 1 # 2; 1 # 2; 1 # 2]%Q : list Q)).1
    !! 1%nat
  = Some [[7; 7; 1; 0]; [8; 8; 0; 0]] ∧
  ∃ i row new,
    [[7; 7]; [8; 8]] !! i = Some row ∧
    [[7; 7; 1; 0]; [8; 8; 0; 0]] !! i = Some (row ++ new) ∧
    length new = 2%nat ∧ 1 ∉ new.
Proof.
  assert (Hrun : (@stream_generate pow2_exp list_sampler capped_generation true [1] 5
                    [[7; 7]; [8; 8]] tt
                    ([95 # 100; 1 # 2; 1 # 2; 1 # 2; 1 # 2; 1 # 2]%Q : list Q)).1 !! 1%nat
                 = Some [[7; 7; 1; 0]; [8; 8; 0; 0]])
    by (vm_compute; reflexivity).
  split; [exact Hrun |].
  exact (@stream_generate_yields_unfinished pow2_exp list_sampler capped_generation true
           1 5 [[7; 7]; [8; 8]] tt _ 1 _ Hrun).
Defined.

Lemma stream_generate_two_end_tokens_witness :
  0 ≠ 1 ∧ (∀ ids, @stopping_criteria endless_generation ids = false) ∧ (3 ≤ 63)%nat ∧
  @stream_generate pow2_exp list_sampler endless_generation false [0; 1] 3
    [[7; 7]] tt ([] : list Q)
  = ([[[7; 7; 0]]; [[7; 7; 0; 0]]; [[7; 7; 0; 0; 0]]], Pending) ∧
  (@stream_generate pow2_exp list_sampler endless_generation false [0; 1] 3
     [[7; 7]] tt ([] : list Q)).2 ≠ Stopped.
Proof.
  split; [done |]. split; [by intros ids |]. split; [lia |]. split; [by vm_compute |].
  exact (@stream_generate_two_end_tokens pow2_exp list_sampler endless_generation false
           0 1 3 [[7; 7]] tt ([] : list Q) ltac:(done) (λ _, eq_refl) ltac:(lia)).
Defined.

(** ** Reordering the cache of [ChatModel] *)

Lemma traverse_ext_Forall2 {A A' B} (f : A → result B) (f' : A' → result B) xs xs' :
  Forall2 (λ x x', f x = f' x') xs xs' → traverse f xs = traverse f' xs'.
Proof. induction 1 as [|x x' xs xs' Hx _ IH]; [done |]. simpl. by rewrite Hx, IH. Qed.

Lemma index_rows_compose {A} (t r1 : list A) (idx1 idx2 idx12 : list nat) :
  index_rows idx1 idx2 = Ok idx12 → index_rows t idx1 = Ok r1 →
  index_rows r1 idx2 = index_rows t idx12.
Proof.
  intros H12 [_ H1]%index_rows_lookup. revert idx12 H12.
  induction idx2 as [|j idx2 IH]; intros idx12; unfold index_rows in *; simpl.
  { by intros [= <-]. }
  destruct (idx1 !! j) as [b|] eqn:Hj; [|done]. cbn [mbind result_bind].
  destruct (traverse _ idx2) as [rest|e] eqn:Hrest; [|done]. cbn [mbind result_bind].
  intros [= <-]. simpl.
  destruct (H1 j b Hj) as (r & -> & ->). cbn [mbind result_bind].
  by rewrite (IH rest).
Qed.

Lemma index_select1_compose {A} (t t1 : list (list A)) (idx1 idx2 idx12 : list nat) :
  index_rows idx1 idx2 = Ok idx12 → index_select1 t idx1 = Ok t1 →
  index_select1 t1 idx2 = index_select1 t idx12.
Proof.
  intros H12 H1%traverse_Forall2. unfold index_select1.
  apply traverse_ext_Forall2, Forall2_flip. eapply Forall2_impl; [exact H1 |].
  intros row row1 Hrow. by apply index_rows_compose with idx1.
Qed.

Lemma index_rows_seq {A} (pre r : list A) :
  index_rows (pre ++ r) (seq (length pre) (length r)) = Ok r.
Proof.
  revert pre. induction r as [|x r IH]; intros pre; [done |].
  unfold index_rows in *. simpl.
  rewrite lookup_app_r, Nat.sub_diag by done. cbn [lookup list_lookup mbind result_bind].
  specialize (IH (pre ++ [x])). rewrite <- app_assoc, length_app, Nat.add_1_r in IH.
  simpl in IH. by rewrite IH.
Qed.

Lemma index_select1_identity {A} (t : list (list A)) (n : nat) :
  Forall (λ row, length row = n) t → index_select1 t (seq 0 n) = Ok t.
Proof.
  intros Hrows. unfold index_select1. rewrite (traverse_ok _ id); [by rewrite list_fmap_id |].
  intros row Hrow. rewrite Forall_forall in Hrows. rewrite <- (Hrows row Hrow).
  exact (index_rows_seq [] row).
Qed.

(** X17: reordering the cache twice is reordering it once by the composed
    indices: [_reorder_cache(_reorder_cache(past, idx1), idx2)] is
    [_reorder_cache(past, idx1[idx2])]. *)
Theorem reorder_cache_compose {A} (past p1 : list (list (list A) * list (list A)))
    (idx1 idx2 idx12 : list nat) :
  index_rows idx1 idx2 = Ok idx12 →
  _reorder_cache past idx1 = Ok p1 →
  _reorder_cache p1 idx2 = _reorder_cache past idx12.
Proof.
  intros H12 H1%reorder_cache_lookup. unfold _reorder_cache.
  apply traverse_ext_Forall2, Forall2_flip. eapply Forall2_impl; [exact H1 |].
  intros [k v] [k1 v1] [Hk Hv]. simpl in *.
  by rewrite (index_select1_compose k k1 idx1 idx2 idx12),
    (index_select1_compose v v1 idx1 idx2 idx12).
Qed.

(** X18: reordering by the identity indices [0 .. n-1] returns the cache
    as it is, when every key and value has [n] beams. *)
Theorem reorder_cache_identity {A} (past : list (list (list A) * list (list A)))
    (n : nat) :
  Forall (λ layer_past, Forall (λ row, length row = n) layer_past.1 ∧
                        Forall (λ row, length row = n) layer_past.2) past →
  _reorder_cache past (seq 0 n) = Ok past.
Proof.
  intros Hpast. unfold _reorder_cache. rewrite (traverse_ok _ id); [by rewrite list_fmap_id |].
  intros [k v] Hin. rewrite Forall_forall in Hpast. destruct (Hpast _ Hin) as [Hk Hv].
  simpl in *. by rewrite !index_select1_identity.
Qed.

Lemma reorder_cache_compose_witness :
  index_rows [1; 1; 0]%nat [2; 0]%nat = Ok [0; 1]%nat ∧
  _reorder_cache [([[1; 2]; [3; 4]], [[5; 6]; [7; 8]])] [1; 1; 0]%nat
  = Ok [([[2; 2; 1]; [4; 4; 3]], [[6; 6; 5]; [8; 8; 7]])] ∧
  _reorder_cache [([[2; 2; 1]; [4; 4; 3]], [[6; 6; 5]; [8; 8; 7]])] [2; 0]%nat
  = _reorder_cache [([[1; 2]; [3; 4]], [[5; 6]; [7; 8]])] [0; 1]%nat.
Proof.
  split; [reflexivity |]. split; [reflexivity |].
  exact (reorder_cache_compose [([[1; 2]; [3; 4]], [[5; 6]; [7; 8]])] _
           [1; 1; 0]%nat [2; 0]%nat [0; 1]%nat eq_refl eq_refl).
Defined.

Lemma reorder_cache_identity_witness :
  Forall (λ layer_past, Forall (λ row, length row = 2%nat) layer_past.1 ∧
                        Forall (λ row, length row = 2%nat) layer_past.2)
    [([[1; 2]; [3; 4]], [[5; 6]; [7; 8]])] ∧
  _reorder_cache [([[1; 2]; [3; 4]], [[5; 6]; [7; 8]])] (seq 0 2)
  = Ok [([[1; 2]; [3; 4]], [[5; 6]; [7; 8]])].
Proof.
  assert (Hshape : Forall (λ layer_past, Forall (λ row, length row = 2%nat) layer_past.1 ∧
                                         Forall (λ row, length row = 2%nat) layer_past.2)
                     [([[1; 2]; [3; 4]], [[5; 6]; [7; 8]])])
    by (repeat constructor).
  split; [exact Hshape |].
  exact (reorder_cache_identity [([[1; 2]; [3; 4]], [[5; 6]; [7; 8]])] 2 Hshape).
Defined.

(** ** The inputs [ChatModel] prepares *)

Lemma collect_Forall2 {A B} (f : A → chat_result B) xs ys :
  collect f xs = Returns ys → Forall2 (λ x y, f x = Returns y) xs ys.
Proof.
  revert ys. induction xs as [|x xs IH]; intros ys Hys; simpl in Hys.
  - injection Hys as <-. constructor.
  - destruct (f x) as [y|e] eqn:Hx; [|done]. cbn [mbind chat_result_bind] in Hys.
    destruct (collect f xs) as [ys'|e]; [|done]. cbn [mbind chat_result_bind] in Hys.
    injection Hys as <-. constructor; [done |]. by apply IH.
Qed.

Lemma collect_returns {A B} (f : A → chat_result B) xs ys :
  Forall2 (λ x y, f x = Returns y) xs ys → collect f xs = Returns ys.
Proof. induction 1 as [|x y xs ys Hx _ IH]; [done |]. simpl. by rewrite Hx, IH. Qed.

Lemma collect_raises {A B} (f : A → chat_result B) xs e :
  collect f xs = Raises e → ∃ x, x ∈ xs ∧ f x = Raises e.
Proof.
  induction xs as [|x xs IH]; [done |]. simpl.
  destruct (f x) as [y|e'] eqn:Hx; cbn [mbind chat_result_bind].
  - destruct (collect f xs) as [ys|e'']; [done |]. cbn [mbind chat_result_bind].
    intros [= ->]. destruct IH as (x' & Hin & Hx'); [done |].
    exists x'. split; [by apply list_elem_of_further | done].
  - intros [= ->]. exists x. split; [apply list_elem_of_here | done].
Qed.

Lemma list_index_Returns (x : Z) (row : list Z) (i : nat) :
  list_index x row = Returns i ↔ row !! i = Some x ∧ ∀ j, (j < i)%nat → row !! j ≠ Some x.
Proof.
  unfold list_index. split.
  - destruct (list_find _ row) as [[i' y]|] eqn:Hfind; [|done]. intros [= ->].
    apply list_find_Some in Hfind as (Hi & -> & Hbefore). split; [done |].
    intros j Hj Hrow. by apply (Hbefore j x).
  - intros [Hi Hbefore].
    rewrite (proj2 (list_find_Some (λ y, y = x) row i x)); [done |].
    split; [done |]. split; [done |]. intros j y Hy Hj ->. by apply (Hbefore j).
Qed.

Lemma list_index_elem (x : Z) (row : list Z) :
  x ∈ row ↔ ∃ i, list_index x row = Returns i.
Proof.
  split.
  - intros Hin. unfold list_index.
    destruct (list_find_elem_of (λ y, y = x) row x Hin eq_refl) as [[i y] ->]. by exists i.
  - intros [i [Hi _]%list_index_Returns]. by eapply list_elem_of_lookup_2.
Qed.

Lemma list_index_Raises (x : Z) (row : list Z) (e : chat_exn) :
  list_index x row = Raises e → e = ValueError ∧ x ∉ row.
Proof.
  intros Hidx. split.
  - unfold list_index in Hidx. destruct (list_find _ row) as [[i y]|]; [done |].
    by injection Hidx as <-.
  - intros [i Hi]%list_index_elem. by rewrite Hi in Hidx.
Qed.

Lemma collect_index_Returns (x : Z) (ids : list (list Z)) (l : list nat) :
  collect (list_index x) ids = Returns l → Forall (λ row, x ∈ row) ids.
Proof.
  intros Hl%collect_Forall2. induction Hl as [|row i ids l Hrow _ IH]; constructor; [|done].
  apply list_index_elem. by exists i.
Qed.

Lemma collect_index_ok (x : Z) (ids : list (list Z)) :
  Forall (λ row, x ∈ row) ids →
  ∃ l, collect (list_index x) ids = Returns l ∧ length l = length ids.
Proof.
  induction 1 as [|row ids [i Hi]%list_index_elem _ (l & Hl & Hlen)].
  - by exists [].
  - exists (i :: l). simpl. rewrite Hi, Hl. split; [done |]. by rewrite Hlen.
Qed.

Lemma tril_lookup (n r c : nat) :
  (r < n)%nat → (c < n)%nat →
  tril n !! r ≫= (.!! c) = Some (if (c <=? r)%nat then 1 else 0).
Proof.
  intros Hr Hc. unfold tril.
  rewrite list_lookup_fmap, lookup_seq_lt by done. cbn [fmap option_fmap option_map mbind option_bind].
  by rewrite list_lookup_fmap, lookup_seq_lt.
Qed.

Lemma fill_columns_lookup (k : nat) (m : list (list Z)) (r c : nat) (x : Z) :
  m !! r ≫= (.!! c) = Some x →
  fill_columns k m !! r ≫= (.!! c) = Some (if (c <? k)%nat then 1 else x).
Proof.
  unfold fill_columns. rewrite list_lookup_fmap.
  destruct (m !! r) as [row|]; [|done]. cbn [fmap option_fmap option_map mbind option_bind].
  intros Hc. pose proof (lookup_lt_Some _ _ _ Hc) as Hlt.
  destruct (Nat.ltb_spec c k) as [Hck|Hck].
  - rewrite lookup_app_l by (rewrite length_replicate; lia).
    rewrite lookup_replicate_2 by lia. done.
  - rewrite lookup_app_r by (rewrite length_replicate; lia).
    rewrite length_replicate, lookup_drop, <- Hc. f_equal. lia.
Qed.

Lemma assign_positions_length (mask_positions : list nat) (context_lengths : list nat) :
  ∀ i position_ids out,
    assign_positions mask_positions i context_lengths position_ids = Returns out →
    length out = length position_ids.
Proof.
  induction context_lengths as [|c cs IH]; intros i p out; simpl.
  - by intros [= <-].
  - destruct (mask_positions !! i) as [mp|]; [|done]. intros ->%IH.
    rewrite length_app, length_take, length_replicate. lia.
Qed.

Lemma assign_positions_ok (mask_positions : list nat) (context_lengths : list nat) :
  ∀ i position_ids,
    (i + length context_lengths ≤ length mask_positions)%nat →
    ∃ out, assign_positions mask_positions i context_lengths position_ids = Returns out.
Proof.
  induction context_lengths as [|c cs IH]; intros i p Hlen; simpl in *.
  - by eexists.
  - destruct (lookup_lt_is_Some_2 mask_positions i) as [mp ->]; [lia |].
    apply IH. lia.
Qed.

Lemma assign_positions_last (mask_positions : list nat) (context_lengths : list nat)
    (context_length mask_position : nat) :
  ∀ i position_ids out,
    mask_positions !! (i + length context_lengths)%nat = Some mask_position →
    assign_positions mask_positions i (context_lengths ++ [context_length]) position_ids
    = Returns out →
    ∀ j, (context_length ≤ j < length position_ids)%nat →
         out !! j = Some (Z.of_nat mask_position).
Proof.
  induction context_lengths as [|c cs IH]; intros i p out Hlast; simpl.
  - rewrite Nat.add_0_r in Hlast. rewrite Hlast. intros [= <-] j Hj.
    rewrite lookup_app_r by (rewrite length_take; lia).
    apply lookup_replicate_2. rewrite length_take. lia.
  - destruct (mask_positions !! i) as [mp|]; [|done]. intros Hout j Hj.
    eapply (IH (S i)); [| exact Hout |].
    + rewrite <- Hlast. f_equal. simpl. lia.
    + rewrite length_app, length_take, length_replicate. lia.
Qed.

Section ChatInputFacts.
Variable bos_token_id : Z.

(** X19: the attention mask of [get_masks_and_position_ids] lets
    position [r] of sequence [i] see position [c] exactly when [c] is not
    after [r] or lies before the first [bos] of the sequence: the context
    is visible to every position, the rest only causally. *)
Theorem attention_mask_prefix_visible (seq_length : nat) (input_ids : list (list Z))
    (mask_positions : list nat) (gmask : bool)
    (attention_mask : list (list (list (list Z)))) (position_ids : list (list (list Z)))
    (i : nat) (row : list Z) (context_length r c : nat) :
  get_masks_and_position_ids bos_token_id seq_length input_ids mask_positions gmask
  = Returns (attention_mask, position_ids) →
  input_ids !! i = Some row → list_index bos_token_id row = Returns context_length →
  (r < seq_length)%nat → (c < seq_length)%nat →
  ∃ m, attention_mask !! i = Some [m] ∧
       m !! r ≫= (.!! c) = Some (if (c <=? r)%nat || (c <? context_length)%nat then 1 else 0).
Proof.
  unfold get_masks_and_position_ids. intros Hrun Hrow Hctx Hr Hc.
  destruct (collect _ input_ids) as [context_lengths|e] eqn:Hlens; [|done].
  cbn [mbind chat_result_bind] in Hrun.
  destruct (if gmask then _ else _) as [shared|e]; [|done].
  cbn [mbind chat_result_bind] in Hrun.
  destruct (_ <$> context_lengths) as [|b bs]; [done |]. injection Hrun as <- _.
  apply collect_Forall2 in Hlens.
  destruct (Forall2_lookup_l _ _ _ _ _ Hlens Hrow) as (ctx & Hi & Hctx').
  rewrite Hctx in Hctx'. injection Hctx' as <-.
  exists (fill_columns context_length (tril seq_length)). split.
  - rewrite list_lookup_fmap.
    assert (Hm : zip_with fill_columns context_lengths
                   (replicate (length input_ids) (tril seq_length)) !! i
                 = Some (fill_columns context_length (tril seq_length))).
    { apply lookup_zip_with_Some.
      exists context_length, (tril seq_length). split; [done |]. split; [done |].
      apply lookup_replicate_2. by eapply lookup_lt_Some. }
    by rewrite Hm.
  - rewrite (fill_columns_lookup _ _ _ _ _ (tril_lookup _ _ _ Hr Hc)).
    by destruct (c <=? r)%nat, (c <? context_length)%nat.
Qed.

End ChatInputFacts.

Lemma last_column_shared (n context_length : nat) (p : Z) (prefix : list Z) :
  length prefix = context_length → (context_length < n)%nat →
  drop (n - 1) (prefix ++ replicate (n - context_length) p) = [p].
Proof.
  intros Hlen Hlt. rewrite drop_app_ge by lia. rewrite drop_replicate, Hlen.
  by replace (n - context_length - (n - 1 - context_length))%nat with 1%nat by lia.
Qed.

Lemma last_column_block (n context_length : nat) :
  (context_length < n)%nat →
  drop (n - 1) (replicate context_length 0
                ++ ((λ x, x + 1) <$> arange (n - context_length)))
  = [Z.of_nat n - Z.of_nat context_length].
Proof.
  intros Hlt. rewrite drop_app_ge by (rewrite length_replicate; lia).
  rewrite length_replicate. unfold arange. rewrite <- !fmap_drop, drop_seq.
  replace (n - context_length - (n - 1 - context_length))%nat with 1%nat by lia.
  cbn [seq fmap list_fmap]. f_equal. lia.
Qed.

Section ChatPositions.
Variable bos_token_id : Z.

(** X20: in [MASK] mode every sequence of a batch gets the mask position
    of the last sequence: from the context length of the last sequence
    on, the first position channel of each row holds the last row's mask
    position, because the rows of the expanded [position_ids] share
    their storage. *)
Theorem mask_position_of_last_row (seq_length : nat) (rows : list (list Z)) (row : list Z)
    (mask_positions : list nat) (mask_position context_length : nat)
    (attention_mask : list (list (list (list Z)))) (position_ids : list (list (list Z)))
    (i j : nat) (channels : list (list Z)) :
  length mask_positions = length rows →
  list_index bos_token_id row = Returns context_length →
  get_masks_and_position_ids bos_token_id seq_length (rows ++ [row])
    (mask_positions ++ [mask_position]) false
  = Returns (attention_mask, position_ids) →
  position_ids !! i = Some channels →
  (context_length ≤ j < seq_length)%nat →
  channels !! 0%nat ≫= (.!! j) = Some (Z.of_nat mask_position).
Proof.
  unfold get_masks_and_position_ids. intros Hmps Hctx Hrun Hi Hj.
  destruct (collect _ (rows ++ [row])) as [context_lengths|e] eqn:Hlens; [|done].
  cbn [mbind chat_result_bind] in Hrun.
  destruct (assign_positions _ _ _ _) as [shared|e] eqn:Hshared; [|done].
  cbn [mbind chat_result_bind] in Hrun.
  destruct (_ <$> context_lengths) as [|b bs] eqn:Hblock; [done |]. rewrite <- Hblock in Hrun.
  injection Hrun as _ <-.
  apply lookup_zip_with_Some in Hi as (p & blk & -> & Hp & _).
  apply lookup_replicate in Hp as [-> _]. cbn [lookup list_lookup mbind option_bind].
  apply collect_Forall2, Forall2_app_inv_l in Hlens as (cs & c & Hcs & Hc & ->).
  inversion Hc as [|? ctx ? ? Hctx' Hnil]; subst. inversion Hnil; subst.
  rewrite Hctx in Hctx'. injection Hctx' as <-.
  eapply assign_positions_last; [| exact Hshared |].
  - rewrite <- (Forall2_length _ _ _ Hcs), <- Hmps. cbn [Nat.add].
    by rewrite lookup_app_r, Nat.sub_diag.
  - unfold arange. by rewrite length_fmap, length_seq.
Qed.

(** X21: for a single sequence that contains [MASK], the positions that
    [prepare_inputs_for_generation] computes for the last token when a
    cache is given are the last column of the positions it computes for
    the whole sequence without a cache. *)
Theorem incremental_positions_agree (seq_length : nat) (row : list Z)
    (input_ids : list (list Z)) (position_ids : list (list (list Z)))
    (attention_mask : list (list (list (list Z)))) :
  length row = seq_length → MASK ∈ row →
  prepare_inputs_for_generation bos_token_id seq_length [row] false
  = Returns (Full input_ids position_ids attention_mask) →
  prepare_inputs_for_generation bos_token_id seq_length [row] true
  = Returns (Incremental (last_column [row]) (last_column <$> position_ids)).
Proof.
  intros Hlen Hmask. unfold prepare_inputs_for_generation, get_masks_and_position_ids.
  cbn [concat]. rewrite app_nil_r, bool_decide_eq_true_2 by done.
  cbn [negb collect].
  destruct (list_index MASK row) as [mask_position|e]; [|done].
  cbn [mbind chat_result_bind].
  destruct (list_index bos_token_id row) as [context_length|e] eqn:Hctx; [|done].
  cbn [mbind chat_result_bind assign_positions lookup list_lookup length replicate
         zip_with fmap list_fmap].
  intros [= <- <- <-].
  assert (context_length < seq_length)%nat as Hlt.
  { apply list_index_Returns in Hctx as [Hctx _]. apply lookup_lt_Some in Hctx. lia. }
  rewrite decide_False by lia. cbn [mbind chat_result_bind].
  assert (Harange : length (arange seq_length) = seq_length)
    by (unfold arange; by rewrite length_fmap, length_seq).
  rewrite Harange.
  do 2 f_equal. unfold last_column. cbn [fmap list_fmap]. do 2 f_equal.
  - rewrite length_app, length_take, length_replicate, Harange.
    replace (context_length `min` seq_length + (seq_length - context_length))%nat
      with seq_length by lia.
    symmetry. apply last_column_shared; [|done].
    rewrite length_take, Harange. lia.
  - f_equal. rewrite length_app, length_replicate, length_fmap.
    assert (Hrest : length (arange (seq_length - context_length))
                    = (seq_length - context_length)%nat)
      by (unfold arange; by rewrite length_fmap, length_seq).
    rewrite Hrest.
    replace (context_length + (seq_length - context_length))%nat with seq_length by lia.
    symmetry. by apply last_column_block.
Qed.

(** X22: on a non-empty batch [prepare_inputs_for_generation] succeeds
    exactly when every sequence contains [bos] and the mask token of the
    batch, which is [MASK] as soon as any sequence contains [MASK] and
    [gMASK] otherwise; when it fails, it fails with [ValueError]. *)
Theorem prepare_inputs_succeeds_iff (seq_length : nat) (input_ids : list (list Z))
    (has_past : bool) :
  input_ids ≠ [] → Forall (λ row, length row = seq_length) input_ids →
  ((∃ inputs,
      prepare_inputs_for_generation bos_token_id seq_length input_ids has_past
      = Returns inputs)
   ↔ Forall (λ row, (if bool_decide (MASK ∈ concat input_ids) then MASK else gMASK) ∈ row
                    ∧ bos_token_id ∈ row) input_ids) ∧
  ∀ e, prepare_inputs_for_generation bos_token_id seq_length input_ids has_past = Raises e →
       e = ValueError.
Proof.
  intros Hbatch Hshape.
  unfold prepare_inputs_for_generation, get_masks_and_position_ids.
  set (mask_token := if bool_decide (MASK ∈ concat input_ids) then MASK else gMASK).
  destruct (collect (list_index mask_token) input_ids) as [mask_positions|e] eqn:Hmask.
  2:{ cbn [mbind chat_result_bind].
      apply collect_raises in Hmask as (row & Hin & [-> Hrow]%list_index_Raises).
      split; [|by intros e [= <-]]. split; [by intros [? ?] |].
      rewrite Forall_forall. intros Hall. by destruct (Hall row Hin). }
  pose proof (collect_index_Returns _ _ _ Hmask) as Hmasks.
  assert (length mask_positions = length input_ids) as Hmlen.
  { symmetry. eapply Forall2_length, collect_Forall2, Hmask. }
  cbn [mbind chat_result_bind].
  destruct (collect (list_index bos_token_id) input_ids) as [context_lengths|e] eqn:Hbos.
  2:{ apply collect_raises in Hbos as (row & Hin & [-> Hrow]%list_index_Raises).
      assert (Hnot : ¬ Forall (λ row, mask_token ∈ row ∧ bos_token_id ∈ row) input_ids).
      { rewrite Forall_forall. intros Hall. by destruct (Hall row Hin). }
      destruct has_past; cbn [mbind chat_result_bind];
        (split; [split; [by intros [? ?] | done] | by intros e [= <-]]). }
  pose proof (collect_index_Returns _ _ _ Hbos) as Hboss.
  assert (length context_lengths = length input_ids) as Hclen.
  { symmetry. eapply Forall2_length, collect_Forall2, Hbos. }
  assert (Hall : Forall (λ row, mask_token ∈ row ∧ bos_token_id ∈ row) input_ids).
  { rewrite Forall_forall in *. intros row Hin. split; [by apply Hmasks | by apply Hboss]. }
  destruct has_past; cbn [mbind chat_result_bind].
  - assert (seq_length ≠ 0%nat) as Hpos.
    { destruct input_ids as [|row rows]; [done |].
      inversion_clear Hshape as [|? ? Hlen _]. inversion_clear Hboss as [|? ? Hin _].
      intros ->. apply length_zero_iff_nil in Hlen as ->. by apply not_elem_of_nil in Hin. }
    rewrite decide_False by done. cbn [mbind chat_result_bind].
    split; [split; [done | by eexists] | done].
  - cbn [negb].
    assert (∃ shared,
              (if negb (bool_decide (MASK ∈ concat input_ids))
               then Returns (arange seq_length)
               else assign_positions mask_positions 0 context_lengths (arange seq_length))
              = Returns shared) as [shared ->].
    { destruct (negb _); [by eexists |]. apply assign_positions_ok. simpl. lia. }
    cbn [mbind chat_result_bind].
    destruct context_lengths as [|c cs].
    { destruct input_ids; [done | simpl in Hclen; lia]. }
    rewrite fmap_cons. cbn [mbind chat_result_bind].
    split; [split; [done | by eexists] | done].
Qed.

End ChatPositions.

Lemma attention_mask_prefix_visible_witness :
  get_masks_and_position_ids 9 4 [[150000; 5; 9; 7]] [0%nat] false
  = Returns ([[[[1; 1; 0; 0]; [1; 1; 0; 0]; [1; 1; 1; 0]; [1; 1; 1; 1]]]],
             [[[0; 1; 0; 0]; [0; 0; 1; 2]]]) ∧
  [[150000; 5; 9; 7]] !! 0%nat = Some [150000; 5; 9; 7] ∧
  list_index 9 [150000; 5; 9; 7] = Returns 2%nat ∧ (0 < 4)%nat ∧ (1 < 4)%nat ∧
  ∃ m, [[[[1; 1; 0; 0]; [1; 1; 0; 0]; [1; 1; 1; 0]; [1; 1; 1; 1]]]] !! 0%nat = Some [m] ∧
       m !! 0%nat ≫= (.!! 1%nat) = Some (if (1 <=? 0)%nat || (1 <? 2)%nat then 1 else 0).
Proof.
  assert (Hrun : get_masks_and_position_ids 9 4 [[150000; 5; 9; 7]] [0%nat] false
                 = Returns ([[[[1; 1; 0; 0]; [1; 1; 0; 0]; [1; 1; 1; 0]; [1; 1; 1; 1]]]],
                            [[[0; 1; 0; 0]; [0; 0; 1; 2]]]))
    by (vm_compute; reflexivity).
  split; [exact Hrun |]. split; [reflexivity |]. split; [by vm_compute |].
  split; [lia |]. split; [lia |].
  exact (attention_mask_prefix_visible 9 4 _ _ _ _ _ 0 _ 2 0 1 Hrun eq_refl
           ltac:(by vm_compute) ltac:(lia) ltac:(lia)).
Defined.

Lemma mask_position_of_last_row_witness :
  length [0%nat] = length [[150000; 5; 9; 7]] ∧
  list_index 9 [5; 150000; 7; 9] = Returns 3%nat ∧
  get_masks_and_position_ids 9 4 ([[150000; 5; 9; 7]] ++ [[5; 150000; 7; 9]])
    ([0%nat] ++ [1%nat]) false
  = Returns ([[[[1; 1; 0; 0]; [1; 1; 0; 0]; [1; 1; 1; 0]; [1; 1; 1; 1]]];
              [[[1; 1; 1; 0]; [1; 1; 1; 0]; [1; 1; 1; 0]; [1; 1; 1; 1]]]],
             [[[0; 1; 0; 1]; [0; 0; 1; 2]]; [[0; 1; 0; 1]; [0; 0; 0; 1]]]) ∧
  [[[0; 1; 0; 1]; [0; 0; 1; 2]]; [[0; 1; 0; 1]; [0; 0; 0; 1]]] !! 0%nat
  = Some [[0; 1; 0; 1]; [0; 0; 1; 2]] ∧
  (3 ≤ 3 < 4)%nat ∧
  [[0; 1; 0; 1]; [0; 0; 1; 2]] !! 0%nat ≫= (.!! 3%nat) = Some (Z.of_nat 1).
Proof.
  assert (Hrun : get_masks_and_position_ids 9 4 ([[150000; 5; 9; 7]] ++ [[5; 150000; 7; 9]])
                   ([0%nat] ++ [1%nat]) false
                 = Returns ([[[[1; 1; 0; 0]; [1; 1; 0; 0]; [1; 1; 1; 0]; [1; 1; 1; 1]]];
                             [[[1; 1; 1; 0]; [1; 1; 1; 0]; [1; 1; 1; 0]; [1; 1; 1; 1]]]],
                            [[[0; 1; 0; 1]; [0; 0; 1; 2]]; [[0; 1; 0; 1]; [0; 0; 0; 1]]]))
    by (vm_compute; reflexivity).
  split; [reflexivity |]. split; [by vm_compute |]. split; [exact Hrun |].
  split; [reflexivity |]. split; [lia |].
  exact (mask_position_of_last_row 9 4 [[150000; 5; 9; 7]] [5; 150000; 7; 9] [0%nat]
           1 3 _ _ 0 3 _ eq_refl ltac:(by vm_compute) Hrun eq_refl ltac:(lia)).
Defined.

Lemma incremental_positions_agree_witness :
  length [150000; 5; 9; 7] = 4%nat ∧ MASK ∈ [150000; 5; 9; 7] ∧
  prepare_inputs_for_generation 9 4 [[150000; 5; 9; 7]] false
  = Returns (Full [[150000; 5; 9; 7]] [[[0; 1; 0; 0]; [0; 0; 1; 2]]]
               [[[[1; 1; 0; 0]; [1; 1; 0; 0]; [1; 1; 1; 0]; [1; 1; 1; 1]]]]) ∧
  prepare_inputs_for_generation 9 4 [[150000; 5; 9; 7]] true
  = Returns (Incremental (last_column [[150000; 5; 9; 7]])
               (last_column <$> [[[0; 1; 0; 0]; [0; 0; 1; 2]]])).
Proof.
  assert (Hmask : MASK ∈ [150000; 5; 9; 7]) by (apply list_elem_of_here).
  assert (Hrun : prepare_inputs_for_generation 9 4 [[150000; 5; 9; 7]] false
                 = Returns (Full [[150000; 5; 9; 7]] [[[0; 1; 0; 0]; [0; 0; 1; 2]]]
                              [[[[1; 1; 0; 0]; [1; 1; 0; 0]; [1; 1; 1; 0]; [1; 1; 1; 1]]]]))
    by (vm_compute; reflexivity).
  split; [reflexivity |]. split; [exact Hmask |]. split; [exact Hrun |].
  exact (incremental_positions_agree 9 4 [150000; 5; 9; 7] _ _ _ eq_refl Hmask Hrun).
Defined.

Lemma prepare_inputs_succeeds_iff_witness :
  [[150000; 5; 9; 7]; [150001; 5; 9; 7]] ≠ [] ∧
  Forall (λ row, length row = 4%nat) [[150000; 5; 9; 7]; [150001; 5; 9; 7]] ∧
  ((∃ inputs,
      prepare_inputs_for_generation 9 4 [[150000; 5; 9; 7]; [150001; 5; 9; 7]] true
      = Returns inputs)
   ↔ Forall (λ row,
               (if bool_decide (MASK ∈ concat [[150000; 5; 9; 7]; [150001; 5; 9; 7]])
                then MASK else gMASK) ∈ row ∧ 9 ∈ row)
       [[150000; 5; 9; 7]; [150001; 5; 9; 7]]) ∧
  ∀ e, prepare_inputs_for_generation 9 4 [[150000; 5; 9; 7]; [150001; 5; 9; 7]] true
       = Raises e → e = ValueError.
Proof.
  assert (Hshape : Forall (λ row, length row = 4%nat)
                     [[150000; 5; 9; 7]; [150001; 5; 9; 7]])
    by (repeat constructor).
  split; [done |]. split; [exact Hshape |].
  exact (prepare_inputs_succeeds_iff 9 4 [[150000; 5; 9; 7]; [150001; 5; 9; 7]] true
           ltac:(done) Hshape).
Defined.

(** ** Invalid scores *)

Lemma existsb_invalid (scores : list (list score)) :
  existsb (existsb is_invalid) scores = false ↔
  Forall (Forall (λ x, is_invalid x = false)) scores.
Proof.
  induction scores as [|row scores IH]; simpl.
  - split; [constructor | done].
  - rewrite orb_false_iff, IH, Forall_cons. apply and_iff_compat_r.
    induction row as [|x row IHrow]; simpl.
    + split; [constructor | done].
    + by rewrite orb_false_iff, IHrow, Forall_cons.
Qed.

(** X23: what [InvalidScoreLogitsProcessor] returns has the shape of its
    input and holds no NaN and no infinity; scores that are all finite
    are returned as they are. *)
Theorem invalid_scores_removed (scores out : list (list score)) :
  InvalidScoreLogitsProcessor scores = Ok out →
  Forall2 (λ row row', length row' = length row) scores out ∧
  Forall (Forall (λ x, is_invalid x = false)) out ∧
  (Forall (Forall (λ x, is_invalid x = false)) scores → out = scores).
Proof.
  unfold InvalidScoreLogitsProcessor.
  destruct (existsb (existsb is_invalid) scores) eqn:Hany.
  - intros Hout%traverse_Forall2. split; [|split].
    + eapply Forall2_impl; [exact Hout |]. intros row row' Hrow. simpl in Hrow.
      case_decide; [|done]. injection Hrow as <-.
      by rewrite length_insert, length_fmap.
    + clear Hany. induction Hout as [|row row' rows rows' Hrow _ IH]; constructor; [|done].
      simpl in Hrow. case_decide; [|done]. injection Hrow as <-.
      apply Forall_insert; [|done]. apply Forall_fmap, Forall_forall. by intros x _.
    + intros Hfinite%existsb_invalid. by rewrite Hfinite in Hany.
  - intros [= <-]. split; [|split; [|done]].
    + apply Forall_Forall2_diag, Forall_forall. by intros row _.
    + by apply existsb_invalid.
Qed.

(** X24: a single NaN or infinite score anywhere in the batch replaces
    every row of the batch: each returned row is zero everywhere except
    for [5e4] at index 20005; and the call fails with [IndexError] when
    the rows have no index 20005. *)
Theorem invalid_score_resets_batch (scores : list (list score)) (row : list score)
    (x : score) :
  row ∈ scores → x ∈ row → is_invalid x = true →
  match InvalidScoreLogitsProcessor scores with
  | Ok out =>
      Forall (λ row, (fallback_index < length row)%nat) scores ∧
      ∀ i j row' y, out !! i = Some row' → row' !! j = Some y →
                    y = if (j =? fallback_index)%nat then Finite 50000 else Finite 0
  | Raise e => e = IndexError ∧ ∃ row, row ∈ scores ∧ (length row ≤ fallback_index)%nat
  end.
Proof.
  intros Hrow Hx Hbad. unfold InvalidScoreLogitsProcessor.
  assert (Hany : existsb (existsb is_invalid) scores = true).
  { apply existsb_exists. exists row. split; [by apply list_elem_of_In |].
    apply existsb_exists. exists x. split; [by apply list_elem_of_In | done]. }
  rewrite Hany. clear.
  destruct (traverse _ scores) as [out|e] eqn:Hout.
  - apply traverse_Forall2 in Hout. split.
    + induction Hout as [|r r' rs rs' Hr _ IH]; constructor; [|done].
      simpl in Hr. case_decide as Hlen; [|done]. by rewrite length_fmap in Hlen.
    + intros i j row' y Hi Hj.
      destruct (Forall2_lookup_r _ _ _ _ _ Hout Hi) as (r & _ & Hr). simpl in Hr.
      case_decide as Hlen; [|done]. injection Hr as <-.
      destruct (Nat.eqb_spec j fallback_index) as [->|Hne].
      * rewrite list_lookup_insert_eq in Hj by exact Hlen. by injection Hj.
      * rewrite list_lookup_insert_ne in Hj by done.
        rewrite list_lookup_fmap in Hj. destruct (r !! j); [|done]. by injection Hj.
  - induction scores as [|r rs IH]; [done |]. simpl in Hout.
    case_decide as Hlen.
    + cbn [mbind result_bind] in Hout.
      destruct (traverse _ rs) as [out|e'] eqn:Hrest; [done |].
      cbn [mbind result_bind] in Hout. injection Hout as ->.
      destruct IH as [-> (r0 & Hin & Hr0)]; [done |]. split; [done |].
      exists r0. split; [by apply list_elem_of_further | done].
    + cbn [mbind result_bind] in Hout. injection Hout as <-. split; [done |].
      exists r. split; [apply list_elem_of_here |]. rewrite length_fmap in Hlen. lia.
Qed.

Lemma invalid_scores_removed_witness :
  InvalidScoreLogitsProcessor [[Finite 1; Finite 2]] = Ok [[Finite 1; Finite 2]] ∧
  Forall2 (λ row row' : list score, length row' = length row)
    [[Finite 1; Finite 2]] [[Finite 1; Finite 2]] ∧
  Forall (Forall (λ x, is_invalid x = false)) [[Finite 1; Finite 2]] ∧
  (Forall (Forall (λ x, is_invalid x = false)) [[Finite 1; Finite 2]] →
   [[Finite 1; Finite 2]] = [[Finite 1; Finite 2]]).
Proof.
  split; [reflexivity |].
  exact (invalid_scores_removed [[Finite 1; Finite 2]] [[Finite 1; Finite 2]] eq_refl).
Defined.

Lemma invalid_score_resets_batch_witness :
  [Finite 1; Nan] ∈ [[Finite 1; Nan]; [Finite 3; Finite 4]] ∧
  Nan ∈ [Finite 1; Nan] ∧ is_invalid Nan = true ∧
  match InvalidScoreLogitsProcessor [[Finite 1; Nan]; [Finite 3; Finite 4]] with
  | Ok out =>
      Forall (λ row, (fallback_index < length row)%nat)
        [[Finite 1; Nan]; [Finite 3; Finite 4]] ∧
      ∀ i j row' y, out !! i = Some row' → row' !! j = Some y →
                    y = if (j =? fallback_index)%nat then Finite 50000 else Finite 0
  | Raise e =>
      e = IndexError ∧
      ∃ row, row ∈ [[Finite 1; Nan]; [Finite 3; Finite 4]] ∧
             (length row ≤ fallback_index)%nat
  end.
Proof.
  assert (Hrow : [Finite 1; Nan] ∈ [[Finite 1; Nan]; [Finite 3; Finite 4]])
    by apply list_elem_of_here.
  assert (Hx : Nan ∈ [Finite 1; Nan])
    by (apply list_elem_of_further, list_elem_of_here).
  split; [exact Hrow |]. split; [exact Hx |]. split; [reflexivity |].
  exact (invalid_score_resets_batch _ _ _ Hrow Hx eq_refl).
Defined.

(** ** Copying parameters *)

Lemma score_eqb_refl (x : score) : score_eqb x x = true ↔ x ≠ Nan.
Proof.
  destruct x as [|b|q]; simpl.
  - split; [done | by intros []].
  - split; [done | intros _; by destruct b].
  - split; [done | intros _; by apply Qeq_bool_iff].
Qed.

Lemma all_equal_refl (t : tensor) : all_equal t t = true ↔ Nan ∉ elements t.
Proof.
  unfold all_equal. induction (elements t) as [|x l IH]; simpl.
  - split; [intros _; apply not_elem_of_nil | done].
  - rewrite andb_true_iff, IH, score_eqb_refl, not_elem_of_cons.
    split; intros [Hx Hl]; (split; [|done]); congruence.
Qed.

(** X25: [copy_layer_param] ends without an exception exactly when
    every parameter of [dst] has a parameter of the same name and shape
    in [src] whose data holds no NaN; [dst] then carries, name by name,
    the data of [src], and the parameters that only [src] has are
    ignored. *)
Theorem copy_layer_param_result (src dst dst' : list (string * tensor)) :
  copy_layer_param src dst = (dst', None) ↔
  Forall2 (λ kv kv', kv'.1 = kv.1 ∧ dict_get kv.1 src = Some kv'.2 ∧
                     shape kv.2 = shape kv'.2 ∧ Nan ∉ elements kv'.2) dst dst'.
Proof.
  revert dst'. induction dst as [|[k d] rest IH]; intros dst'; simpl.
  - split; [intros [= <-]; constructor | by intros ->%Forall2_nil_inv_l].
  - split.
    + destruct (dict_get k src) as [s|] eqn:Hs; [|done].
      case_bool_decide as Hshape; [|done].
      destruct (all_equal s s) eqn:Heq; [|done].
      destruct (copy_layer_param src rest) as [rest' e] eqn:Hrest.
      intros [= <- ->]. constructor; [|by apply IH].
      simpl. by apply all_equal_refl in Heq.
    + intros Hall. apply Forall2_cons_inv_l in Hall
        as ([k' s] & rest' & (Hk & Hs & Hshape & Hnan) & Hrest & ->).
      simpl in *. subst k'. rewrite Hs, bool_decide_eq_true_2 by done.
      rewrite (proj2 (all_equal_refl s) Hnan).
      apply IH in Hrest. by rewrite Hrest.
Qed.

Lemma set_data_absent (k : string) (t : tensor) (params : list (string * tensor)) :
  k ∉ params.*1 → set_data k t params = params.
Proof.
  unfold set_data. induction params as [|[k' d] params IH]; [done |].
  rewrite fmap_cons, not_elem_of_cons. intros [Hne Hnot]. cbn [fmap list_fmap fst].
  rewrite (proj2 (String.eqb_neq k' k)) by done. f_equal. by apply IH.
Qed.

Lemma set_data_unique (k : string) (d t : tensor) (done todo : list (string * tensor)) :
  NoDup ((done ++ (k, d) :: todo).*1) →
  set_data k t (done ++ (k, d) :: todo) = done ++ (k, t) :: todo.
Proof.
  rewrite fmap_app, fmap_cons. intros Hnodup.
  apply NoDup_app in Hnodup as (_ & Hdisj & [Hk _]%NoDup_cons).
  pose proof (set_data_absent k t done) as Hdone.
  pose proof (set_data_absent k t todo Hk) as Htodo.
  unfold set_data in *. rewrite fmap_app, fmap_cons, Htodo, Hdone.
  - cbn [fst]. by rewrite String.eqb_refl.
  - intros Hin. apply (Hdisj k Hin). apply list_elem_of_here.
Qed.

Section Positional.
Variable P : string → bool.

Lemma assign_pairs_fill (todo : list (string * tensor)) :
  ∀ (ss done dst' : list (string * tensor)),
    NoDup ((done ++ todo).*1) →
    length ss = length (filter (λ kv, P kv.1 = true) todo) →
    assign_pairs (zip ss (filter (λ kv, P kv.1 = true) todo)) (done ++ todo) = (dst', None) →
    ∃ todo',
      dst' = done ++ todo' ∧ todo'.*1 = todo.*1 ∧
      (filter (λ kv, P kv.1 = true) todo').*2 = ss.*2 ∧
      ∀ kv, kv ∈ todo → P kv.1 ≠ true → kv ∈ todo'.
Proof.
  induction todo as [|[k d] todo IH]; intros ss done dst' Hnodup Hlen Hrun.
  - destruct ss; [|done]. injection Hrun as <-. by exists [].
  - destruct (P k) eqn:HP.
    + rewrite filter_cons_True in Hlen, Hrun by done.
      destruct ss as [|[ks s] ss]; [done |]. simpl in Hlen, Hrun.
      case_bool_decide as Hshape; [|done].
      destruct (all_equal s s); [|done].
      rewrite (set_data_unique k d s done todo Hnodup) in Hrun.
      rewrite (cons_middle (k, s)), app_assoc in Hrun.
      apply IH in Hrun as (todo' & -> & Hnames & Hdata & Hkeep); [| |lia].
      2:{ rewrite <- app_assoc, <- cons_middle. by rewrite !fmap_app, !fmap_cons in *. }
      exists ((k, s) :: todo'). rewrite <- app_assoc, <- cons_middle.
      split; [done |]. split; [by rewrite !fmap_cons, Hnames |]. split.
      * rewrite filter_cons_True by done. by rewrite !fmap_cons, Hdata.
      * intros kv [->|Hin]%elem_of_cons Hkv; [simpl in Hkv; by rewrite HP in Hkv |].
        apply list_elem_of_further. by apply Hkeep.
    + rewrite filter_cons_False in Hlen, Hrun by (simpl; by rewrite HP).
      rewrite (cons_middle (k, d)), app_assoc in Hrun, Hnodup.
      apply IH in Hrun as (todo' & -> & Hnames & Hdata & Hkeep); [|done|done].
      exists ((k, d) :: todo'). rewrite <- app_assoc, <- cons_middle.
      split; [done |]. split; [by rewrite !fmap_cons, Hnames |]. split.
      * rewrite filter_cons_False by (simpl; by rewrite HP). done.
      * intros kv [->|Hin]%elem_of_cons Hkv; [apply list_elem_of_here |].
        apply list_elem_of_further. by apply Hkeep.
Qed.

End Positional.

(** X26: [copy_layer_norm] pairs the parameters by position, not by
    name: when it ends without an exception, the parameters of [dst]
    whose name contains [layernorm] carry, in their order, the data of
    the parameters of [src] whose name contains [norm], in theirs; the
    names of [dst] and its other parameters are as before. *)
Theorem copy_layer_norm_by_position (src dst dst' : list (string * tensor)) :
  NoDup dst.*1 → copy_layer_norm src dst = (dst', None) →
  dst'.*1 = dst.*1 ∧
  (filter (λ kv, contains "layernorm" (lower kv.1) = true) dst').*2
  = (filter (λ kv, contains "norm" (lower kv.1) = true) src).*2 ∧
  ∀ kv, kv ∈ dst → contains "layernorm" (lower kv.1) ≠ true → kv ∈ dst'.
Proof.
  intros Hnodup. unfold copy_layer_norm. case_bool_decide as Hlen; [|done]. intros Hrun.
  destruct (assign_pairs_fill (λ k, contains "layernorm" (lower k)) dst _ [] dst'
              Hnodup Hlen Hrun) as (todo' & -> & Hnames & Hdata & Hkeep).
  done.
Qed.

Lemma copy_layer_norm_by_position_witness :
  NoDup target_params.*1 ∧
  copy_layer_norm source_params target_params = (copied_params, None) ∧
  copied_params.*1 = target_params.*1 ∧
  (filter (λ kv, contains "layernorm" (lower kv.1) = true) copied_params).*2
  = (filter (λ kv, contains "norm" (lower kv.1) = true) source_params).*2 ∧
  ∀ kv, kv ∈ target_params → contains "layernorm" (lower kv.1) ≠ true →
        kv ∈ copied_params.
Proof.
  assert (Hnodup : NoDup target_params.*1).
  { unfold target_params. cbn [fmap list_fmap fst].
    repeat (apply NoDup_cons; split;
            [rewrite ?not_elem_of_cons; repeat split; try done; apply not_elem_of_nil |]).
    apply NoDup_nil_2. }
  assert (Hrun : copy_layer_norm source_params target_params = (copied_params, None))
    by (vm_compute; reflexivity).
  split; [exact Hnodup |]. split; [exact Hrun |].
  exact (copy_layer_norm_by_position source_params target_params copied_params Hnodup Hrun).
Defined.
